(** * Emphatic: the bracket-aware scanners of apps/Emphatic/Emphatic.h

    A shallow embedding of the recursive-descent scanner of the Emphatic
    concept translator (class [Emphatic]) and the properties of it that the
    specification states.

    Conventions of the embedding.
    - [tokens] (the member [emp::vector<emp::Token> tokens]) is a list of
      tokens, fixed for a whole run; it is a section variable, so that after
      the section every operation takes it as its first argument.
    - The scanners take their cursor as [size_t & pos]; here they take the
      position and return the new one.  The positional helpers take [int pos]
      and are modelled over [Z], keeping their [pos >= 0] test; the cast from
      [size_t] to [int] is [Z.of_nat], which is exact for token vectors with
      fewer than 2^31 entries and a cursor no greater than that; the
      properties are stated from a cursor inside the tokens.
    - [Error] prints a diagnostic and calls [exit(1)]: it is the outcome
      [Fatal pos msg], which every later step propagates unchanged.
    - An unguarded [tokens[i]] with [i >= tokens.size()] is the outcome
      [OutOfRange i].
    - [Debug] only prints when the debug flag is set and is left out. *)

From Stdlib Require Import Bool Arith Lia ZArith Ascii String List Sorted.
From Stdlib Require OrderedTypeEx.
Import ListNotations.

Local Open Scope string_scope.
Local Open Scope nat_scope.
Local Open Scope list_scope.

(** ** Outcomes of a scan *)

Inductive Outcome (A : Type) : Type :=
| Ok (a : A)                          (* normal return *)
| Fatal (pos : nat) (msg : string)    (* Error(pos, msg): diagnostic, exit(1) *)
| OutOfRange (idx : nat)              (* tokens[idx] outside the vector *)
| Unfinished.                         (* the iteration bound of the model ran out *)

Arguments Ok {A} a.
Arguments Fatal {A} pos msg.
Arguments OutOfRange {A} idx.
Arguments Unfinished {A}.

Definition bind {A B : Type} (m : Outcome A) (k : A -> Outcome B) : Outcome B :=
  match m with
  | Ok a => k a
  | Fatal p msg => Fatal p msg
  | OutOfRange i => OutOfRange i
  | Unfinished => Unfinished
  end.

Declare Scope scan_scope.
Delimit Scope scan_scope with scan.
Notation "x <- m ;; k" := (bind m (fun x => k))
  (at level 61, m at next level, right associativity) : scan_scope.
Notation "' pat <- m ;; k" := (bind m (fun x => match x with pat => k end))
  (at level 61, pat pattern, m at next level, right associativity) : scan_scope.
Notation "m ;;; k" := (bind m (fun _ => k))
  (at level 61, right associativity) : scan_scope.
Local Open Scope scan_scope.

(** ** Tokens *)

(** Modelled from the spec: the token type and the lexer's recognisers live in
    EmphaticLexer.h, which is not part of the sources at hand.  Section 3 of
    the specification gives a token as a kind from a closed set plus its
    lexeme, and says the recognisers are pure functions of the kind. *)
Inductive token_kind : Type :=
| Identifier | Number | StringLit | Preprocessor | Symbol | Whitespace | Comment.

Record Token : Type := mkToken { kind : token_kind; lexeme : string }.

Definition lexer_IsID (t : Token) : bool :=
  match kind t with Identifier => true | _ => false end.
Definition lexer_IsNumber (t : Token) : bool :=
  match kind t with Number => true | _ => false end.
Definition lexer_IsString (t : Token) : bool :=
  match kind t with StringLit => true | _ => false end.
Definition lexer_IsPP (t : Token) : bool :=
  match kind t with Preprocessor => true | _ => false end.
Definition lexer_IsSymbol (t : Token) : bool :=
  match kind t with Symbol => true | _ => false end.

(** [s[0]] of a [std::string]: the first character, the null character for
    the empty string. *)
Definition first_char (s : string) : ascii :=
  match s with
  | EmptyString => "000"%char
  | String c _ => c
  end.

Definition ID (s : string) : Token := mkToken Identifier s.
Definition SYM (s : string) : Token := mkToken Symbol s.

(** ** The output tree *)

(** Modelled from the spec: the node types are declared in AST.h, which is not
    part of the sources at hand.  The fields are the ones Emphatic.h assigns
    and section 3 of the specification lists; a default-constructed node has
    empty strings and empty collections. *)
Record ParamInfo : Type := mkParamInfo {
  param_type : string;
  param_name : string
}.

Record ElementInfo : Type := mkElementInfo {
  ei_type : string;
  ei_name : string;
  params : list ParamInfo;
  attributes : list string;      (* std::set<std::string>, kept sorted *)
  default_code : string;
  special_value : string
}.

Record AST_Concept : Type := mkConcept {
  c_name : string;
  base_name : string;
  typedefs : list ElementInfo;
  variables : list ElementInfo;
  functions : list ElementInfo
}.

#[warnings="-register-all"]
Inductive AST_Node : Type :=
| AST_PP (code : string)
| AST_Class (type name body : string)
| AST_Namespace (name : string) (children : list AST_Node)
| AST_Using (name type : string)
| Concept (c : AST_Concept).

(** An [AST_Scope] is its ordered list of children; [NewChild<T>()] appends a
    node, which the caller then fills in through the reference it gets. *)
Definition AST_Scope : Type := list AST_Node.

Definition new_ElementInfo : ElementInfo :=
  mkElementInfo EmptyString EmptyString [] [] EmptyString EmptyString.

Definition new_Concept : AST_Concept :=
  mkConcept EmptyString EmptyString [] [] [].

Definition with_type (e : ElementInfo) (v : string) : ElementInfo :=
  mkElementInfo v (ei_name e) (params e) (attributes e) (default_code e)
    (special_value e).
Definition with_name (e : ElementInfo) (v : string) : ElementInfo :=
  mkElementInfo (ei_type e) v (params e) (attributes e) (default_code e)
    (special_value e).
Definition with_params (e : ElementInfo) (v : list ParamInfo) : ElementInfo :=
  mkElementInfo (ei_type e) (ei_name e) v (attributes e) (default_code e)
    (special_value e).
Definition with_attributes (e : ElementInfo) (v : list string) : ElementInfo :=
  mkElementInfo (ei_type e) (ei_name e) (params e) v (default_code e)
    (special_value e).
Definition with_default_code (e : ElementInfo) (v : string) : ElementInfo :=
  mkElementInfo (ei_type e) (ei_name e) (params e) (attributes e) v
    (special_value e).
Definition with_special_value (e : ElementInfo) (v : string) : ElementInfo :=
  mkElementInfo (ei_type e) (ei_name e) (params e) (attributes e)
    (default_code e) v.

Definition push_typedef (c : AST_Concept) (e : ElementInfo) : AST_Concept :=
  mkConcept (c_name c) (base_name c) (typedefs c ++ [e]) (variables c)
    (functions c).
Definition push_variable (c : AST_Concept) (e : ElementInfo) : AST_Concept :=
  mkConcept (c_name c) (base_name c) (typedefs c) (variables c ++ [e])
    (functions c).
Definition push_function (c : AST_Concept) (e : ElementInfo) : AST_Concept :=
  mkConcept (c_name c) (base_name c) (typedefs c) (variables c)
    (functions c ++ [e]).

(** [std::set<std::string>::insert]: the elements stay ordered and distinct. *)
Fixpoint set_insert (s : string) (l : list string) : list string :=
  match l with
  | [] => [s]
  | x :: r =>
      match String.compare s x with
      | Lt => s :: l
      | Eq => l
      | Gt => x :: set_insert s r
      end
  end.

Definition newline : string := String "010"%char EmptyString.

(** The scanners hold a [size_t] cursor and hand it to helpers that take an
    [int]: the conversion is implicit in the source and a coercion here. *)
Local Coercion Z.of_nat : nat >-> Z.

Section Emphatic.

Variable tokens : list Token.

(** ** Helper functions (Emphatic.h, lines 57-104) *)

Definition HasToken (pos : Z) : bool :=
  ((pos >=? 0) && (pos <? Z.of_nat (length tokens)))%Z.

(** [tokens[pos]] where the code has already tested [HasToken(pos)]. *)
Definition guarded_token (pos : Z) : option Token :=
  nth_error tokens (Z.to_nat pos).

Definition guarded (f : Token -> bool) (pos : Z) : bool :=
  match guarded_token pos with
  | Some t => f t
  | None => false
  end.

Definition IsID (pos : Z) : bool := HasToken pos && guarded lexer_IsID pos.
Definition IsNumber (pos : Z) : bool := HasToken pos && guarded lexer_IsNumber pos.
Definition IsString (pos : Z) : bool := HasToken pos && guarded lexer_IsString pos.
Definition IsPP (pos : Z) : bool := HasToken pos && guarded lexer_IsPP pos.

Definition AsChar (pos : Z) : ascii :=
  if HasToken pos && guarded lexer_IsSymbol pos
  then match guarded_token pos with
       | Some t => first_char (lexeme t)
       | None => "000"%char
       end
  else "000"%char.

Definition AsLexeme (pos : Z) : string :=
  if HasToken pos
  then match guarded_token pos with
       | Some t => lexeme t
       | None => EmptyString
       end
  else EmptyString.

(** An unguarded [tokens[i]]. *)
Definition tokens_at (i : nat) : Outcome Token :=
  match nth_error tokens i with
  | Some t => Ok t
  | None => OutOfRange i
  end.

(** The loop of [ConcatLexemes]: [n] iterations left, index [i].  The two
    [emp_assert]s at its head are compiled in debug builds only and are not
    modelled. *)
Fixpoint ConcatLexemes_loop (n : nat) (start_pos i : nat) (ss : string)
  : Outcome string :=
  match n with
  | O => Ok ss
  | S n' =>
      let ss := if start_pos <? i then (ss ++ " ")%string else ss in
      t <- tokens_at i ;;
      ConcatLexemes_loop n' start_pos (S i) (ss ++ lexeme t)%string
  end.

Definition ConcatLexemes (start_pos end_pos : nat) : Outcome string :=
  ConcatLexemes_loop (end_pos - start_pos) start_pos start_pos EmptyString.

Definition Error {A : Type} (pos : nat) (msg : string) : Outcome A :=
  Fatal pos msg.

Definition RequireID (pos : nat) (error_msg : string) : Outcome unit :=
  if negb (IsID (Z.of_nat pos)) then Error pos error_msg else Ok tt.
Definition RequireNumber (pos : nat) (error_msg : string) : Outcome unit :=
  if negb (IsNumber (Z.of_nat pos)) then Error pos error_msg else Ok tt.
Definition RequireString (pos : nat) (error_msg : string) : Outcome unit :=
  if negb (IsString (Z.of_nat pos)) then Error pos error_msg else Ok tt.
Definition RequireChar (req_char : ascii) (pos : nat) (error_msg : string)
  : Outcome unit :=
  if negb (Ascii.eqb (AsChar (Z.of_nat pos)) req_char)
  then Error pos error_msg else Ok tt.
Definition RequireLexeme (req_str : string) (pos : nat) (error_msg : string)
  : Outcome unit :=
  if negb (String.eqb (AsLexeme (Z.of_nat pos)) req_str)
  then Error pos error_msg else Ok tt.

(** ** ProcessCode (lines 127-164) *)

(** The local state of the loop: the cursor, the stack of open brackets
    ([push_back] adds at the end, [pop_back] removes the last) and the
    [finished] flag. *)
Record CodeState : Type := mkCodeState {
  cs_pos : nat;
  open_symbols : list ascii;
  finished : bool
}.

(** One pass through the body of the [while] loop: [AsChar(pos++)] and the
    [switch]. *)
Definition ProcessCode_step (match_angle_bracket multi_line : bool)
    (st : CodeState) : CodeState :=
  let cur_char := AsChar (Z.of_nat (cs_pos st)) in
  let pos := S (cs_pos st) in
  let opens := open_symbols st in
  let push := mkCodeState pos (opens ++ [cur_char]) (finished st) in
  let close :=
    if negb (length opens =? 0)
    then mkCodeState pos (removelast opens) (finished st)
    else mkCodeState (pos - 1) opens true in
  let skip := mkCodeState pos opens (finished st) in
  if Ascii.eqb cur_char ";" then
    if negb multi_line then mkCodeState pos opens true else skip
  else if Ascii.eqb cur_char "<" then
    if negb match_angle_bracket then skip else push
  else if Ascii.eqb cur_char "(" then push
  else if Ascii.eqb cur_char "[" then push
  else if Ascii.eqb cur_char "{" then push
  else if Ascii.eqb cur_char ">" then
    if negb match_angle_bracket then skip else close
  else if Ascii.eqb cur_char ")" then close
  else if Ascii.eqb cur_char "]" then close
  else if Ascii.eqb cur_char "}" then close
  else skip.

(** [while (!finished && pos < tokens.size())], at most [n] passes. *)
Fixpoint ProcessCode_loop (n : nat) (match_angle_bracket multi_line : bool)
    (st : CodeState) : CodeState :=
  if negb (finished st) && (cs_pos st <? length tokens) then
    match n with
    | O => st
    | S n' =>
        ProcessCode_loop n' match_angle_bracket multi_line
          (ProcessCode_step match_angle_bracket multi_line st)
    end
  else st.

(** Every pass that does not finish moves the cursor one token on, so
    [tokens.size() - pos] passes are enough (lemma [ProcessCode_loop_exits]). *)
Definition ProcessCode_run (pos : nat) (match_angle_bracket multi_line : bool)
  : CodeState :=
  ProcessCode_loop (length tokens - pos) match_angle_bracket multi_line
    (mkCodeState pos [] false).

Definition ProcessCode (pos : nat) (match_angle_bracket multi_line : bool)
  : Outcome (string * nat) :=
  let start_pos := pos in
  let pos := cs_pos (ProcessCode_run pos match_angle_bracket multi_line) in
  text <- ConcatLexemes start_pos pos ;;
  Ok (text, pos).

(** ** ProcessType (lines 167-200) *)

(** The [while (need_id)] loop, at most [n] passes.  The message handed to
    [RequireID] is built before the call, so [tokens[pos].lexeme] is read
    whether or not there is a token at [pos]. *)
Fixpoint ProcessType_ids (n : nat) (pos : nat) : Outcome nat :=
  match n with
  | O => Unfinished
  | S n' =>
      let pos := if String.eqb (AsLexeme pos) "typename" then S pos else pos in
      let pos := if String.eqb (AsLexeme pos) "template" then S pos else pos in
      t <- tokens_at pos ;;
      RequireID pos ("Expecting type, but found '" ++ lexeme t ++ "'.")%string ;;;
      let pos := S pos in
      pos <- (if String.eqb (AsLexeme pos) "<" then
                '(_, pos) <- ProcessCode (S pos) true false ;;
                RequireChar ">" pos
                  "Templates must end in a close angle bracket." ;;;
                Ok (S pos)
              else Ok pos) ;;
      if String.eqb (AsLexeme pos) "::"
      then ProcessType_ids n' (S pos)
      else Ok pos
  end.

Definition ProcessType (pos : nat) : Outcome (string * nat) :=
  let start_pos := pos in
  let pos := if String.eqb (AsLexeme pos) "const" then S pos else pos in
  pos <- ProcessType_ids (S (length tokens - pos)) pos ;;
  let pos := if String.eqb (AsLexeme pos) "&" then S pos else pos in
  let pos := if String.eqb (AsLexeme pos) "*" then S pos else pos in
  text <- ConcatLexemes start_pos pos ;;
  Ok (text, pos).

(** ** ProcessParams (lines 203-222) *)

Fixpoint ProcessParams_loop (n : nat) (pos : nat) (ps : list ParamInfo)
  : Outcome (list ParamInfo * nat) :=
  if negb (Ascii.eqb (AsChar pos) ")") then
    match n with
    | O => Unfinished
    | S n' =>
        pos <- (if negb (length ps =? 0) then
                  RequireChar "," pos
                    "Parameters must be separated by commas." ;;;
                  Ok (S pos)
                else Ok pos) ;;
        '(type_name, pos) <- ProcessType pos ;;
        '(identifier, pos) <- (if IsID pos
                               then t <- tokens_at pos ;; Ok (lexeme t, S pos)
                               else Ok (EmptyString, pos)) ;;
        ProcessParams_loop n' pos (ps ++ [mkParamInfo type_name identifier])
    end
  else Ok (ps, pos).

Definition ProcessParams (pos : nat) : Outcome (list ParamInfo * nat) :=
  ProcessParams_loop (S (length tokens - pos)) pos [].

(** ** ProcessIDList (lines 225-232) *)

Fixpoint ProcessIDList_loop (n : nat) (pos : nat) (ids : list string)
  : Outcome (list string * nat) :=
  if IsID pos then
    match n with
    | O => Unfinished
    | S n' => ProcessIDList_loop n' (S pos) (set_insert (AsLexeme pos) ids)
    end
  else Ok (ids, pos).

Definition ProcessIDList (pos : nat) : Outcome (list string * nat) :=
  ProcessIDList_loop (length tokens - pos) pos [].

(** ** ProcessTemplate (lines 235-243) *)

(** The parameters between the angle brackets are not collected yet (the
    source marks this as still to do): the [>] is required right after the
    [<]. *)
Definition ProcessTemplate (pos : nat) : Outcome (string * nat) :=
  let start_pos := pos in
  if negb (String.eqb (AsLexeme pos) "template") then Ok (EmptyString, pos)
  else
    let pos := S pos in
    RequireChar "<" pos "Templates must begin with a '<'" ;;;
    let pos := S pos in
    RequireChar ">" pos "Templates must end with a '>'" ;;;
    let pos := S pos in
    text <- ConcatLexemes start_pos pos ;;
    Ok (text, pos).

(** ** ProcessConcept (lines 305-398) *)

(** Lines 332-338: a [using] member; [pos] is at the keyword. *)
Definition ProcessConcept_using (pos : nat) (new_element : ElementInfo)
    (concept : AST_Concept) : Outcome (AST_Concept * nat) :=
  let pos := S pos in
  RequireID pos "A 'using' command must first specify the new type name." ;;;
  '(text, pos) <- ProcessType pos ;;
  let new_element := with_name new_element text in
  RequireChar "=" pos
    "A using statement must provide an equals ('=') to assign the type." ;;;
  let pos := S pos in
  '(text, pos) <- ProcessCode pos false false ;;
  let new_element := with_type new_element text in
  Ok (push_typedef concept new_element, pos).

(** Lines 357-377: what follows the attributes of a function member. *)
Definition ProcessConcept_function_end (pos : nat) (new_element : ElementInfo)
  : Outcome (ElementInfo * nat) :=
  let fun_char := AsChar pos in
  let pos := S pos in
  if Ascii.eqb fun_char "=" then
    RequireID pos "Function must be assigned to 'required' or 'default'" ;;;
    let fun_assign := AsLexeme pos in
    let pos := S pos in
    new_element <-
      (if String.eqb fun_assign "required" || String.eqb fun_assign "default"
       then Ok (with_special_value new_element fun_assign)
       else Error pos "Functions can only be set to 'required' or 'default'") ;;
    RequireChar ";" pos
      (fun_assign ++ "functions must end in a semi-colon.")%string ;;;
    Ok (new_element, S pos)
  else if Ascii.eqb fun_char "{" then
    '(text, pos) <- ProcessCode pos false true ;;
    let new_element := with_default_code new_element text in
    RequireChar "}" pos
      ("Function body must end with close brace ('}') not '"
         ++ AsLexeme pos ++ "'.")%string ;;;
    Ok (new_element, S pos)
  else
    Error (pos - 1)
      "Function body must begin with open brace or assignment ('{' or '=')".

(** Lines 349-379: a function member; [pos] is at the open parenthesis. *)
Definition ProcessConcept_function (pos : nat) (new_element : ElementInfo)
    (concept : AST_Concept) : Outcome (AST_Concept * nat) :=
  let pos := S pos in
  '(ps, pos) <- ProcessParams pos ;;
  let new_element := with_params new_element ps in
  RequireChar ")" pos
    "Function arguments must end with a close-parenthesis (')')" ;;;
  let pos := S pos in
  '(ids, pos) <- ProcessIDList pos ;;
  let new_element := with_attributes new_element ids in
  '(new_element, pos) <- ProcessConcept_function_end pos new_element ;;
  Ok (push_function concept new_element, pos).

(** Lines 381-389: a variable member; [pos] is just after its name. *)
Definition ProcessConcept_variable (pos : nat) (new_element : ElementInfo)
    (concept : AST_Concept) : Outcome (AST_Concept * nat) :=
  '(new_element, pos) <-
    (if Ascii.eqb (AsChar pos) ";" then Ok (new_element, S pos)
     else
       '(text, pos) <- ProcessCode pos false false ;;
       Ok (with_default_code new_element text, pos)) ;;
  Ok (push_variable concept new_element, pos).

(** Lines 326-391: the body of the member loop. *)
Definition ProcessConcept_member (pos : nat) (concept : AST_Concept)
  : Outcome (AST_Concept * nat) :=
  RequireID pos
    "Concept members can be either functions, variables, or using-statements." ;;;
  let new_element := new_ElementInfo in
  t <- tokens_at pos ;;
  if String.eqb (lexeme t) "using" then
    ProcessConcept_using pos new_element concept
  else
    '(text, pos) <- ProcessType pos ;;
    let new_element := with_type new_element text in
    RequireID pos
      "Functions and variables in concept definition must provide identifier after type name." ;;;
    t <- tokens_at pos ;;
    let new_element := with_name new_element (lexeme t) in
    let pos := S pos in
    if Ascii.eqb (AsChar pos) "(" then
      ProcessConcept_function pos new_element concept
    else
      ProcessConcept_variable pos new_element concept.

(** [while ( AsChar(pos) != '}' )], at most [n] passes. *)
Fixpoint ProcessConcept_loop (n : nat) (pos : nat) (concept : AST_Concept)
  : Outcome (AST_Concept * nat) :=
  if negb (Ascii.eqb (AsChar pos) "}") then
    match n with
    | O => Unfinished
    | S n' =>
        '(concept, pos) <- ProcessConcept_member pos concept ;;
        ProcessConcept_loop n' pos concept
    end
  else Ok (concept, pos).

(** Lines 306-322: the head of a concept, up to its open brace. *)
Definition ProcessConcept_head (pos : nat) : Outcome (AST_Concept * nat) :=
  let concept := new_Concept in
  RequireID pos "Concept declaration must be followed by name identifier." ;;;
  t <- tokens_at pos ;;
  let concept := mkConcept (lexeme t) (base_name concept) (typedefs concept)
                   (variables concept) (functions concept) in
  let pos := S pos in
  RequireChar ":" pos "Concept names must be followed by a colon (':')." ;;;
  let pos := S pos in
  RequireID pos "Concept declaration must include name of base class." ;;;
  t <- tokens_at pos ;;
  let concept := mkConcept (c_name concept) (lexeme t) (typedefs concept)
                   (variables concept) (functions concept) in
  let pos := S pos in
  RequireChar "{" pos "Concepts must be defined in braces ('{' and '}')." ;;;
  Ok (concept, S pos).

(** The new concept is a child of [cur_scope] from the first line on; as a
    fatal error ends the run, the model appends it once it is complete. *)
Definition ProcessConcept (pos : nat) (cur_scope : AST_Scope)
  : Outcome (AST_Scope * nat) :=
  '(concept, pos) <- ProcessConcept_head pos ;;
  '(concept, pos) <- ProcessConcept_loop (S (length tokens - pos)) pos concept ;;
  let pos := S pos in
  RequireChar ";" pos "Concept definitions must end in a semi-colon." ;;;
  Ok (cur_scope ++ [Concept concept], S pos).

(** ** ProcessTop (lines 253-302) *)

(** [n] bounds the passes of the loop and the depth of the recursion into
    namespaces together. *)
Fixpoint ProcessTop (n : nat) (pos : nat) (cur_scope : AST_Scope)
  : Outcome (AST_Scope * nat) :=
  if (pos <? length tokens) && negb (Ascii.eqb (AsChar pos) "}") then
    match n with
    | O => Unfinished
    | S n' =>
        if IsPP pos then
          ProcessTop n' (S pos)
            (cur_scope ++ [AST_PP (AsLexeme pos ++ newline)%string])
        else
          RequireID pos
            ("Statements in outer scope must begin with an identifier or keyword.  (Found: "
               ++ AsLexeme pos ++ ").")%string ;;;
          let cur_lexeme := AsLexeme pos in
          let pos := S pos in
          '(cur_scope, pos) <-
            (if String.eqb cur_lexeme "concept" then
               ProcessConcept pos cur_scope
             else if String.eqb cur_lexeme "struct"
                     || String.eqb cur_lexeme "class" then
               let '(name, pos) :=
                 if IsID pos then (AsLexeme pos, S pos)
                 else (EmptyString, pos) in
               RequireChar "{" pos
                 ("A " ++ cur_lexeme
                    ++ " must be defined in braces ('{' and '}').")%string ;;;
               let pos := S pos in
               '(body, pos) <- ProcessCode pos false true ;;
               RequireChar "}" pos
                 ("The end of a " ++ cur_lexeme
                    ++ " must have a close brace ('}').")%string ;;;
               let pos := S pos in
               RequireChar ";" pos
                 ("A " ++ cur_lexeme
                    ++ " must end with a semi-colon (';').")%string ;;;
               Ok (cur_scope ++ [AST_Class cur_lexeme name body], S pos)
             else if String.eqb cur_lexeme "namespace" then
               let '(name, pos) :=
                 if IsID pos then (AsLexeme pos, S pos)
                 else (EmptyString, pos) in
               RequireChar "{" pos
                 ("A " ++ cur_lexeme
                    ++ " must be defined in braces ('{' and '}').")%string ;;;
               let pos := S pos in
               '(new_ns, pos) <- ProcessTop n' pos [] ;;
               RequireChar "}" pos
                 ("The end of a " ++ cur_lexeme
                    ++ " must have a close brace ('}').")%string ;;;
               Ok (cur_scope ++ [AST_Namespace name new_ns], S pos)
             else if String.eqb cur_lexeme "using" then
               RequireID pos
                 "A 'using' command must first specify the new type name." ;;;
               '(name, pos) <- ProcessType pos ;;
               RequireChar "=" pos
                 "A using statement must provide an equals ('=') to assign the type." ;;;
               let pos := S pos in
               '(type, pos) <- ProcessCode pos false false ;;
               Ok (cur_scope ++ [AST_Using name type], pos)
             else
               Error (pos - 1)
                 ("Unknown keyword '" ++ cur_lexeme ++ "'.  Aborting.")%string) ;;
          ProcessTop n' pos cur_scope
    end
  else Ok (cur_scope, pos).

(** ** Process (lines 400-403) *)

(** [size_t pos;] has no initialiser: the value [ProcessTop] starts from is
    whatever the variable happens to hold, here the argument [pos]. *)
Definition Process (pos : nat) : Outcome AST_Scope :=
  '(ast_root, _) <- ProcessTop (length tokens - pos) pos [] ;;
  Ok ast_root.

End Emphatic.

(** * Vocabulary of the specification *)

(** The character [AsChar] reports for a token: the first character of a
    symbol, the null character for anything else. *)
Definition token_char (t : Token) : ascii :=
  if lexer_IsSymbol t then first_char (lexeme t) else "000"%char.

(** What [AsChar] reports for the tokens from [pos] on, in order. *)
Definition chars_from (tokens : list Token) (pos : nat) : list ascii :=
  map token_char (skipn pos tokens).

(** The lexemes of the tokens in [[a, b)], joined by single spaces. *)
Definition joined (tokens : list Token) (a b : nat) : string :=
  String.concat " " (map lexeme (firstn (b - a) (skipn a tokens))).

Definition is_opener (match_angle_bracket : bool) (c : ascii) : bool :=
  Ascii.eqb c "(" || Ascii.eqb c "[" || Ascii.eqb c "{"
  || (match_angle_bracket && Ascii.eqb c "<").

Definition is_closer (match_angle_bracket : bool) (c : ascii) : bool :=
  Ascii.eqb c ")" || Ascii.eqb c "]" || Ascii.eqb c "}"
  || (match_angle_bracket && Ascii.eqb c ">").

Definition openers (mab : bool) (cs : list ascii) : nat :=
  length (filter (is_opener mab) cs).

Definition closers (mab : bool) (cs : list ascii) : nat :=
  length (filter (is_closer mab) cs).

(** No closer among the first [n] characters is surplus: every prefix of
    length at most [n] has at least as many openers as closers. *)
Definition no_surplus (mab : bool) (cs : list ascii) (n : nat) : bool :=
  forallb (fun j => closers mab (firstn j cs) <=? openers mab (firstn j cs))
    (seq 0 (S n)).

(** Character [k] is the first surplus closer: nothing before it is surplus,
    and with it the closers outnumber the openers. *)
Definition first_surplus_closer (mab : bool) (cs : list ascii) (k : nat)
  : bool :=
  (k <? length cs) && no_surplus mab cs k
  && (openers mab (firstn (S k) cs) <? closers mab (firstn (S k) cs)).

Definition has_semicolon (cs : list ascii) : bool :=
  existsb (fun c => Ascii.eqb c ";") cs.

(** No [;] that could end the scan: either [multi_line] is set or there is
    no [;] at all in the stretch. *)
Definition no_terminator (multi_line : bool) (cs : list ascii) : bool :=
  multi_line || negb (has_semicolon cs).

(** The scan of [ProcessCode] read off the characters alone, with the depth
    of the bracket stack instead of its contents: the number of tokens the
    loop moves the cursor by. *)
Fixpoint scan (mab ml : bool) (cs : list ascii) (depth : nat) : nat :=
  match cs with
  | [] => 0
  | c :: r =>
      if Ascii.eqb c ";" then
        if ml then S (scan mab ml r depth) else 1
      else if is_opener mab c then S (scan mab ml r (S depth))
      else if is_closer mab c then
        match depth with
        | O => 0
        | S d => S (scan mab ml r d)
        end
      else S (scan mab ml r depth)
  end.

(** The lexemes [ls], each preceded by one space. *)
Fixpoint spaced (ls : list string) : string :=
  match ls with
  | [] => EmptyString
  | l :: r => (" " ++ l ++ spaced r)%string
  end.

(** ** The inputs of the scenarios, as the lexer classifies them *)

(** [foo(a, b))] *)
Definition foo_tokens : list Token :=
  [ID "foo"; SYM "("; ID "a"; SYM ","; ID "b"; SYM ")"; SYM ")"].

(** [( a ; b ) ;] *)
Definition nested_semicolon_tokens : list Token :=
  [SYM "("; ID "a"; SYM ";"; ID "b"; SYM ")"; SYM ";"].


(** [Foo<Bar>(x)] *)
Definition template_tokens : list Token :=
  [ID "Foo"; SYM "<"; ID "Bar"; SYM ">"; SYM "("; ID "x"; SYM ")"].

(** [( x } y )] *)
Definition mismatch_tokens : list Token :=
  [SYM "("; ID "x"; SYM "}"; ID "y"; SYM ")"].

(** [void f() = required;] *)
Definition required_member_tokens : list Token :=
  [ID "void"; ID "f"; SYM "("; SYM ")"; SYM "="; ID "required"; SYM ";"].

(** [void f() = default;] *)
Definition default_member_tokens : list Token :=
  [ID "void"; ID "f"; SYM "("; SYM ")"; SYM "="; ID "default"; SYM ";"].

(** [void f() { return; }] *)
Definition inline_member_tokens : list Token :=
  [ID "void"; ID "f"; SYM "("; SYM ")"; SYM "{"; ID "return"; SYM ";";
   SYM "}"].

(** [concept Fitness : Base { double GetFitness() = required; int age; };] *)
Definition fitness_tokens : list Token :=
  [ID "concept"; ID "Fitness"; SYM ":"; ID "Base"; SYM "{";
   ID "double"; ID "GetFitness"; SYM "("; SYM ")"; SYM "="; ID "required";
   SYM ";";
   ID "int"; ID "age"; SYM ";";
   SYM "}"; SYM ";"].

(** [concept C : B { void f(); };] *)
Definition bare_declaration_tokens : list Token :=
  [ID "concept"; ID "C"; SYM ":"; ID "B"; SYM "{";
   ID "void"; ID "f"; SYM "("; SYM ")"; SYM ";";
   SYM "}"; SYM ";"].

(** [concept C : B { void f() = delete; };] *)
Definition deleted_function_tokens : list Token :=
  [ID "concept"; ID "C"; SYM ":"; ID "B"; SYM "{";
   ID "void"; ID "f"; SYM "("; SYM ")"; SYM "="; ID "delete"; SYM ";";
   SYM "}"; SYM ";"].

(** [concept C : B { void f() = 0; };] *)
Definition pure_virtual_tokens : list Token :=
  [ID "concept"; ID "C"; SYM ":"; ID "B"; SYM "{";
   ID "void"; ID "f"; SYM "("; SYM ")"; SYM "="; mkToken Number "0"; SYM ";";
   SYM "}"; SYM ";"].

(** ** The members of a concept, in source order *)

(** The collection a member goes to. *)
Inductive MemberKind : Type := IsTypedef | IsFunction | IsVariable.

Definition MemberKind_eqb (a b : MemberKind) : bool :=
  match a, b with
  | IsTypedef, IsTypedef | IsFunction, IsFunction
  | IsVariable, IsVariable => true
  | _, _ => false
  end.

Definition push_member (k : MemberKind) (e : ElementInfo) (c : AST_Concept)
  : AST_Concept :=
  match k with
  | IsTypedef => push_typedef c e
  | IsFunction => push_function c e
  | IsVariable => push_variable c e
  end.

(** The token at [pos] starts a member of kind [k] described by [e], and
    the scan of it leaves the cursor at [pos']: this is what one pass of the
    member loop does there, whatever the concept holds so far. *)
Definition member_at (tokens : list Token) (pos : nat) (k : MemberKind)
    (e : ElementInfo) (pos' : nat) : Prop :=
  forall concept,
    ProcessConcept_member tokens pos concept
    = Ok (push_member k e concept, pos').

Record Member : Type := mkMember {
  m_start : nat;
  m_kind : MemberKind;
  m_element : ElementInfo
}.

(** The members declared from [pos] up to the closing brace at [body_end],
    one after the other. *)
Inductive members_of (tokens : list Token)
  : nat -> list Member -> nat -> Prop :=
| members_done (pos : nat) :
    AsChar tokens (Z.of_nat pos) = "}"%char ->
    members_of tokens pos [] pos
| members_next (pos : nat) (k : MemberKind) (e : ElementInfo) (pos' : nat)
    (ms : list Member) (body_end : nat) :
    AsChar tokens (Z.of_nat pos) <> "}"%char ->
    member_at tokens pos k e pos' ->
    pos < pos' ->
    members_of tokens pos' ms body_end ->
    members_of tokens pos (mkMember pos k e :: ms) body_end.

(** The members of kind [k], in the order of [ms]. *)
Definition select (k : MemberKind) (ms : list Member) : list ElementInfo :=
  map m_element (filter (fun m => MemberKind_eqb (m_kind m) k) ms).

(** What the tokens at the start of a member declare it to be, read off the
    text and not off the collection it ends up in.  A member that starts
    with the word [using] is a typedef: its name is the type that follows
    the word, an equals sign follows the name and its type is the rest of
    the statement.  Any other member starts with a type and an identifier,
    its name; it is a function, with the parameters and the attributes that
    follow, if an open parenthesis follows the name, and a variable if
    not. *)
Definition declared (tokens : list Token) (m : Member) : Prop :=
  let pos := m_start m in
  let e := m_element m in
  IsID tokens (Z.of_nat pos) = true /\
  match m_kind m with
  | IsTypedef =>
      AsLexeme tokens (Z.of_nat pos) = "using" /\
      exists p1 p2,
        ProcessType tokens (S pos) = Ok (ei_name e, p1) /\
        AsChar tokens (Z.of_nat p1) = "="%char /\
        ProcessCode tokens (S p1) false false = Ok (ei_type e, p2)
  | IsFunction =>
      AsLexeme tokens (Z.of_nat pos) <> "using" /\
      exists p1 p2 p3,
        ProcessType tokens pos = Ok (ei_type e, p1) /\
        IsID tokens (Z.of_nat p1) = true /\
        ei_name e = AsLexeme tokens (Z.of_nat p1) /\
        AsChar tokens (Z.of_nat (S p1)) = "("%char /\
        ProcessParams tokens (S (S p1)) = Ok (params e, p2) /\
        AsChar tokens (Z.of_nat p2) = ")"%char /\
        ProcessIDList tokens (S p2) = Ok (attributes e, p3)
  | IsVariable =>
      AsLexeme tokens (Z.of_nat pos) <> "using" /\
      exists p1,
        ProcessType tokens pos = Ok (ei_type e, p1) /\
        IsID tokens (Z.of_nat p1) = true /\
        ei_name e = AsLexeme tokens (Z.of_nat p1) /\
        AsChar tokens (Z.of_nat (S p1)) <> "("%char /\
        params e = [] /\ attributes e = []
  end.

(** A concept whose members of the three kinds alternate:
    [concept M : B { using A = int; int x; void f() = required;
                     using C = char; int y = 3; void g(int n) { } };] *)
Definition mixed_tokens : list Token :=
  [ID "concept"; ID "M"; SYM ":"; ID "B"; SYM "{";
   ID "using"; ID "A"; SYM "="; ID "int"; SYM ";";
   ID "int"; ID "x"; SYM ";";
   ID "void"; ID "f"; SYM "("; SYM ")"; SYM "="; ID "required"; SYM ";";
   ID "using"; ID "C"; SYM "="; ID "char"; SYM ";";
   ID "int"; ID "y"; SYM "="; mkToken Number "3"; SYM ";";
   ID "void"; ID "g"; SYM "("; ID "int"; ID "n"; SYM ")"; SYM "{"; SYM "}";
   SYM "}"; SYM ";"].

Definition mixed_A : ElementInfo :=
  mkElementInfo "int ;" "A" [] [] EmptyString EmptyString.
Definition mixed_x : ElementInfo :=
  mkElementInfo "int" "x" [] [] EmptyString EmptyString.
Definition mixed_f : ElementInfo :=
  mkElementInfo "void" "f" [] [] EmptyString "required".
Definition mixed_C : ElementInfo :=
  mkElementInfo "char ;" "C" [] [] EmptyString EmptyString.
Definition mixed_y : ElementInfo :=
  mkElementInfo "int" "y" [] [] "= 3 ;" EmptyString.
Definition mixed_g : ElementInfo :=
  mkElementInfo "void" "g" [mkParamInfo "int" "n"] [] EmptyString EmptyString.

(** ** Outcomes inside the token vector *)

(** An outcome that stays inside a vector of [size] tokens: a cursor or a
    diagnostic position at most [size], an out-of-range read exactly one
    past the last token, and the iteration bound not reached.  [cur] reads
    the cursor off a normal result. *)
Definition bounded {A : Type} (size : nat) (cur : A -> nat) (o : Outcome A)
  : Prop :=
  match o with
  | Ok a => cur a <= size
  | Fatal p _ => p <= size
  | OutOfRange i => i = size
  | Unfinished => False
  end.

(** The outcome of a scan into an empty scope, seen from a scope that
    already has children. *)
Definition extend (scope : AST_Scope) (o : Outcome (AST_Scope * nat))
  : Outcome (AST_Scope * nat) :=
  match o with
  | Ok (added, pos) => Ok (scope ++ added, pos)
  | Fatal p msg => Fatal p msg
  | OutOfRange i => OutOfRange i
  | Unfinished => Unfinished
  end.

(** ** The parameter lists [ProcessParams] reads *)

(** The lists below are those the loop of [ProcessParams] takes, not the
    PARAMS rule of the grammar note at the head of the file: the loop makes
    the identifier of a parameter optional, where the note's DECLARE
    requires it, and has no case for the note's [OVERLOAD '(' ID ')']. *)




(** * Type packs (meta/meta.h) *)

(** The functions of meta.h that compute on a template parameter pack, with
    the pack as the list of its types.  [cpp_type] stands for the types of a
    program and [is_same] for [std::is_same]; the recursion on the pack is
    the one of the templates.  An instantiation the compiler rejects (an
    index into an empty pack) is [None]. *)
Section TypePacks.

Variable cpp_type : Type.
Variable is_same : cpp_type -> cpp_type -> bool.

(** [pack_id<ID, Ts...>] (lines 33-42). *)
Fixpoint pack_id (ID : nat) (Ts : list cpp_type) : option cpp_type :=
  match Ts with
  | [] => None
  | T :: Ts' =>
      match ID with
      | O => Some T
      | S ID' => pack_id ID' Ts'
      end
  end.

(** [last_type<Ts...>] (line 45): [pack_id<sizeof...(Ts)-1, Ts...>]; on the
    empty pack the index wraps around to the largest [size_t], which no
    pack reaches. *)
Definition last_type (Ts : list cpp_type) : option cpp_type :=
  match length Ts with
  | O => None
  | S n => pack_id n Ts
  end.

(** [has_type<TEST, Ts...>()] (lines 51-53). *)
Fixpoint has_type (TEST : cpp_type) (Ts : list cpp_type) : bool :=
  match Ts with
  | [] => false
  | FIRST :: OTHERS => is_same TEST FIRST || has_type TEST OTHERS
  end.

(** [count_type<TEST, Ts...>()] (lines 56-58). *)
Fixpoint count_type (TEST : cpp_type) (Ts : list cpp_type) : nat :=
  match Ts with
  | [] => 0
  | FIRST :: OTHERS =>
      count_type TEST OTHERS + (if is_same TEST FIRST then 1 else 0)
  end.

(** [get_type_index_impl<TEST_T, Ts...>()] (lines 62-69), an [int]. *)
Fixpoint get_type_index_impl (TEST_T : cpp_type) (Ts : list cpp_type) : Z :=
  match Ts with
  | [] => (-1)%Z
  | T1 :: Ts' =>
      if is_same TEST_T T1 then 0%Z
      else
        let next_id := get_type_index_impl TEST_T Ts' in
        if (next_id <? 0)%Z then (-1)%Z else (next_id + 1)%Z
  end.

Definition get_type_index (TEST_T : cpp_type) (Ts : list cpp_type) : Z :=
  get_type_index_impl TEST_T Ts.

(** [has_unique_first_type<TYPE1, ...>()] (lines 78, 81-84): the pack is the
    first type and the list of the others. *)
Fixpoint has_unique_first_type (TYPE1 : cpp_type) (others : list cpp_type)
  : bool :=
  match others with
  | [] => true
  | TYPE2 :: TYPE_LIST =>
      negb (is_same TYPE1 TYPE2) && has_unique_first_type TYPE1 TYPE_LIST
  end.

(** [has_unique_types<TYPE1, ...>()] (lines 79, 86-90). *)
Fixpoint has_unique_types (TYPE1 : cpp_type) (others : list cpp_type)
  : bool :=
  match others with
  | [] => true
  | TYPE2 :: TYPE_LIST =>
      has_unique_first_type TYPE1 (TYPE2 :: TYPE_LIST)
      && has_unique_types TYPE2 TYPE_LIST
  end.

End TypePacks.

Arguments pack_id {cpp_type} ID Ts.
Arguments last_type {cpp_type} Ts.
Arguments has_type {cpp_type} is_same TEST Ts.
Arguments count_type {cpp_type} is_same TEST Ts.
Arguments get_type_index_impl {cpp_type} is_same TEST_T Ts.
Arguments get_type_index {cpp_type} is_same TEST_T Ts.
Arguments has_unique_first_type {cpp_type} is_same TYPE1 others.
Arguments has_unique_types {cpp_type} is_same TYPE1 others.

(** A pack for the examples, with numbers standing for types. *)
Definition example_pack : list nat := [3; 7; 5; 7].
Definition example_type : nat := 7.

(** * Properties *)

(** ** The positional helpers *)

Section Helpers.

Variable tokens : list Token.

Lemma HasToken_nat (pos : nat) :
  HasToken tokens (Z.of_nat pos) = (pos <? length tokens).
Proof.
  unfold HasToken.
  destruct (Nat.ltb_spec pos (length tokens)) as [H | H].
  - apply andb_true_iff; split.
    + apply Z.geb_le; lia.
    + apply Z.ltb_lt; lia.
  - apply andb_false_iff; right. apply Z.ltb_ge; lia.
Qed.

Lemma guarded_token_nat (pos : nat) :
  guarded_token tokens (Z.of_nat pos) = nth_error tokens pos.
Proof. unfold guarded_token. now rewrite Nat2Z.id. Qed.

(** Where [HasToken] holds, the guarded read is inside the vector. *)
Lemma HasToken_in_range (pos : Z) :
  HasToken tokens pos = true ->
  exists t, guarded_token tokens pos = Some t.
Proof.
  unfold HasToken, guarded_token. intros H.
  apply andb_true_iff in H as [H0 H1].
  apply Z.geb_le in H0. apply Z.ltb_lt in H1.
  destruct (nth_error tokens (Z.to_nat pos)) as [t |] eqn:E.
  - now exists t.
  - apply nth_error_None in E. lia.
Qed.

Lemma HasToken_past_end (pos : Z) :
  (Z.of_nat (length tokens) <= pos)%Z -> HasToken tokens pos = false.
Proof.
  intros H. unfold HasToken. apply andb_false_iff; right.
  apply Z.ltb_ge; lia.
Qed.

Lemma AsChar_some (pos : nat) (t : Token) :
  nth_error tokens pos = Some t ->
  AsChar tokens (Z.of_nat pos) = token_char t.
Proof.
  intros E. unfold AsChar, guarded, token_char.
  rewrite HasToken_nat, guarded_token_nat, E.
  assert (L : pos < length tokens) by (apply nth_error_Some; congruence).
  apply Nat.ltb_lt in L. rewrite L. simpl.
  now destruct (lexer_IsSymbol t).
Qed.

Lemma AsChar_none (pos : nat) :
  length tokens <= pos -> AsChar tokens (Z.of_nat pos) = "000"%char.
Proof.
  intros L. unfold AsChar. rewrite HasToken_nat.
  apply Nat.ltb_ge in L. now rewrite L.
Qed.

Lemma AsChar_in_range (pos : nat) :
  AsChar tokens (Z.of_nat pos) <> "000"%char -> pos < length tokens.
Proof.
  intros H. destruct (Nat.lt_ge_cases pos (length tokens)) as [L | L]; auto.
  now apply AsChar_none in L.
Qed.

Lemma AsLexeme_some (pos : nat) (t : Token) :
  nth_error tokens pos = Some t ->
  AsLexeme tokens (Z.of_nat pos) = lexeme t.
Proof.
  intros E. unfold AsLexeme.
  rewrite HasToken_nat, guarded_token_nat, E.
  assert (L : pos < length tokens) by (apply nth_error_Some; congruence).
  apply Nat.ltb_lt in L. now rewrite L.
Qed.

Lemma AsLexeme_none (pos : nat) :
  length tokens <= pos -> AsLexeme tokens (Z.of_nat pos) = EmptyString.
Proof.
  intros L. unfold AsLexeme. rewrite HasToken_nat.
  apply Nat.ltb_ge in L. now rewrite L.
Qed.

Lemma AsLexeme_in_range (pos : nat) :
  AsLexeme tokens (Z.of_nat pos) <> EmptyString -> pos < length tokens.
Proof.
  intros H. destruct (Nat.lt_ge_cases pos (length tokens)) as [L | L]; auto.
  now apply AsLexeme_none in L.
Qed.

Lemma IsID_in_range (pos : nat) :
  IsID tokens (Z.of_nat pos) = true -> pos < length tokens.
Proof.
  unfold IsID. rewrite HasToken_nat. intros H.
  apply andb_true_iff in H as [H _]. now apply Nat.ltb_lt.
Qed.

Lemma IsID_some (pos : nat) :
  IsID tokens (Z.of_nat pos) = true ->
  exists t, nth_error tokens pos = Some t /\ kind t = Identifier.
Proof.
  unfold IsID, guarded. rewrite HasToken_nat, guarded_token_nat. intros H.
  apply andb_true_iff in H as [_ H].
  destruct (nth_error tokens pos) as [t |]; [| discriminate].
  exists t. split; auto. unfold lexer_IsID in H.
  now destruct (kind t).
Qed.

Lemma chars_from_cons (pos : nat) (t : Token) :
  nth_error tokens pos = Some t ->
  chars_from tokens pos = token_char t :: chars_from tokens (S pos).
Proof.
  unfold chars_from. revert pos.
  induction tokens as [| x l IH]; intros [| pos] E; simpl in *;
    try discriminate.
  - now inversion E.
  - now apply IH.
Qed.

Lemma chars_from_end (pos : nat) :
  length tokens <= pos -> chars_from tokens pos = [].
Proof.
  intros L. unfold chars_from. now rewrite skipn_all2.
Qed.

Lemma chars_from_length (pos : nat) :
  length (chars_from tokens pos) = length tokens - pos.
Proof. unfold chars_from. now rewrite length_map, length_skipn. Qed.

End Helpers.

(** ** ConcatLexemes *)

Lemma append_nil_r (s : string) : (s ++ EmptyString)%string = s.
Proof. induction s as [| c s IH]; simpl; congruence. Qed.

Lemma append_assoc (a b c : string) :
  ((a ++ b) ++ c)%string = (a ++ (b ++ c))%string.
Proof. induction a as [| x a IH]; simpl; congruence. Qed.

Lemma concat_spaced (x : string) (ls : list string) :
  String.concat " " (x :: ls) = (x ++ spaced ls)%string.
Proof.
  revert x. induction ls as [| y r IH]; intros x.
  - simpl. now rewrite append_nil_r.
  - change (String.concat " " (x :: y :: r))
      with (x ++ " " ++ String.concat " " (y :: r))%string.
    rewrite IH. reflexivity.
Qed.

Lemma skipn_nth_error {A : Type} (l : list A) (i : nat) (x : A) :
  nth_error l i = Some x -> skipn i l = x :: skipn (S i) l.
Proof.
  revert i. induction l as [| y l IH]; intros [| i] E; simpl in *;
    try discriminate.
  - now inversion E.
  - now apply IH.
Qed.

Section Concat.

Variable tokens : list Token.

Lemma tokens_at_some (i : nat) :
  i < length tokens -> exists t, nth_error tokens i = Some t /\
                                 tokens_at tokens i = Ok t.
Proof.
  intros L. unfold tokens_at.
  destruct (nth_error tokens i) as [t |] eqn:E.
  - now exists t.
  - apply nth_error_None in E. lia.
Qed.

Lemma tokens_at_past_end (i : nat) :
  length tokens <= i -> tokens_at tokens i = OutOfRange i.
Proof.
  intros L. unfold tokens_at.
  apply nth_error_None in L. now rewrite L.
Qed.

Lemma ConcatLexemes_loop_spaced (start_pos : nat) :
  forall n i ss,
    start_pos < i -> i + n <= length tokens ->
    ConcatLexemes_loop tokens n start_pos i ss
    = Ok (ss ++ spaced (map lexeme (firstn n (skipn i tokens))))%string.
Proof.
  induction n as [| n IH]; intros i ss Hi Hn; simpl.
  - now rewrite append_nil_r.
  - destruct (tokens_at_some i) as (t & E & Et); [lia |].
    rewrite Et. simpl.
    apply Nat.ltb_lt in Hi as Hb. rewrite Hb.
    rewrite IH by lia.
    rewrite (skipn_nth_error _ _ _ E). simpl.
    now rewrite !append_assoc.
Qed.

(** On a stretch inside the vector [ConcatLexemes] returns its lexemes with
    single spaces between them. *)
Lemma ConcatLexemes_joined (start_pos end_pos : nat) :
  start_pos <= end_pos -> end_pos <= length tokens ->
  ConcatLexemes tokens start_pos end_pos = Ok (joined tokens start_pos end_pos).
Proof.
  intros H1 H2. unfold ConcatLexemes, joined.
  destruct (end_pos - start_pos) as [| n] eqn:En; [reflexivity |].
  simpl. destruct (tokens_at_some start_pos) as (t & E & Et); [lia |].
  rewrite Et. simpl. rewrite Nat.ltb_irrefl.
  rewrite ConcatLexemes_loop_spaced by lia.
  rewrite (skipn_nth_error _ _ _ E).
  change (firstn (S n) (t :: skipn (S start_pos) tokens))
    with (t :: firstn n (skipn (S start_pos) tokens)).
  rewrite map_cons, concat_spaced. reflexivity.
Qed.

Lemma ConcatLexemes_empty (pos : nat) :
  ConcatLexemes tokens pos pos = Ok EmptyString.
Proof. unfold ConcatLexemes. now rewrite Nat.sub_diag. Qed.

End Concat.

(** ** ProcessCode *)

Section Code.

Variable tokens : list Token.

(** The [switch] by the class of the character it looks at. *)
Lemma ProcessCode_step_cases (mab ml : bool) (st : CodeState) :
  ProcessCode_step tokens mab ml st =
  let c := AsChar tokens (Z.of_nat (cs_pos st)) in
  let pos := cs_pos st in
  let opens := open_symbols st in
  if Ascii.eqb c ";" then
    mkCodeState (S pos) opens (if ml then finished st else true)
  else if is_opener mab c then
    mkCodeState (S pos) (opens ++ [c]) (finished st)
  else if is_closer mab c then
    match opens with
    | [] => mkCodeState pos opens true
    | _ :: _ => mkCodeState (S pos) (removelast opens) (finished st)
    end
  else mkCodeState (S pos) opens (finished st).
Proof.
  unfold ProcessCode_step, is_opener, is_closer.
  generalize (AsChar tokens (Z.of_nat (cs_pos st))); intros c.
  cbv zeta.
  assert (P : S (cs_pos st) - 1 = cs_pos st) by lia. rewrite P.
  repeat match goal with
         | |- context [Ascii.eqb c ?x] =>
             destruct (Ascii.eqb_spec c x); [subst c |]
         end;
    destruct mab, ml, (open_symbols st); reflexivity.
Qed.

Lemma ProcessCode_loop_finished (mab ml : bool) (n : nat) (st : CodeState) :
  finished st = true -> ProcessCode_loop tokens n mab ml st = st.
Proof. intros F. destruct n; simpl; now rewrite F. Qed.

Lemma ProcessCode_loop_at_end (mab ml : bool) (n : nat) (st : CodeState) :
  length tokens <= cs_pos st -> ProcessCode_loop tokens n mab ml st = st.
Proof.
  intros L. apply Nat.ltb_ge in L.
  destruct n; simpl; now rewrite L, andb_false_r.
Qed.

Lemma ProcessCode_step_pos (mab ml : bool) (st : CodeState) :
  finished (ProcessCode_step tokens mab ml st) = false ->
  cs_pos (ProcessCode_step tokens mab ml st) = S (cs_pos st).
Proof.
  rewrite ProcessCode_step_cases. cbv zeta.
  destruct (Ascii.eqb _ ";"); [reflexivity |].
  destruct (is_opener mab _); [reflexivity |].
  destruct (is_closer mab _); [| reflexivity].
  destruct (open_symbols st); [discriminate | reflexivity].
Qed.

(** With [tokens.size() - pos] passes at hand the loop ends because its
    condition fails, not because the passes run out. *)
Lemma ProcessCode_loop_exits (mab ml : bool) :
  forall n st,
    length tokens - cs_pos st <= n ->
    finished (ProcessCode_loop tokens n mab ml st) = true \/
    length tokens <= cs_pos (ProcessCode_loop tokens n mab ml st).
Proof.
  induction n as [| n IH]; intros st Hn.
  - rewrite ProcessCode_loop_at_end by lia. right. lia.
  - cbn [ProcessCode_loop].
    destruct (finished st) eqn:F; [now left |].
    destruct (Nat.ltb_spec (cs_pos st) (length tokens)) as [L | L];
      [| now right].
    cbn [negb andb].
    destruct (finished (ProcessCode_step tokens mab ml st)) eqn:F'.
    + rewrite ProcessCode_loop_finished by assumption. now left.
    + apply IH. rewrite ProcessCode_step_pos by assumption. lia.
Qed.

(** The loop moves the cursor by what [scan] counts on the characters ahead,
    from the depth of the stack. *)
Lemma ProcessCode_loop_scan (mab ml : bool) :
  forall n pos opens,
    length tokens - pos <= n ->
    cs_pos (ProcessCode_loop tokens n mab ml (mkCodeState pos opens false))
    = pos + scan mab ml (chars_from tokens pos) (length opens).
Proof.
  induction n as [| n IH]; intros pos opens Hn.
  - rewrite ProcessCode_loop_at_end by (simpl; lia).
    rewrite chars_from_end by lia. simpl. lia.
  - destruct (Nat.lt_ge_cases pos (length tokens)) as [L | L].
    2:{ rewrite ProcessCode_loop_at_end by (simpl; lia).
        rewrite chars_from_end by lia. simpl. lia. }
    destruct (tokens_at_some tokens pos L) as (t & E & _).
    rewrite (chars_from_cons _ _ _ E).
    cbn [ProcessCode_loop]. cbn [finished cs_pos negb andb].
    apply Nat.ltb_lt in L as Lb. rewrite Lb.
    rewrite ProcessCode_step_cases. cbn [cs_pos open_symbols finished].
    rewrite (AsChar_some _ _ _ E). cbv zeta.
    cbn [scan].
    destruct (Ascii.eqb (token_char t) ";").
    { destruct ml.
      - rewrite IH by lia. lia.
      - rewrite ProcessCode_loop_finished by reflexivity. simpl. lia. }
    destruct (is_opener mab (token_char t)).
    { rewrite IH by lia. rewrite length_app. simpl.
      rewrite Nat.add_1_r. lia. }
    destruct (is_closer mab (token_char t)).
    { destruct opens as [| o opens].
      - rewrite ProcessCode_loop_finished by reflexivity. simpl. lia.
      - rewrite IH by lia.
        pose proof (f_equal (@length ascii)
                      (app_removelast_last o (l := o :: opens)
                         ltac:(discriminate))) as Q.
        rewrite length_app in Q. simpl in Q.
        replace (length (removelast (o :: opens))) with (length opens)
          by (simpl; lia).
        simpl. lia. }
    rewrite IH by lia. lia.
Qed.

End Code.

(** ** Counting brackets *)

Lemma opener_not_closer (mab : bool) (c : ascii) :
  is_opener mab c = true -> is_closer mab c = false.
Proof.
  unfold is_opener, is_closer.
  repeat match goal with
         | |- context [Ascii.eqb c ?x] =>
             destruct (Ascii.eqb_spec c x); [subst c |]
         end; destruct mab; simpl; congruence.
Qed.

Lemma semicolon_not_bracket (mab : bool) (c : ascii) :
  Ascii.eqb c ";" = true ->
  is_opener mab c = false /\ is_closer mab c = false.
Proof.
  intros H. apply Ascii.eqb_eq in H. subst c. now destruct mab.
Qed.

Lemma openers_cons (mab : bool) (c : ascii) (cs : list ascii) :
  openers mab (c :: cs)
  = (if is_opener mab c then 1 else 0) + openers mab cs.
Proof. unfold openers. simpl. now destruct (is_opener mab c). Qed.

Lemma closers_cons (mab : bool) (c : ascii) (cs : list ascii) :
  closers mab (c :: cs)
  = (if is_closer mab c then 1 else 0) + closers mab cs.
Proof. unfold closers. simpl. now destruct (is_closer mab c). Qed.

Lemma no_surplus_spec (mab : bool) (cs : list ascii) (n : nat) :
  no_surplus mab cs n = true <->
  forall j, j <= n ->
            closers mab (firstn j cs) <= openers mab (firstn j cs).
Proof.
  unfold no_surplus. rewrite forallb_forall. split.
  - intros H j Hj. apply Nat.leb_le, H, in_seq. lia.
  - intros H j Hj. apply in_seq in Hj. apply Nat.leb_le, H. lia.
Qed.

Lemma scan_le (mab ml : bool) :
  forall cs d, scan mab ml cs d <= length cs.
Proof.
  induction cs as [| c r IH]; intros d; simpl; [lia |].
  destruct (Ascii.eqb c ";"); [destruct ml; [specialize (IH d) |]; lia |].
  destruct (is_opener mab c); [specialize (IH (S d)); lia |].
  destruct (is_closer mab c); [| specialize (IH d); lia].
  destruct d as [| d]; [| specialize (IH d)]; lia.
Qed.

(** From depth [d], the scan stops in front of the first closer that the
    [d] pending openers and the openers met on the way do not cover,
    provided no [;] ends it earlier. *)
Lemma scan_stops_at_surplus (mab ml : bool) :
  forall cs d k,
    k < length cs ->
    (forall j, j <= k ->
               closers mab (firstn j cs) <= d + openers mab (firstn j cs)) ->
    d + openers mab (firstn (S k) cs) < closers mab (firstn (S k) cs) ->
    no_terminator ml (firstn k cs) = true ->
    scan mab ml cs d = k.
Proof.
  induction cs as [| c r IH]; intros d k Hk Hbal Hsur Hterm;
    [simpl in Hk; lia |].
  destruct k as [| k].
  - simpl firstn in Hsur. rewrite openers_cons, closers_cons in Hsur.
    unfold openers, closers in Hsur. simpl in Hsur. simpl.
    destruct (Ascii.eqb c ";") eqn:Es.
    { destruct (semicolon_not_bracket mab c Es) as [_ Hc].
      rewrite Hc in Hsur. lia. }
    destruct (is_opener mab c) eqn:Eo.
    { rewrite (opener_not_closer _ _ Eo) in Hsur. lia. }
    destruct (is_closer mab c); [| lia].
    destruct d; [reflexivity | lia].
  - pose proof (Hbal 1 ltac:(lia)) as H1.
    simpl firstn in H1. rewrite openers_cons, closers_cons in H1.
    unfold openers, closers in H1. simpl in H1.
    assert (Hbal' : forall j, j <= k ->
              (if is_closer mab c then 1 else 0) + closers mab (firstn j r)
              <= d + ((if is_opener mab c then 1 else 0)
                      + openers mab (firstn j r))).
    { intros j Hj. specialize (Hbal (S j) ltac:(lia)).
      simpl firstn in Hbal. now rewrite openers_cons, closers_cons in Hbal. }
    change (firstn (S (S k)) (c :: r)) with (c :: firstn (S k) r) in Hsur.
    rewrite openers_cons, closers_cons in Hsur.
    simpl in Hk. simpl firstn in Hterm.
    unfold no_terminator, has_semicolon in Hterm. simpl existsb in Hterm.
    simpl scan.
    destruct (Ascii.eqb c ";") eqn:Es.
    { destruct (semicolon_not_bracket mab c Es) as [Ho Hc].
      rewrite Ho, Hc in *. simpl in Hterm.
      rewrite orb_false_r in Hterm. subst ml.
      f_equal. apply IH; auto; try lia;
        intros j Hj; specialize (Hbal' j Hj); lia. }
    simpl in Hterm.
    destruct (is_opener mab c) eqn:Eo.
    { rewrite (opener_not_closer _ _ Eo) in *.
      f_equal. apply IH; auto; try lia;
        intros j Hj; specialize (Hbal' j Hj); lia. }
    destruct (is_closer mab c) eqn:Ec.
    { destruct d as [| d]; [lia |].
      f_equal. apply IH; auto; try lia;
        intros j Hj; specialize (Hbal' j Hj); lia. }
    f_equal. apply IH; auto; try lia;
      intros j Hj; specialize (Hbal' j Hj); lia.
Qed.

(** Without a surplus closer and without a terminating [;] the scan takes
    every character. *)
Lemma scan_to_end (mab ml : bool) :
  forall cs d,
    (forall j, j <= length cs ->
               closers mab (firstn j cs) <= d + openers mab (firstn j cs)) ->
    no_terminator ml cs = true ->
    scan mab ml cs d = length cs.
Proof.
  induction cs as [| c r IH]; intros d Hbal Hterm; [reflexivity |].
  pose proof (Hbal 1 ltac:(simpl; lia)) as H1.
  simpl firstn in H1. rewrite openers_cons, closers_cons in H1.
  unfold openers, closers in H1. simpl in H1.
  assert (Hbal' : forall j, j <= length r ->
            (if is_closer mab c then 1 else 0) + closers mab (firstn j r)
            <= d + ((if is_opener mab c then 1 else 0)
                    + openers mab (firstn j r))).
  { intros j Hj. specialize (Hbal (S j) ltac:(simpl; lia)).
    simpl firstn in Hbal. now rewrite openers_cons, closers_cons in Hbal. }
  unfold no_terminator, has_semicolon in Hterm. simpl existsb in Hterm.
  simpl scan. simpl length.
  destruct (Ascii.eqb c ";") eqn:Es.
  { destruct (semicolon_not_bracket mab c Es) as [Ho Hc].
    rewrite Ho, Hc in *. simpl in Hterm.
    rewrite orb_false_r in Hterm. subst ml.
    f_equal. apply IH; auto; try lia;
      intros j Hj; specialize (Hbal' j Hj); lia. }
  simpl in Hterm.
  destruct (is_opener mab c) eqn:Eo.
  { rewrite (opener_not_closer _ _ Eo) in *.
    f_equal. apply IH; auto; try lia;
      intros j Hj; specialize (Hbal' j Hj); lia. }
  destruct (is_closer mab c) eqn:Ec.
  { destruct d as [| d]; [lia |].
    f_equal. apply IH; auto; try lia;
      intros j Hj; specialize (Hbal' j Hj); lia. }
  f_equal. apply IH; auto; try lia;
    intros j Hj; specialize (Hbal' j Hj); lia.
Qed.

(** With [multi_line] off, the first [;] ends the scan right after it,
    whatever the depth. *)
Lemma scan_stops_after_semicolon (mab : bool) :
  forall cs d k,
    nth_error cs k = Some ";"%char ->
    has_semicolon (firstn k cs) = false ->
    (forall j, j <= k ->
               closers mab (firstn j cs) <= d + openers mab (firstn j cs)) ->
    scan mab false cs d = S k.
Proof.
  induction cs as [| c r IH]; intros d k Hn Hsemi Hbal;
    [destruct k; discriminate |].
  destruct k as [| k].
  - simpl in Hn. inversion Hn; subst c. reflexivity.
  - simpl in Hn. simpl firstn in Hsemi.
    unfold has_semicolon in Hsemi. simpl existsb in Hsemi.
    apply orb_false_iff in Hsemi as [Es Hsemi].
    pose proof (Hbal 1 ltac:(lia)) as H1.
    simpl firstn in H1. rewrite openers_cons, closers_cons in H1.
    unfold openers, closers in H1. simpl in H1.
    assert (Hbal' : forall j, j <= k ->
              (if is_closer mab c then 1 else 0) + closers mab (firstn j r)
              <= d + ((if is_opener mab c then 1 else 0)
                      + openers mab (firstn j r))).
    { intros j Hj. specialize (Hbal (S j) ltac:(lia)).
      simpl firstn in Hbal. now rewrite openers_cons, closers_cons in Hbal. }
    simpl scan. rewrite Es.
    destruct (is_opener mab c) eqn:Eo.
    { rewrite (opener_not_closer _ _ Eo) in *.
      f_equal. apply IH; auto; try lia;
        intros j Hj; specialize (Hbal' j Hj); lia. }
    destruct (is_closer mab c) eqn:Ec.
    { destruct d as [| d]; [lia |].
      f_equal. apply IH; auto; try lia;
        intros j Hj; specialize (Hbal' j Hj); lia. }
    f_equal. apply IH; auto; try lia;
      intros j Hj; specialize (Hbal' j Hj); lia.
Qed.

Section CodeResult.

Variable tokens : list Token.

Lemma ProcessCode_scan (pos : nat) (mab ml : bool) :
  pos <= length tokens ->
  ProcessCode tokens pos mab ml
  = Ok (joined tokens pos (pos + scan mab ml (chars_from tokens pos) 0),
        pos + scan mab ml (chars_from tokens pos) 0).
Proof.
  intros L. unfold ProcessCode, ProcessCode_run.
  rewrite ProcessCode_loop_scan by lia. simpl length.
  pose proof (scan_le mab ml (chars_from tokens pos) 0) as S.
  rewrite chars_from_length in S.
  rewrite ConcatLexemes_joined by lia. reflexivity.
Qed.

Lemma ProcessCode_past_end (pos : nat) (mab ml : bool) :
  length tokens <= pos ->
  ProcessCode tokens pos mab ml = Ok (EmptyString, pos).
Proof.
  intros L. unfold ProcessCode, ProcessCode_run.
  rewrite ProcessCode_loop_at_end by (simpl; lia). simpl.
  now rewrite ConcatLexemes_empty.
Qed.

(** [ProcessCode] always returns, never behind where it started and never
    past the end of the tokens unless it started there. *)
Lemma ProcessCode_returns (pos : nat) (mab ml : bool) :
  exists text pos',
    ProcessCode tokens pos mab ml = Ok (text, pos') /\
    pos <= pos' /\ (pos' <= length tokens \/ pos' = pos).
Proof.
  destruct (Nat.le_gt_cases pos (length tokens)) as [L | L].
  - rewrite ProcessCode_scan by assumption.
    pose proof (scan_le mab ml (chars_from tokens pos) 0) as S.
    rewrite chars_from_length in S.
    eexists _, _. split; [reflexivity |]. lia.
  - rewrite ProcessCode_past_end by lia.
    eexists _, _. split; [reflexivity |]. lia.
Qed.

End CodeResult.

Lemma firstn_snoc {A : Type} (l : list A) (k : nat) (x : A) :
  nth_error l k = Some x -> firstn (S k) l = firstn k l ++ [x].
Proof.
  revert k. induction l as [| y l IH]; intros [| k] E; simpl in *;
    try discriminate.
  - now inversion E.
  - f_equal. now apply IH.
Qed.

(** The first surplus closer is a closer. *)
Lemma first_surplus_closer_is_closer (mab : bool) (cs : list ascii) (k : nat) :
  first_surplus_closer mab cs k = true ->
  exists c, nth_error cs k = Some c /\ is_closer mab c = true.
Proof.
  unfold first_surplus_closer. intros H.
  apply andb_true_iff in H as [H Hs]. apply andb_true_iff in H as [Hk Hb].
  apply Nat.ltb_lt in Hk, Hs.
  destruct (nth_error cs k) as [c |] eqn:E;
    [| apply nth_error_None in E; lia].
  exists c. split; [reflexivity |].
  rewrite no_surplus_spec in Hb. specialize (Hb k (Nat.le_refl k)).
  rewrite (firstn_snoc _ _ _ E) in Hs.
  unfold openers, closers in *.
  rewrite !filter_app, !length_app in Hs. simpl in Hs.
  destruct (is_closer mab c); [reflexivity |].
  destruct (is_opener mab c); simpl in Hs; lia.
Qed.

(** C1. From any position, [ProcessCode] stops in front of the first surplus
    closing bracket (the closers seen outnumber the openers seen for the
    first time), unless a [;] ends the scan before: the cursor is left on
    that closer and the text is the lexemes of the consumed tokens joined by
    single spaces.  With no surplus closer and no terminating [;] it consumes
    every token to the end of the input, and returns normally.  On
    [foo(a, b))] from [foo] with [multi_line] off it returns
    ["foo ( a , b )"] with the cursor on the second [)]. *)
Theorem ProcessCode_stops_at_first_surplus_closer :
  (forall tokens pos mab ml k,
      pos <= length tokens ->
      first_surplus_closer mab (chars_from tokens pos) k = true ->
      no_terminator ml (firstn k (chars_from tokens pos)) = true ->
      ProcessCode tokens pos mab ml
      = Ok (joined tokens pos (pos + k), pos + k) /\
      is_closer mab (AsChar tokens (Z.of_nat (pos + k))) = true) /\
  (forall tokens pos mab ml,
      pos <= length tokens ->
      no_surplus mab (chars_from tokens pos) (length tokens - pos) = true ->
      no_terminator ml (chars_from tokens pos) = true ->
      ProcessCode tokens pos mab ml
      = Ok (joined tokens pos (length tokens), length tokens)) /\
  (ProcessCode foo_tokens 0 false false = Ok ("foo ( a , b )", 6) /\
   nth_error foo_tokens 5 = Some (SYM ")") /\
   nth_error foo_tokens 6 = Some (SYM ")")).
Proof.
  split; [| split].
  - intros tokens pos mab ml k L Hs Ht.
    rewrite ProcessCode_scan by assumption.
    pose proof (first_surplus_closer_is_closer _ _ _ Hs) as (c & Ec & Hc).
    unfold first_surplus_closer in Hs.
    apply andb_true_iff in Hs as [Hs Hgt].
    apply andb_true_iff in Hs as [Hk Hb].
    apply Nat.ltb_lt in Hk, Hgt. rewrite no_surplus_spec in Hb.
    rewrite (scan_stops_at_surplus mab ml _ 0 k); auto.
    split; [reflexivity |].
    unfold chars_from in Ec. rewrite nth_error_map in Ec.
    rewrite nth_error_skipn in Ec.
    destruct (nth_error tokens (pos + k)) as [t |] eqn:Et;
      [| discriminate].
    simpl in Ec. inversion Ec; subst c.
    now rewrite (AsChar_some _ _ _ Et).
  - intros tokens pos mab ml L Hb Ht.
    rewrite ProcessCode_scan by assumption.
    rewrite no_surplus_spec in Hb.
    rewrite (scan_to_end mab ml _ 0); auto.
    + rewrite chars_from_length.
      replace (pos + (length tokens - pos)) with (length tokens) by lia.
      reflexivity.
    + rewrite chars_from_length. exact Hb.
  - repeat split; reflexivity.
Qed.

Lemma ProcessCode_stops_at_first_surplus_closer_witness :
  ProcessCode foo_tokens 0 false false
  = Ok (joined foo_tokens 0 (0 + 6), 0 + 6) /\
  is_closer false (AsChar foo_tokens (Z.of_nat (0 + 6))) = true.
Proof.
  apply (proj1 ProcessCode_stops_at_first_surplus_closer
           foo_tokens 0 false false 6).
  - simpl. lia.
  - reflexivity.
  - reflexivity.
Defined.

(** C2 (the code differs). With [multi_line] off the first [;] ends the scan
    right after it at any depth of the bracket stack: the [case ';'] of the
    switch never looks at [open_symbols].  In [( a ; b ) ;] the scan ends
    after the [;] inside the parentheses, one bracket still open, where a
    [;] outside of brackets was meant to be the terminator. *)
Theorem ProcessCode_semicolon_ends_scan_at_any_depth :
  (forall tokens pos mab k,
      pos <= length tokens ->
      nth_error (chars_from tokens pos) k = Some ";"%char ->
      has_semicolon (firstn k (chars_from tokens pos)) = false ->
      no_surplus mab (chars_from tokens pos) k = true ->
      ProcessCode tokens pos mab false
      = Ok (joined tokens pos (pos + S k), pos + S k)) /\
  (ProcessCode nested_semicolon_tokens 0 false false = Ok ("( a ;", 3) /\
   openers false (firstn 2 (chars_from nested_semicolon_tokens 0)) = 1 /\
   closers false (firstn 2 (chars_from nested_semicolon_tokens 0)) = 0 /\
   ProcessCode_loop nested_semicolon_tokens 3 false false
     (mkCodeState 0 [] false)
   = mkCodeState 3 ["("%char] true).
Proof.
  split.
  - intros tokens pos mab k L Hn Hs Hb.
    rewrite ProcessCode_scan by assumption.
    rewrite no_surplus_spec in Hb.
    rewrite (scan_stops_after_semicolon mab _ 0 k); auto.
  - repeat split; reflexivity.
Qed.

Lemma ProcessCode_semicolon_ends_scan_at_any_depth_witness :
  ProcessCode nested_semicolon_tokens 0 false false
  = Ok (joined nested_semicolon_tokens 0 (0 + 3), 0 + 3).
Proof.
  apply (proj1 ProcessCode_semicolon_ends_scan_at_any_depth
           nested_semicolon_tokens 0 false 2).
  - simpl. lia.
  - reflexivity.
  - reflexivity.
  - reflexivity.
Defined.



(** C4. A closing bracket met with a non-empty stack pops its last entry
    whatever that entry is: the closer is never compared with the opener.
    The rest of the scan depends on the depth of the stack only, and in
    [( x } y )] the [}] closes the [(], the scan goes on and ends in front
    of the [)], which by then is surplus. *)
Theorem ProcessCode_pops_without_matching :
  (forall tokens mab ml st o opens,
      is_closer mab (AsChar tokens (Z.of_nat (cs_pos st))) = true ->
      open_symbols st = opens ++ [o] ->
      ProcessCode_step tokens mab ml st
      = mkCodeState (S (cs_pos st)) opens (finished st)) /\
  (forall tokens mab ml n pos opens1 opens2,
      length opens1 = length opens2 ->
      length tokens - pos <= n ->
      cs_pos (ProcessCode_loop tokens n mab ml (mkCodeState pos opens1 false))
      = cs_pos (ProcessCode_loop tokens n mab ml
                  (mkCodeState pos opens2 false))) /\
  (ProcessCode_step mismatch_tokens false true (mkCodeState 2 ["("%char] false)
   = mkCodeState 3 [] false /\
   ProcessCode mismatch_tokens 0 false true = Ok ("( x } y", 4)).
Proof.
  split; [| split].
  - intros tokens mab ml st o opens Hc Ho.
    rewrite ProcessCode_step_cases. cbv zeta.
    destruct (Ascii.eqb _ ";") eqn:Es.
    { destruct (semicolon_not_bracket mab _ Es). congruence. }
    destruct (is_opener mab _) eqn:Eo.
    { apply opener_not_closer in Eo. congruence. }
    rewrite Hc, Ho. rewrite removelast_last.
    now destruct opens.
  - intros tokens mab ml n pos opens1 opens2 Hl Hn.
    rewrite !ProcessCode_loop_scan by assumption. now rewrite Hl.
  - split; reflexivity.
Qed.

Lemma ProcessCode_pops_without_matching_witness :
  ProcessCode_step mismatch_tokens false true (mkCodeState 2 ["("%char] false)
  = mkCodeState (S 2) [] false.
Proof.
  apply (proj1 ProcessCode_pops_without_matching
           mismatch_tokens false true (mkCodeState 2 ["("%char] false)
           "("%char []).
  - reflexivity.
  - reflexivity.
Defined.

(** ** Outcomes *)

Lemma bind_Ok {A B : Type} (m : Outcome A) (k : A -> Outcome B) (b : B) :
  bind m k = Ok b -> exists a, m = Ok a /\ k a = Ok b.
Proof. destruct m; simpl; intros H; try discriminate. now exists a. Qed.

Lemma bind_not_Unfinished {A B : Type} (m : Outcome A) (k : A -> Outcome B) :
  m <> Unfinished -> (forall a, m = Ok a -> k a <> Unfinished) ->
  bind m k <> Unfinished.
Proof. destruct m; simpl; intros H1 H2; try discriminate; auto. Qed.

(** Splits a hypothesis [bind m k = Ok b] into the two steps. *)
Ltac bind_ok H a Ha :=
  apply bind_Ok in H; destruct H as (a & Ha & H).

Section Require.

Variable tokens : list Token.

Lemma RequireID_Ok (pos : nat) (msg : string) (u : unit) :
  RequireID tokens pos msg = Ok u -> IsID tokens (Z.of_nat pos) = true.
Proof.
  unfold RequireID. destruct (IsID tokens (Z.of_nat pos)); simpl;
    [reflexivity | discriminate].
Qed.

Lemma RequireChar_Ok (c : ascii) (pos : nat) (msg : string) (u : unit) :
  RequireChar tokens c pos msg = Ok u -> AsChar tokens (Z.of_nat pos) = c.
Proof.
  unfold RequireChar.
  destruct (Ascii.eqb_spec (AsChar tokens (Z.of_nat pos)) c); simpl;
    [auto | discriminate].
Qed.

Lemma RequireChar_in_range (c : ascii) (pos : nat) (msg : string) (u : unit) :
  c <> "000"%char ->
  RequireChar tokens c pos msg = Ok u -> pos < length tokens.
Proof.
  intros Hc H. apply RequireChar_Ok in H.
  apply AsChar_in_range. congruence.
Qed.

Lemma RequireID_pass (pos : nat) (msg : string) :
  IsID tokens (Z.of_nat pos) = true -> RequireID tokens pos msg = Ok tt.
Proof. unfold RequireID. now intros ->. Qed.

Lemma RequireID_fail (pos : nat) (msg : string) :
  IsID tokens (Z.of_nat pos) = false ->
  RequireID tokens pos msg = Fatal pos msg.
Proof. unfold RequireID. now intros ->. Qed.

Lemma RequireChar_pass (c : ascii) (pos : nat) (msg : string) :
  AsChar tokens (Z.of_nat pos) = c -> RequireChar tokens c pos msg = Ok tt.
Proof. unfold RequireChar. intros ->. now rewrite Ascii.eqb_refl. Qed.

Lemma RequireID_not_Unfinished (pos : nat) (msg : string) :
  RequireID tokens pos msg <> Unfinished.
Proof. unfold RequireID. now destruct (IsID tokens (Z.of_nat pos)). Qed.

Lemma RequireChar_not_Unfinished (c : ascii) (pos : nat) (msg : string) :
  RequireChar tokens c pos msg <> Unfinished.
Proof.
  unfold RequireChar.
  now destruct (Ascii.eqb (AsChar tokens (Z.of_nat pos)) c).
Qed.

Lemma tokens_at_Ok (i : nat) (t : Token) :
  tokens_at tokens i = Ok t -> nth_error tokens i = Some t.
Proof.
  unfold tokens_at. destruct (nth_error tokens i); intros H;
    now inversion H.
Qed.

Lemma tokens_at_not_Unfinished (i : nat) : tokens_at tokens i <> Unfinished.
Proof. unfold tokens_at. now destruct (nth_error tokens i). Qed.

Lemma ProcessCode_not_Unfinished (pos : nat) (mab ml : bool) :
  ProcessCode tokens pos mab ml <> Unfinished.
Proof.
  destruct (ProcessCode_returns tokens pos mab ml) as (text & p & E & _).
  now rewrite E.
Qed.

End Require.

(** ** ProcessType *)

Section TypeScan.

Variable tokens : list Token.

Lemma optional_step (b : bool) (p : nat) : p <= (if b then S p else p).
Proof. destruct b; lia. Qed.

Lemma lexeme_test_in_range (pos : nat) (s : string) :
  s <> EmptyString ->
  String.eqb (AsLexeme tokens (Z.of_nat pos)) s = true ->
  pos < length tokens.
Proof.
  intros Hs H. apply String.eqb_eq in H.
  apply AsLexeme_in_range. congruence.
Qed.

(** A successful pass over the identifiers of a type moves the cursor on and
    keeps it inside the tokens. *)
Lemma ProcessType_ids_advances :
  forall n pos pos',
    ProcessType_ids tokens n pos = Ok pos' ->
    pos < pos' /\ pos' <= length tokens.
Proof.
  induction n as [| n IH]; intros pos pos' H; [discriminate |].
  cbn [ProcessType_ids] in H.
  set (p1 := if String.eqb (AsLexeme tokens (Z.of_nat pos)) "typename"
             then S pos else pos) in H.
  set (p2 := if String.eqb (AsLexeme tokens (Z.of_nat p1)) "template"
             then S p1 else p1) in H.
  assert (L1 : pos <= p1) by apply optional_step.
  assert (L2 : p1 <= p2) by apply optional_step.
  bind_ok H t Ht. apply tokens_at_Ok in Ht.
  assert (L3 : p2 < length tokens) by (apply nth_error_Some; congruence).
  bind_ok H u Hu. bind_ok H p3 Hp3.
  assert (L4 : S p2 <= p3 /\ p3 <= length tokens).
  { destruct (String.eqb (AsLexeme tokens (Z.of_nat (S p2))) "<").
    - bind_ok Hp3 r Hr. destruct r as [text q].
      bind_ok Hp3 u' Hu'. inversion Hp3; subst p3.
      apply RequireChar_in_range in Hu'; [| discriminate].
      destruct (ProcessCode_returns tokens (S (S p2)) true false)
        as (text' & q' & E & Hq & _).
      rewrite E in Hr. inversion Hr; subst. lia.
    - inversion Hp3; subst p3. lia. }
  destruct (String.eqb (AsLexeme tokens (Z.of_nat p3)) "::") eqn:Ec.
  - apply IH in H. lia.
  - inversion H; subst. lia.
Qed.

Lemma ProcessType_advances (pos : nat) (text : string) (pos' : nat) :
  ProcessType tokens pos = Ok (text, pos') ->
  pos < pos' /\ pos' <= length tokens /\ text = joined tokens pos pos'.
Proof.
  unfold ProcessType. intros H.
  set (p0 := if String.eqb (AsLexeme tokens (Z.of_nat pos)) "const"
             then S pos else pos) in H.
  assert (L0 : pos <= p0) by apply optional_step.
  bind_ok H p1 Hp1. apply ProcessType_ids_advances in Hp1.
  set (p2 := if String.eqb (AsLexeme tokens (Z.of_nat p1)) "&"
             then S p1 else p1) in H.
  set (p3 := if String.eqb (AsLexeme tokens (Z.of_nat p2)) "*"
             then S p2 else p2) in H.
  assert (L2 : p1 <= p2 /\ p2 <= length tokens).
  { subst p2. destruct (String.eqb (AsLexeme tokens (Z.of_nat p1)) "&") eqn:E;
      [| lia].
    apply lexeme_test_in_range in E; [lia | discriminate]. }
  assert (L3 : p2 <= p3 /\ p3 <= length tokens).
  { subst p3. destruct (String.eqb (AsLexeme tokens (Z.of_nat p2)) "*") eqn:E;
      [| lia].
    apply lexeme_test_in_range in E; [lia | discriminate]. }
  rewrite ConcatLexemes_joined in H by lia. simpl in H.
  inversion H; subst. repeat split; lia.
Qed.

(** With [tokens.size() - pos + 1] passes at hand the loop over the
    identifiers never stops for want of passes. *)
Lemma ProcessType_ids_finishes :
  forall n pos,
    length tokens - pos < n ->
    ProcessType_ids tokens n pos <> Unfinished.
Proof.
  induction n as [| n IH]; intros pos Hn; [lia |].
  cbn [ProcessType_ids].
  set (p1 := if String.eqb (AsLexeme tokens (Z.of_nat pos)) "typename"
             then S pos else pos).
  set (p2 := if String.eqb (AsLexeme tokens (Z.of_nat p1)) "template"
             then S p1 else p1).
  assert (L1 : pos <= p1) by apply optional_step.
  assert (L2 : p1 <= p2) by apply optional_step.
  apply bind_not_Unfinished; [apply tokens_at_not_Unfinished |].
  intros t Ht. apply tokens_at_Ok in Ht.
  assert (L3 : p2 < length tokens) by (apply nth_error_Some; congruence).
  apply bind_not_Unfinished; [apply RequireID_not_Unfinished |].
  intros _ _.
  apply bind_not_Unfinished.
  - destruct (String.eqb _ "<"); [| discriminate].
    apply bind_not_Unfinished; [apply ProcessCode_not_Unfinished |].
    intros [text q] _.
    apply bind_not_Unfinished; [apply RequireChar_not_Unfinished |].
    discriminate.
  - intros p3 Hp3.
    assert (L4 : S p2 <= p3).
    { destruct (String.eqb (AsLexeme tokens (Z.of_nat (S p2))) "<").
      - bind_ok Hp3 r Hr. destruct r as [text q].
        bind_ok Hp3 u' Hu'. inversion Hp3; subst p3.
        destruct (ProcessCode_returns tokens (S (S p2)) true false)
          as (text' & q' & E & Hq & _).
        rewrite E in Hr. inversion Hr; subst. lia.
      - inversion Hp3; subst p3. lia. }
    destruct (String.eqb _ "::"); [| discriminate].
    apply IH. lia.
Qed.

Lemma ProcessType_not_Unfinished (pos : nat) :
  ProcessType tokens pos <> Unfinished.
Proof.
  unfold ProcessType.
  set (p0 := if String.eqb (AsLexeme tokens (Z.of_nat pos)) "const"
             then S pos else pos).
  apply bind_not_Unfinished.
  - apply ProcessType_ids_finishes. lia.
  - intros p1 Hp1. apply ProcessType_ids_advances in Hp1.
    set (p2 := if String.eqb (AsLexeme tokens (Z.of_nat p1)) "&"
               then S p1 else p1).
    set (p3 := if String.eqb (AsLexeme tokens (Z.of_nat p2)) "*"
               then S p2 else p2).
    assert (L0 : pos <= p0) by apply optional_step.
    assert (L2 : p1 <= p2 /\ p2 <= length tokens).
    { subst p2. destruct (String.eqb (AsLexeme tokens (Z.of_nat p1)) "&") eqn:E;
        [| lia].
      apply lexeme_test_in_range in E; [lia | discriminate]. }
    assert (L3 : p2 <= p3 /\ p3 <= length tokens).
    { subst p3. destruct (String.eqb (AsLexeme tokens (Z.of_nat p2)) "*") eqn:E;
        [| lia].
      apply lexeme_test_in_range in E; [lia | discriminate]. }
    rewrite ConcatLexemes_joined by lia. discriminate.
Qed.

End TypeScan.

(** ** ProcessParams and ProcessIDList *)

Section ParamScan.

Variable tokens : list Token.

Lemma ProcessParams_loop_Ok :
  forall n pos ps ps' pos',
    ProcessParams_loop tokens n pos ps = Ok (ps', pos') ->
    pos <= pos' /\ AsChar tokens (Z.of_nat pos') = ")"%char.
Proof.
  induction n as [| n IH]; intros pos ps ps' pos' H; simpl in H;
    destruct (Ascii.eqb_spec (AsChar tokens (Z.of_nat pos)) ")") as [E | E];
    simpl in H; try discriminate;
    try (inversion H; subst; split; [lia | assumption]).
  bind_ok H p1 Hp1.
  assert (L1 : pos <= p1).
  { destruct (negb (length ps =? 0)).
    - bind_ok Hp1 u Hu. inversion Hp1; lia.
    - inversion Hp1; lia. }
  bind_ok H r Hr. destruct r as [type_name p2].
  apply ProcessType_advances in Hr.
  bind_ok H r Hr'. destruct r as [identifier p3].
  assert (L3 : p2 <= p3).
  { destruct (IsID tokens (Z.of_nat p2)).
    - bind_ok Hr' t Ht. inversion Hr'; lia.
    - inversion Hr'; lia. }
  apply IH in H. destruct H as [H Hc]. split; [lia | exact Hc].
Qed.

Lemma ProcessParams_loop_finishes :
  forall n pos ps,
    length tokens - pos < n ->
    ProcessParams_loop tokens n pos ps <> Unfinished.
Proof.
  induction n as [| n IH]; intros pos ps Hn; [lia |].
  simpl. destruct (negb (Ascii.eqb (AsChar tokens (Z.of_nat pos)) ")"));
    [| discriminate].
  apply bind_not_Unfinished.
  - destruct (negb (length ps =? 0)); [| discriminate].
    apply bind_not_Unfinished; [apply RequireChar_not_Unfinished |].
    discriminate.
  - intros p1 Hp1.
    assert (L1 : pos <= p1).
    { destruct (negb (length ps =? 0)).
      - bind_ok Hp1 u Hu. inversion Hp1; lia.
      - inversion Hp1; lia. }
    apply bind_not_Unfinished; [apply ProcessType_not_Unfinished |].
    intros [type_name p2] Hr. apply ProcessType_advances in Hr.
    apply bind_not_Unfinished.
    + destruct (IsID tokens (Z.of_nat p2)); [| discriminate].
      apply bind_not_Unfinished; [apply tokens_at_not_Unfinished |].
      discriminate.
    + intros [identifier p3] Hr'.
      assert (L3 : p2 <= p3).
      { destruct (IsID tokens (Z.of_nat p2)).
        - bind_ok Hr' t Ht. inversion Hr'; lia.
        - inversion Hr'; lia. }
      apply IH. lia.
Qed.

Lemma ProcessParams_Ok (pos : nat) (ps : list ParamInfo) (pos' : nat) :
  ProcessParams tokens pos = Ok (ps, pos') ->
  pos <= pos' /\ AsChar tokens (Z.of_nat pos') = ")"%char.
Proof. apply ProcessParams_loop_Ok. Qed.

Lemma ProcessParams_not_Unfinished (pos : nat) :
  ProcessParams tokens pos <> Unfinished.
Proof. apply ProcessParams_loop_finishes. lia. Qed.

Lemma ProcessIDList_loop_Ok :
  forall n pos ids ids' pos',
    ProcessIDList_loop tokens n pos ids = Ok (ids', pos') ->
    pos <= pos' /\ IsID tokens (Z.of_nat pos') = false.
Proof.
  induction n as [| n IH]; intros pos ids ids' pos' H; simpl in H;
    destruct (IsID tokens (Z.of_nat pos)) eqn:E; try discriminate;
    try (inversion H; subst; split; [lia | assumption]).
  apply IH in H. destruct H as [H Hc]. split; [lia | exact Hc].
Qed.

Lemma ProcessIDList_loop_finishes :
  forall n pos ids,
    length tokens - pos <= n ->
    ProcessIDList_loop tokens n pos ids <> Unfinished.
Proof.
  induction n as [| n IH]; intros pos ids Hn; simpl;
    destruct (IsID tokens (Z.of_nat pos)) eqn:E; try discriminate.
  - apply IsID_in_range in E. lia.
  - apply IH. lia.
Qed.

Lemma ProcessIDList_Ok (pos : nat) (ids : list string) (pos' : nat) :
  ProcessIDList tokens pos = Ok (ids, pos') ->
  pos <= pos' /\ IsID tokens (Z.of_nat pos') = false.
Proof. apply ProcessIDList_loop_Ok. Qed.

Lemma ProcessIDList_not_Unfinished (pos : nat) :
  ProcessIDList tokens pos <> Unfinished.
Proof. apply ProcessIDList_loop_finishes. lia. Qed.

End ParamScan.

(** ** The members of a concept *)

Section MemberScan.

Variable tokens : list Token.

Lemma ProcessConcept_function_end_Ok (pos : nat) (e e' : ElementInfo)
    (pos' : nat) :
  ProcessConcept_function_end tokens pos e = Ok (e', pos') ->
  pos < pos' /\ pos' <= length tokens.
Proof.
  unfold ProcessConcept_function_end. intros H.
  destruct (Ascii.eqb (AsChar tokens (Z.of_nat pos)) "=").
  - bind_ok H u Hu. bind_ok H e1 He1. bind_ok H u' Hu'.
    apply RequireChar_in_range in Hu'; [| discriminate].
    inversion H; subst. lia.
  - destruct (Ascii.eqb (AsChar tokens (Z.of_nat pos)) "{");
      [| discriminate].
    bind_ok H r Hr. destruct r as [text q]. bind_ok H u Hu.
    apply RequireChar_in_range in Hu; [| discriminate].
    destruct (ProcessCode_returns tokens (S pos) false true)
      as (text' & q' & E & Hq & _).
    rewrite E in Hr. inversion Hr; subst. inversion H; subst. lia.
Qed.

Lemma ProcessConcept_using_Ok (pos : nat) (e : ElementInfo)
    (c c1 : AST_Concept) (pos' : nat) :
  ProcessConcept_using tokens pos e c = Ok (c1, pos') ->
  exists e',
    (forall c0, ProcessConcept_using tokens pos e c0
                = Ok (push_typedef c0 e', pos')) /\
    c1 = push_typedef c e' /\ pos < pos' /\ pos' <= length tokens.
Proof.
  unfold ProcessConcept_using. intros H.
  bind_ok H u Hu. bind_ok H r Hr. destruct r as [text p2].
  bind_ok H u' Hu'. bind_ok H r' Hr'. destruct r' as [text' p3].
  inversion H; subst.
  eexists. split; [| split; [reflexivity |]].
  - intros c0. rewrite Hu. simpl. rewrite Hr. simpl. rewrite Hu'. simpl.
    rewrite Hr'. reflexivity.
  - apply ProcessType_advances in Hr.
    apply RequireChar_in_range in Hu'; [| discriminate].
    destruct (ProcessCode_returns tokens (S p2) false false)
      as (t' & q' & E & Hq & Hq').
    rewrite E in Hr'. inversion Hr'; subst. lia.
Qed.

Lemma ProcessConcept_function_Ok (pos : nat) (e : ElementInfo)
    (c c1 : AST_Concept) (pos' : nat) :
  ProcessConcept_function tokens pos e c = Ok (c1, pos') ->
  exists e',
    (forall c0, ProcessConcept_function tokens pos e c0
                = Ok (push_function c0 e', pos')) /\
    c1 = push_function c e' /\ pos < pos' /\ pos' <= length tokens.
Proof.
  unfold ProcessConcept_function. intros H.
  bind_ok H r Hr. destruct r as [ps p1].
  bind_ok H u Hu. bind_ok H r' Hr'. destruct r' as [ids p2].
  bind_ok H r'' Hr''. destruct r'' as [e' p3].
  inversion H; subst.
  eexists. split; [| split; [reflexivity |]].
  - intros c0. rewrite Hr. simpl. rewrite Hu. simpl. rewrite Hr'. simpl.
    rewrite Hr''. reflexivity.
  - apply ProcessParams_Ok in Hr. apply ProcessIDList_Ok in Hr'.
    apply ProcessConcept_function_end_Ok in Hr''. lia.
Qed.

Lemma ProcessConcept_variable_Ok (pos : nat) (e : ElementInfo)
    (c c1 : AST_Concept) (pos' : nat) :
  pos <= length tokens ->
  ProcessConcept_variable tokens pos e c = Ok (c1, pos') ->
  exists e',
    (forall c0, ProcessConcept_variable tokens pos e c0
                = Ok (push_variable c0 e', pos')) /\
    c1 = push_variable c e' /\ pos <= pos' /\ pos' <= length tokens.
Proof.
  unfold ProcessConcept_variable. intros L H.
  bind_ok H r Hr. destruct r as [e' p1]. inversion H; subst.
  eexists. split; [| split; [reflexivity |]].
  - intros c0. rewrite Hr. reflexivity.
  - destruct (Ascii.eqb_spec (AsChar tokens (Z.of_nat pos)) ";") as [E | E].
    + inversion Hr; subst.
      assert (pos < length tokens)
        by (apply AsChar_in_range; rewrite E; discriminate).
      lia.
    + bind_ok Hr r Hq. destruct r as [text q]. inversion Hr; subst.
      destruct (ProcessCode_returns tokens pos false false)
        as (t' & q' & E' & Hq1 & Hq2).
      rewrite E' in Hq. inversion Hq; subst. lia.
Qed.

(** One pass of the member loop appends one element to one collection, the
    same element to the same collection whatever the concept holds, and
    moves the cursor on. *)
Lemma ProcessConcept_member_Ok (pos : nat) (c c1 : AST_Concept) (pos' : nat) :
  ProcessConcept_member tokens pos c = Ok (c1, pos') ->
  exists k e,
    member_at tokens pos k e pos' /\
    c1 = push_member k e c /\ pos < pos' /\ pos' <= length tokens.
Proof.
  unfold member_at, ProcessConcept_member. intros H.
  bind_ok H u Hu. bind_ok H t Ht. rewrite Hu, Ht. cbn [bind].
  destruct (String.eqb (lexeme t) "using").
  - apply ProcessConcept_using_Ok in H as (e' & Hall & Hc & Hp).
    exists IsTypedef, e'. split; [exact Hall | split; [exact Hc | exact Hp]].
  - bind_ok H r Hr. destruct r as [text p1].
    bind_ok H u' Hu'. bind_ok H t' Ht'.
    rewrite Hr. cbn [bind]. rewrite Hu'. cbn [bind]. rewrite Ht'. cbn [bind].
    apply ProcessType_advances in Hr.
    destruct (Ascii.eqb (AsChar tokens (Z.of_nat (S p1))) "(").
    + apply ProcessConcept_function_Ok in H as (e' & Hall & Hc & Hp).
      exists IsFunction, e'.
      split; [exact Hall | split; [exact Hc | lia]].
    + apply RequireID_Ok, IsID_in_range in Hu'.
      apply ProcessConcept_variable_Ok in H as (e' & Hall & Hc & Hp);
        [| lia].
      exists IsVariable, e'.
      split; [exact Hall | split; [exact Hc | lia]].
Qed.

Lemma select_cons (k : MemberKind) (m : Member) (ms : list Member) :
  select k (m :: ms)
  = (if MemberKind_eqb (m_kind m) k then [m_element m] else [])
      ++ select k ms.
Proof.
  unfold select. simpl. now destruct (MemberKind_eqb (m_kind m) k).
Qed.

(** The member loop, from a concept [c]: the members it scans and where
    each one goes. *)
Lemma ProcessConcept_loop_members :
  forall n pos c c' pos',
    ProcessConcept_loop tokens n pos c = Ok (c', pos') ->
    exists ms,
      members_of tokens pos ms pos' /\
      typedefs c' = typedefs c ++ select IsTypedef ms /\
      functions c' = functions c ++ select IsFunction ms /\
      variables c' = variables c ++ select IsVariable ms /\
      c_name c' = c_name c /\ base_name c' = base_name c.
Proof.
  induction n as [| n IH]; intros pos c c' pos' H; simpl in H;
    destruct (Ascii.eqb_spec (AsChar tokens (Z.of_nat pos)) "}") as [E | E];
    simpl in H; try discriminate;
    try (inversion H; subst; exists []; rewrite !app_nil_r;
         repeat split; auto; now constructor).
  bind_ok H r Hr. destruct r as [c1 p1].
  apply ProcessConcept_member_Ok in Hr as (k & e & Hm & Hc & Hp & _).
  apply IH in H as (ms & Hms & Ht & Hf & Hv & Hn & Hb).
  exists (mkMember pos k e :: ms).
  split; [now apply members_next with (pos' := p1) |].
  rewrite !select_cons. cbn [m_kind m_element].
  rewrite Ht, Hf, Hv, Hn, Hb, Hc.
  destruct k; simpl; rewrite <- ?app_assoc; simpl; auto.
Qed.

Lemma members_of_sorted (pos : nat) (ms : list Member) (body_end : nat) :
  members_of tokens pos ms body_end ->
  pos <= body_end /\
  Forall (fun m => pos <= m_start m) ms /\
  StronglySorted lt (map m_start ms).
Proof.
  induction 1 as [pos E | pos k e pos' ms body_end E Hm Hp Hms IH].
  - repeat split; [lia | constructor | constructor].
  - destruct IH as (Hle & Hall & Hs).
    repeat split.
    + lia.
    + constructor; [simpl; lia |].
      eapply Forall_impl; [| exact Hall]. simpl. intros m Hm'. lia.
    + simpl. constructor; [exact Hs |].
      apply Forall_map.
      eapply Forall_impl; [| exact Hall]. simpl. intros m Hm'. lia.
Qed.

Lemma members_of_end (pos : nat) (ms : list Member) (body_end : nat) :
  members_of tokens pos ms body_end ->
  AsChar tokens (Z.of_nat body_end) = "}"%char.
Proof. induction 1; auto. Qed.

(** What follows the attributes of a function fills in the body or the
    special value of the element and nothing else. *)
Lemma ProcessConcept_function_end_keeps (pos : nat) (e e' : ElementInfo)
    (pos' : nat) :
  ProcessConcept_function_end tokens pos e = Ok (e', pos') ->
  ei_type e' = ei_type e /\ ei_name e' = ei_name e /\
  params e' = params e /\ attributes e' = attributes e.
Proof.
  unfold ProcessConcept_function_end. intros H.
  destruct (Ascii.eqb (AsChar tokens (Z.of_nat pos)) "=").
  - bind_ok H u Hu. bind_ok H e1 He1. bind_ok H u' Hu'.
    inversion H; subst.
    destruct (String.eqb (AsLexeme tokens (Z.of_nat (S pos))) "required"
              || String.eqb (AsLexeme tokens (Z.of_nat (S pos))) "default");
      [| discriminate].
    inversion He1; subst. auto.
  - destruct (Ascii.eqb (AsChar tokens (Z.of_nat pos)) "{");
      [| discriminate].
    bind_ok H r Hr. destruct r as [text q]. bind_ok H u Hu.
    inversion H; subst. auto.
Qed.

Lemma push_member_new_Concept (k k' : MemberKind) (e e' : ElementInfo) :
  push_member k e new_Concept = push_member k' e' new_Concept ->
  k = k' /\ e = e'.
Proof.
  destruct k, k'; simpl; unfold push_typedef, push_function, push_variable;
    simpl; intros H; inversion H; auto.
Qed.

(** A member goes to the collection, and gets the name and the type, that
    its own tokens declare. *)
Lemma member_at_declared (pos : nat) (k : MemberKind) (e : ElementInfo)
    (pos' : nat) :
  member_at tokens pos k e pos' -> declared tokens (mkMember pos k e).
Proof.
  intros Hm. specialize (Hm new_Concept).
  unfold ProcessConcept_member in Hm.
  bind_ok Hm u Hu. bind_ok Hm t Ht.
  pose proof (RequireID_Ok _ _ _ _ Hu) as Hid.
  pose proof (AsLexeme_some _ _ _ (tokens_at_Ok _ _ _ Ht)) as Hlex.
  unfold declared. cbn [m_start m_kind m_element].
  split; [exact Hid |].
  destruct (String.eqb_spec (lexeme t) "using") as [E | E].
  - unfold ProcessConcept_using in Hm.
    bind_ok Hm u1 Hu1. bind_ok Hm r Hr. destruct r as [text p1].
    bind_ok Hm u2 Hu2. bind_ok Hm r' Hr'. destruct r' as [text' p2].
    inversion Hm as [[Hc Hp]].
    change (push_typedef new_Concept
              (with_type (with_name new_ElementInfo text) text'))
      with (push_member IsTypedef
              (with_type (with_name new_ElementInfo text) text') new_Concept)
      in Hc.
    apply push_member_new_Concept in Hc as [<- <-].
    split; [congruence |].
    exists p1, p2. cbn [ei_name ei_type with_type with_name].
    split; [exact Hr | split; [| exact Hr']].
    eapply RequireChar_Ok; exact Hu2.
  - bind_ok Hm r Hr. destruct r as [text p1].
    bind_ok Hm u1 Hu1. bind_ok Hm t1 Ht1.
    pose proof (RequireID_Ok _ _ _ _ Hu1) as Hid1.
    pose proof (AsLexeme_some _ _ _ (tokens_at_Ok _ _ _ Ht1)) as Hlex1.
    destruct (Ascii.eqb_spec (AsChar tokens (Z.of_nat (S p1))) "(")
      as [E1 | E1].
    + unfold ProcessConcept_function in Hm.
      bind_ok Hm r1 Hr1. destruct r1 as [ps p2].
      bind_ok Hm u2 Hu2. bind_ok Hm r2 Hr2. destruct r2 as [ids p3].
      bind_ok Hm r3 Hr3. destruct r3 as [e' p4].
      inversion Hm as [[Hc Hp]].
      change (push_function new_Concept e')
        with (push_member IsFunction e' new_Concept) in Hc.
      apply push_member_new_Concept in Hc as [<- <-].
      apply ProcessConcept_function_end_keeps in Hr3
        as (Hty & Hna & Hpa & Hat).
      cbn in Hty, Hna, Hpa, Hat.
      split; [congruence |].
      exists p1, p2, p3. rewrite Hty, Hna, Hpa, Hat.
      repeat split; auto; try congruence.
      eapply RequireChar_Ok; exact Hu2.
    + unfold ProcessConcept_variable in Hm.
      bind_ok Hm r1 Hr1. destruct r1 as [e' p2].
      inversion Hm as [[Hc Hp]].
      change (push_variable new_Concept e')
        with (push_member IsVariable e' new_Concept) in Hc.
      apply push_member_new_Concept in Hc as [<- <-].
      split; [congruence |].
      exists p1.
      destruct (Ascii.eqb (AsChar tokens (Z.of_nat (S p1))) ";").
      * inversion Hr1; subst. cbn. repeat split; auto; congruence.
      * bind_ok Hr1 r2 Hr2. destruct r2 as [text' q].
        inversion Hr1; subst. cbn. repeat split; auto; congruence.
Qed.

Lemma members_of_declared (pos : nat) (ms : list Member) (body_end : nat) :
  members_of tokens pos ms body_end -> Forall (declared tokens) ms.
Proof.
  induction 1 as [pos E | pos k e pos' ms body_end E Hm Hp Hms IH];
    constructor; [| exact IH].
  eapply member_at_declared; exact Hm.
Qed.

Lemma select_partition (ms : list Member) :
  length (select IsTypedef ms) + length (select IsFunction ms)
  + length (select IsVariable ms) = length ms.
Proof.
  induction ms as [| m ms IH]; [reflexivity |].
  rewrite !select_cons, !length_app.
  destruct (m_kind m); simpl; lia.
Qed.

End MemberScan.

(** ** The iteration bounds are never reached *)

Section Finishes.

Variable tokens : list Token.

Lemma ProcessConcept_function_end_not_Unfinished (pos : nat)
    (e : ElementInfo) :
  ProcessConcept_function_end tokens pos e <> Unfinished.
Proof.
  unfold ProcessConcept_function_end.
  destruct (Ascii.eqb (AsChar tokens (Z.of_nat pos)) "=").
  - apply bind_not_Unfinished; [apply RequireID_not_Unfinished |].
    intros _ _. apply bind_not_Unfinished.
    + now destruct (String.eqb _ "required" || String.eqb _ "default").
    + intros e' _.
      apply bind_not_Unfinished; [apply RequireChar_not_Unfinished |].
      discriminate.
  - destruct (Ascii.eqb (AsChar tokens (Z.of_nat pos)) "{");
      [| discriminate].
    apply bind_not_Unfinished; [apply ProcessCode_not_Unfinished |].
    intros [text q] _.
    apply bind_not_Unfinished; [apply RequireChar_not_Unfinished |].
    discriminate.
Qed.

Lemma ProcessConcept_member_not_Unfinished (pos : nat) (c : AST_Concept) :
  ProcessConcept_member tokens pos c <> Unfinished.
Proof.
  unfold ProcessConcept_member.
  apply bind_not_Unfinished; [apply RequireID_not_Unfinished |].
  intros _ _.
  apply bind_not_Unfinished; [apply tokens_at_not_Unfinished |].
  intros t _. destruct (String.eqb (lexeme t) "using").
  - unfold ProcessConcept_using.
    apply bind_not_Unfinished; [apply RequireID_not_Unfinished |].
    intros _ _.
    apply bind_not_Unfinished; [apply ProcessType_not_Unfinished |].
    intros [text p2] _.
    apply bind_not_Unfinished; [apply RequireChar_not_Unfinished |].
    intros _ _.
    apply bind_not_Unfinished; [apply ProcessCode_not_Unfinished |].
    intros [text' p3] _. discriminate.
  - apply bind_not_Unfinished; [apply ProcessType_not_Unfinished |].
    intros [text p1] _.
    apply bind_not_Unfinished; [apply RequireID_not_Unfinished |].
    intros _ _.
    apply bind_not_Unfinished; [apply tokens_at_not_Unfinished |].
    intros t' _.
    destruct (Ascii.eqb (AsChar tokens (Z.of_nat (S p1))) "(").
    + unfold ProcessConcept_function.
      apply bind_not_Unfinished; [apply ProcessParams_not_Unfinished |].
      intros [ps p2] _.
      apply bind_not_Unfinished; [apply RequireChar_not_Unfinished |].
      intros _ _.
      apply bind_not_Unfinished; [apply ProcessIDList_not_Unfinished |].
      intros [ids p3] _.
      apply bind_not_Unfinished;
        [apply ProcessConcept_function_end_not_Unfinished |].
      intros [e' p4] _. discriminate.
    + unfold ProcessConcept_variable.
      apply bind_not_Unfinished.
      * destruct (Ascii.eqb (AsChar tokens (Z.of_nat (S p1))) ";");
          [discriminate |].
        apply bind_not_Unfinished; [apply ProcessCode_not_Unfinished |].
        intros [text' q] _. discriminate.
      * intros [e' p2] _. discriminate.
Qed.

Lemma ProcessConcept_loop_finishes :
  forall n pos c,
    length tokens - pos < n ->
    ProcessConcept_loop tokens n pos c <> Unfinished.
Proof.
  induction n as [| n IH]; intros pos c Hn; [lia |].
  simpl. destruct (negb (Ascii.eqb (AsChar tokens (Z.of_nat pos)) "}"));
    [| discriminate].
  apply bind_not_Unfinished; [apply ProcessConcept_member_not_Unfinished |].
  intros [c1 p1] Hm.
  apply ProcessConcept_member_Ok in Hm as (k & e & _ & _ & Hp & Hl).
  apply IH. lia.
Qed.

Lemma ProcessConcept_head_Ok (pos : nat) (c : AST_Concept) (pos' : nat) :
  ProcessConcept_head tokens pos = Ok (c, pos') -> pos' = pos + 4.
Proof.
  unfold ProcessConcept_head. intros H.
  bind_ok H u1 Hu1. bind_ok H t1 Ht1. bind_ok H u2 Hu2.
  bind_ok H u3 Hu3. bind_ok H t2 Ht2. bind_ok H u4 Hu4.
  inversion H; subst. lia.
Qed.

Lemma ProcessConcept_head_not_Unfinished (pos : nat) :
  ProcessConcept_head tokens pos <> Unfinished.
Proof.
  unfold ProcessConcept_head.
  apply bind_not_Unfinished; [apply RequireID_not_Unfinished |].
  intros _ _.
  apply bind_not_Unfinished; [apply tokens_at_not_Unfinished |].
  intros t1 _.
  apply bind_not_Unfinished; [apply RequireChar_not_Unfinished |].
  intros _ _.
  apply bind_not_Unfinished; [apply RequireID_not_Unfinished |].
  intros _ _.
  apply bind_not_Unfinished; [apply tokens_at_not_Unfinished |].
  intros t2 _.
  apply bind_not_Unfinished; [apply RequireChar_not_Unfinished |].
  discriminate.
Qed.

Lemma ProcessConcept_not_Unfinished (pos : nat) (scope : AST_Scope) :
  ProcessConcept tokens pos scope <> Unfinished.
Proof.
  unfold ProcessConcept.
  apply bind_not_Unfinished; [apply ProcessConcept_head_not_Unfinished |].
  intros [c0 p0] _.
  apply bind_not_Unfinished; [apply ProcessConcept_loop_finishes; lia |].
  intros [c1 p1] _.
  apply bind_not_Unfinished; [apply RequireChar_not_Unfinished |].
  discriminate.
Qed.

Lemma ProcessConcept_advances (pos : nat) (scope scope' : AST_Scope)
    (pos' : nat) :
  ProcessConcept tokens pos scope = Ok (scope', pos') -> pos < pos'.
Proof.
  unfold ProcessConcept. intros H.
  bind_ok H r Hr. destruct r as [c0 p0].
  bind_ok H r' Hr'. destruct r' as [c1 p1].
  bind_ok H u Hu. inversion H; subst.
  apply ProcessConcept_head_Ok in Hr.
  apply ProcessConcept_loop_members in Hr' as (ms & Hms & _).
  apply members_of_sorted in Hms as (Hle & _). lia.
Qed.

(** What one statement of the outer scope does to the cursor: it moves it
    on. The four forms are taken apart here once, for the two lemmas on
    [ProcessTop] below. *)
Lemma ProcessTop_advances :
  forall n pos scope scope' pos',
    ProcessTop tokens n pos scope = Ok (scope', pos') -> pos <= pos'.
Proof.
  induction n as [| n IH]; intros pos scope scope' pos' H;
    cbn [ProcessTop] in H.
  - destruct ((pos <? length tokens)
              && negb (Ascii.eqb (AsChar tokens (Z.of_nat pos)) "}"));
      [discriminate | inversion H; lia].
  - destruct ((pos <? length tokens)
              && negb (Ascii.eqb (AsChar tokens (Z.of_nat pos)) "}"));
      [| inversion H; lia].
    destruct (IsPP tokens (Z.of_nat pos)).
    { apply IH in H. lia. }
    bind_ok H u Hu. bind_ok H r Hr. destruct r as [s1 p1].
    apply IH in H. enough (pos < p1) by lia. clear H.
    destruct (String.eqb (AsLexeme tokens (Z.of_nat pos)) "concept").
    { apply ProcessConcept_advances in Hr. lia. }
    destruct (String.eqb (AsLexeme tokens (Z.of_nat pos)) "struct"
              || String.eqb (AsLexeme tokens (Z.of_nat pos)) "class").
    { destruct (IsID tokens (Z.of_nat (S pos)));
        bind_ok Hr u1 Hu1; bind_ok Hr r' Hr'; destruct r' as [body q];
        bind_ok Hr u2 Hu2; bind_ok Hr u3 Hu3; inversion Hr; subst;
        match type of Hr' with
        | ProcessCode _ ?p _ _ = _ =>
            destruct (ProcessCode_returns tokens p false true)
              as (t' & q' & E & Hq & _)
        end; rewrite E in Hr'; inversion Hr'; subst; lia. }
    destruct (String.eqb (AsLexeme tokens (Z.of_nat pos)) "namespace").
    { destruct (IsID tokens (Z.of_nat (S pos)));
        bind_ok Hr u1 Hu1; bind_ok Hr r' Hr'; destruct r' as [ns q];
        bind_ok Hr u2 Hu2; inversion Hr; subst;
        apply IH in Hr'; lia. }
    destruct (String.eqb (AsLexeme tokens (Z.of_nat pos)) "using");
      [| discriminate].
    bind_ok Hr u1 Hu1. bind_ok Hr r' Hr'. destruct r' as [name q].
    bind_ok Hr u2 Hu2. bind_ok Hr r'' Hr''. destruct r'' as [type q2].
    inversion Hr; subst.
    apply ProcessType_advances in Hr'.
    destruct (ProcessCode_returns tokens (S q) false false)
      as (t' & q' & E & Hq & _).
    rewrite E in Hr''. inversion Hr''; subst. lia.
Qed.

(** With [tokens.size() - pos] passes at hand [ProcessTop] never stops for
    want of passes: every outcome of the model is an outcome of the code. *)
Lemma ProcessTop_finishes :
  forall n pos scope,
    length tokens - pos <= n ->
    ProcessTop tokens n pos scope <> Unfinished.
Proof.
  induction n as [| n IH]; intros pos scope Hn; cbn [ProcessTop].
  - destruct (Nat.ltb_spec pos (length tokens)); [lia | discriminate].
  - destruct (Nat.ltb_spec pos (length tokens)) as [L | L];
      [| discriminate].
    cbn [andb].
    destruct (negb (Ascii.eqb (AsChar tokens (Z.of_nat pos)) "}"));
      [| discriminate].
    destruct (IsPP tokens (Z.of_nat pos)); [apply IH; lia |].
    apply bind_not_Unfinished; [apply RequireID_not_Unfinished |].
    intros _ _.
    assert (Hrest : forall s1 p1, pos < p1 ->
                      ProcessTop tokens n p1 s1 <> Unfinished)
      by (intros s1 p1 Hp; apply IH; lia).
    assert (Hnested : forall s1 p1, pos < p1 ->
              forall s2 p2, ProcessTop tokens n p1 s1 = Ok (s2, p2) ->
                            pos < p2).
    { intros s1 p1 Hp s2 p2 Ht. apply ProcessTop_advances in Ht. lia. }
    destruct (String.eqb (AsLexeme tokens (Z.of_nat pos)) "concept").
    { apply bind_not_Unfinished; [apply ProcessConcept_not_Unfinished |].
      intros [s1 p1] Hr. apply ProcessConcept_advances in Hr.
      apply Hrest. lia. }
    destruct (String.eqb (AsLexeme tokens (Z.of_nat pos)) "struct"
              || String.eqb (AsLexeme tokens (Z.of_nat pos)) "class").
    { apply bind_not_Unfinished.
      - destruct (IsID tokens (Z.of_nat (S pos)));
          (apply bind_not_Unfinished; [apply RequireChar_not_Unfinished |]);
          intros _ _;
          (apply bind_not_Unfinished; [apply ProcessCode_not_Unfinished |]);
          intros [body q] _;
          (apply bind_not_Unfinished; [apply RequireChar_not_Unfinished |]);
          intros _ _;
          (apply bind_not_Unfinished; [apply RequireChar_not_Unfinished |]);
          discriminate.
      - intros [s1 p1] Hr. apply Hrest.
        destruct (IsID tokens (Z.of_nat (S pos)));
          bind_ok Hr u1 Hu1; bind_ok Hr r' Hr'; destruct r' as [body q];
          bind_ok Hr u2 Hu2; bind_ok Hr u3 Hu3; inversion Hr; subst;
          match type of Hr' with
          | ProcessCode _ ?p _ _ = _ =>
              destruct (ProcessCode_returns tokens p false true)
                as (t' & q' & E & Hq & _)
          end; rewrite E in Hr'; inversion Hr'; subst; lia. }
    destruct (String.eqb (AsLexeme tokens (Z.of_nat pos)) "namespace").
    { apply bind_not_Unfinished.
      - destruct (IsID tokens (Z.of_nat (S pos)));
          (apply bind_not_Unfinished; [apply RequireChar_not_Unfinished |]);
          intros _ _;
          (apply bind_not_Unfinished; [apply Hrest; lia |]);
          intros [ns q] _;
          (apply bind_not_Unfinished; [apply RequireChar_not_Unfinished |]);
          discriminate.
      - intros [s1 p1] Hr. apply Hrest.
        destruct (IsID tokens (Z.of_nat (S pos)));
          bind_ok Hr u1 Hu1; bind_ok Hr r' Hr'; destruct r' as [ns q];
          bind_ok Hr u2 Hu2; inversion Hr; subst;
          apply Hnested in Hr'; lia. }
    destruct (String.eqb (AsLexeme tokens (Z.of_nat pos)) "using").
    { apply bind_not_Unfinished.
      - apply bind_not_Unfinished; [apply RequireID_not_Unfinished |].
        intros _ _.
        apply bind_not_Unfinished; [apply ProcessType_not_Unfinished |].
        intros [name q] _.
        apply bind_not_Unfinished; [apply RequireChar_not_Unfinished |].
        intros _ _.
        apply bind_not_Unfinished; [apply ProcessCode_not_Unfinished |].
        intros [type q2] _. discriminate.
      - intros [s1 p1] Hr. apply Hrest.
        bind_ok Hr u1 Hu1. bind_ok Hr r' Hr'. destruct r' as [name q].
        bind_ok Hr u2 Hu2. bind_ok Hr r'' Hr''. destruct r'' as [type q2].
        inversion Hr; subst.
        apply ProcessType_advances in Hr'.
        destruct (ProcessCode_returns tokens (S q) false false)
          as (t' & q' & E & Hq & _).
        rewrite E in Hr''. inversion Hr''; subst. lia. }
    apply bind_not_Unfinished; discriminate.
Qed.

(** The run as a whole: it returns a tree, ends with a diagnostic or reads a
    token out of range; the model has no other outcome for it. *)
Lemma Process_not_Unfinished (pos : nat) : Process tokens pos <> Unfinished.
Proof.
  unfold Process.
  apply bind_not_Unfinished; [apply ProcessTop_finishes; lia |].
  intros [root p] _. discriminate.
Qed.

End Finishes.

(** C5. After the attributes of a function member, [= required ;] and
    [= default ;] set [special_value] to the word and leave the body text
    alone, and a brace opens an inline body: [default_code] becomes the text
    [ProcessCode] collects up to the closing brace, [special_value] stays as
    it was.  For [void f() = required;], [void f() = default;] and
    [void f() { return; }] the member scanned is a function named [f] of type
    [void] with, in turn, [special_value] "required" and no body, "default"
    and no body, and an empty [special_value] with body "return ;". *)
Theorem function_member_required_default_inline :
  (forall tokens pos e v,
      AsChar tokens (Z.of_nat pos) = "="%char ->
      IsID tokens (Z.of_nat (S pos)) = true ->
      AsLexeme tokens (Z.of_nat (S pos)) = v ->
      v = "required" \/ v = "default" ->
      AsChar tokens (Z.of_nat (S (S pos))) = ";"%char ->
      ProcessConcept_function_end tokens pos e
      = Ok (with_special_value e v, S (S (S pos)))) /\
  (forall tokens pos e text pos',
      AsChar tokens (Z.of_nat pos) = "{"%char ->
      ProcessCode tokens (S pos) false true = Ok (text, pos') ->
      AsChar tokens (Z.of_nat pos') = "}"%char ->
      ProcessConcept_function_end tokens pos e
      = Ok (with_default_code e text, S pos')) /\
  member_at required_member_tokens 0 IsFunction
    (mkElementInfo "void" "f" [] [] EmptyString "required") 7 /\
  member_at default_member_tokens 0 IsFunction
    (mkElementInfo "void" "f" [] [] EmptyString "default") 7 /\
  member_at inline_member_tokens 0 IsFunction
    (mkElementInfo "void" "f" [] [] "return ;" EmptyString) 8.
Proof.
  split; [| split; [| repeat split]]; try (intros c; reflexivity).
  - intros tokens pos e v Hc Hid Hv Hrd Hs.
    unfold ProcessConcept_function_end. rewrite Hc. cbn [Ascii.eqb].
    change (Ascii.eqb "=" "=") with true. cbv iota.
    rewrite RequireID_pass by assumption. cbn [bind].
    rewrite Hv.
    assert (Ht : String.eqb v "required" || String.eqb v "default" = true)
      by (destruct Hrd as [E | E]; rewrite E; reflexivity).
    rewrite Ht. cbn [bind].
    rewrite RequireChar_pass by assumption. reflexivity.
  - intros tokens pos e text pos' Hc Hcode Hb.
    unfold ProcessConcept_function_end. rewrite Hc.
    change (Ascii.eqb "{" "=") with false.
    change (Ascii.eqb "{" "{") with true. cbv iota.
    rewrite Hcode. cbn [bind].
    rewrite RequireChar_pass by assumption. reflexivity.
Qed.

Lemma function_member_required_default_inline_witness :
  ProcessConcept_function_end required_member_tokens 4
    (mkElementInfo "void" "f" [] [] EmptyString EmptyString)
  = Ok (with_special_value
          (mkElementInfo "void" "f" [] [] EmptyString EmptyString) "required",
        7).
Proof.
  apply (proj1 function_member_required_default_inline
           required_member_tokens 4
           (mkElementInfo "void" "f" [] [] EmptyString EmptyString)
           "required").
  - reflexivity.
  - reflexivity.
  - reflexivity.
  - left. reflexivity.
  - reflexivity.
Defined.

(** C6 (the code differs). In a function member, once the parameters are
    read up to their closing parenthesis and the attributes after it, a
    token that [AsChar] reports as neither [=] nor an open brace is a fatal
    error at that token, and after [=] anything but an identifier is a fatal
    error at that token.  An identifier other than [required] and [default]
    after [=] is a fatal error too, but its diagnostic does not name the
    identifier: the cursor has already moved past it when the error is
    raised, so the position reported is that of the token after it.  A
    fatal outcome ends the run: whatever was to follow is dropped, so the
    whole run on [void f();], [void f() = 0;] or [void f() = delete;] inside
    a concept ends with that diagnostic; the first two name the offending
    token ([;] at 9, [0] at 10), the third names 11, the [;] after the
    offending [delete] at 10. *)
Theorem illegal_function_tail_is_fatal :
  (forall tokens pos e concept ps p1 ids p2,
      ProcessParams tokens (S pos) = Ok (ps, p1) ->
      ProcessIDList tokens (S p1) = Ok (ids, p2) ->
      (AsChar tokens (Z.of_nat p2) <> "="%char ->
       AsChar tokens (Z.of_nat p2) <> "{"%char ->
       ProcessConcept_function tokens pos e concept
       = Fatal p2
           "Function body must begin with open brace or assignment ('{' or '=')") /\
      (AsChar tokens (Z.of_nat p2) = "="%char ->
       IsID tokens (Z.of_nat (S p2)) = false ->
       ProcessConcept_function tokens pos e concept
       = Fatal (S p2)
           "Function must be assigned to 'required' or 'default'") /\
      (AsChar tokens (Z.of_nat p2) = "="%char ->
       IsID tokens (Z.of_nat (S p2)) = true ->
       AsLexeme tokens (Z.of_nat (S p2)) <> "required" ->
       AsLexeme tokens (Z.of_nat (S p2)) <> "default" ->
       ProcessConcept_function tokens pos e concept
       = Fatal (S (S p2))
           "Functions can only be set to 'required' or 'default'" /\
       ProcessConcept_function tokens pos e concept
       <> Fatal (S p2)
            "Functions can only be set to 'required' or 'default'")) /\
  (forall (A B : Type) (k : A -> Outcome B) pos msg,
      bind (Fatal pos msg) k = Fatal pos msg) /\
  (Process bare_declaration_tokens 0
   = Fatal 9
       "Function body must begin with open brace or assignment ('{' or '=')" /\
   nth_error bare_declaration_tokens 9 = Some (SYM ";")) /\
  (Process pure_virtual_tokens 0
   = Fatal 10 "Function must be assigned to 'required' or 'default'" /\
   nth_error pure_virtual_tokens 10 = Some (mkToken Number "0")) /\
  (Process deleted_function_tokens 0
   = Fatal 11 "Functions can only be set to 'required' or 'default'" /\
   nth_error deleted_function_tokens 10 = Some (ID "delete") /\
   nth_error deleted_function_tokens 11 = Some (SYM ";")).
Proof.
  split; [| repeat split].
  intros tokens pos e concept ps p1 ids p2 Hps Hids.
  pose proof (ProcessParams_Ok _ _ _ _ Hps) as [_ Hclose].
  assert (Hfun : forall k msg,
             ProcessConcept_function_end tokens p2
               (with_attributes (with_params e ps) ids) = Fatal k msg ->
             ProcessConcept_function tokens pos e concept = Fatal k msg).
  { intros k msg Hend. unfold ProcessConcept_function.
    rewrite Hps. cbn [bind].
    rewrite RequireChar_pass by assumption. cbn [bind].
    rewrite Hids. cbn [bind]. rewrite Hend. reflexivity. }
  split; [| split].
  - intros Heq Hbr. apply Hfun. unfold ProcessConcept_function_end.
    apply Ascii.eqb_neq in Heq, Hbr. rewrite Heq, Hbr.
    unfold Error. f_equal. lia.
  - intros Heq Hid. apply Hfun. unfold ProcessConcept_function_end.
    rewrite Heq. change (Ascii.eqb "=" "=") with true. cbv iota.
    rewrite RequireID_fail by assumption. reflexivity.
  - intros Heq Hid Hr Hd.
    assert (E : ProcessConcept_function tokens pos e concept
                = Fatal (S (S p2))
                    "Functions can only be set to 'required' or 'default'").
    { apply Hfun. unfold ProcessConcept_function_end.
      rewrite Heq. change (Ascii.eqb "=" "=") with true. cbv iota.
      rewrite RequireID_pass by assumption. cbn [bind].
      apply String.eqb_neq in Hr, Hd. rewrite Hr, Hd. reflexivity. }
    split; [exact E |].
    rewrite E. intros F. inversion F. lia.
Qed.

Lemma illegal_function_tail_is_fatal_witness :
  ProcessConcept_function deleted_function_tokens 7
    (mkElementInfo "void" "f" [] [] EmptyString EmptyString) new_Concept
  = Fatal 11 "Functions can only be set to 'required' or 'default'" /\
  ProcessConcept_function deleted_function_tokens 7
    (mkElementInfo "void" "f" [] [] EmptyString EmptyString) new_Concept
  <> Fatal 10 "Functions can only be set to 'required' or 'default'".
Proof.
  apply (proj1 illegal_function_tail_is_fatal
           deleted_function_tokens 7
           (mkElementInfo "void" "f" [] [] EmptyString EmptyString)
           new_Concept [] 8 [] 9).
  - reflexivity.
  - reflexivity.
  - reflexivity.
  - reflexivity.
  - discriminate.
  - discriminate.
Defined.

(** C7. The tokens of
    [concept Fitness : Base { double GetFitness() = required; int age; };]
    parse, from token 0, into exactly one node, the concept [Fitness] with
    base [Base], one function [GetFitness] of type [double] marked
    [required] and one variable [age] of type [int], every token consumed.
    Whenever [ProcessConcept] returns it has added one concept node and the
    last two tokens it consumed are the closing brace and a [;]; without
    that [;] the scenario is a fatal error. *)
Theorem fitness_concept_parses_to_one_node :
  ProcessTop fitness_tokens (length fitness_tokens) 0 []
  = Ok ([Concept
           (mkConcept "Fitness" "Base" []
              [mkElementInfo "int" "age" [] [] EmptyString EmptyString]
              [mkElementInfo "double" "GetFitness" [] [] EmptyString
                 "required"])],
        17) /\
  length fitness_tokens = 17 /\
  (forall tokens pos scope scope' pos',
      ProcessConcept tokens pos scope = Ok (scope', pos') ->
      exists concept,
        scope' = scope ++ [Concept concept] /\
        2 <= pos' /\
        AsChar tokens (Z.of_nat (pos' - 2)) = "}"%char /\
        AsChar tokens (Z.of_nat (pos' - 1)) = ";"%char) /\
  ProcessTop (removelast fitness_tokens) 16 0 []
  = Fatal 16 "Concept definitions must end in a semi-colon.".
Proof.
  split; [reflexivity | split; [reflexivity | split; [| reflexivity]]].
  intros tokens pos scope scope' pos' H.
  unfold ProcessConcept in H.
  bind_ok H r Hr. destruct r as [c0 p0].
  bind_ok H r' Hr'. destruct r' as [c1 p1].
  bind_ok H u Hu. inversion H; subst.
  exists c1. split; [reflexivity |].
  apply ProcessConcept_loop_members in Hr' as (ms & Hms & _).
  apply members_of_end in Hms as Hend.
  apply RequireChar_Ok in Hu.
  replace (S (S p1) - 2) with p1 by lia.
  replace (S (S p1) - 1) with (S p1) by lia.
  repeat split; auto. lia.
Qed.

Lemma fitness_concept_parses_to_one_node_witness :
  exists concept,
    [Concept
       (mkConcept "Fitness" "Base" []
          [mkElementInfo "int" "age" [] [] EmptyString EmptyString]
          [mkElementInfo "double" "GetFitness" [] [] EmptyString "required"])]
    = [] ++ [Concept concept] /\
    2 <= 17 /\
    AsChar fitness_tokens (Z.of_nat (17 - 2)) = "}"%char /\
    AsChar fitness_tokens (Z.of_nat (17 - 1)) = ";"%char.
Proof.
  apply (proj1 (proj2 (proj2 fitness_concept_parses_to_one_node))
           fitness_tokens 1 []).
  reflexivity.
Defined.

(** C8. Whenever [ProcessConcept] returns, the concept it adds holds the
    members of the body, [m1 ... mn] in source order (the first starts after
    the open brace, each next one where the one before ended, the last ends
    at the closing brace, so their start positions increase): [typedefs] is the
    members that are typedefs, [functions] those that are functions and
    [variables] those that are variables, each in the order of the source.
    Every member has one kind, so it is in one collection only, and the
    three collections together have exactly [n] entries.  The kind of a
    member is the one its own tokens declare: a member is among the
    typedefs exactly if it starts with [using], and otherwise among the
    functions if an open parenthesis follows its name and among the
    variables if not; its name and type are those written there.  A pass
    of the member loop appends to the collection of that kind and leaves
    the other two, and what the collection held before, as they were.  On
    [concept M : B { using A = int; int x; void f() = required;
    using C = char; int y = 3; void g(int n) { } };] the members start at
    tokens 5, 10, 13, 20, 25 and 30 and the concept holds the typedefs
    [A; C], the variables [x; y] and the functions [f; g]. *)
Theorem concept_collections_keep_source_order :
  (forall tokens pos scope scope' pos',
      ProcessConcept tokens pos scope = Ok (scope', pos') ->
      exists concept body_start body_end ms,
        scope' = scope ++ [Concept concept] /\
        body_start = pos + 4 /\ pos' = body_end + 2 /\
        members_of tokens body_start ms body_end /\
        StronglySorted lt (map m_start ms) /\
        Forall (declared tokens) ms /\
        typedefs concept = select IsTypedef ms /\
        functions concept = select IsFunction ms /\
        variables concept = select IsVariable ms /\
        length (typedefs concept) + length (functions concept)
        + length (variables concept) = length ms) /\
  (forall tokens pos c c' pos',
      ProcessConcept_member tokens pos c = Ok (c', pos') ->
      exists e,
        (AsLexeme tokens (Z.of_nat pos) = "using" /\
         declared tokens (mkMember pos IsTypedef e) /\
         c' = mkConcept (c_name c) (base_name c) (typedefs c ++ [e])
                (variables c) (functions c)) \/
        (declared tokens (mkMember pos IsFunction e) /\
         c' = mkConcept (c_name c) (base_name c) (typedefs c)
                (variables c) (functions c ++ [e])) \/
        (declared tokens (mkMember pos IsVariable e) /\
         c' = mkConcept (c_name c) (base_name c) (typedefs c)
                (variables c ++ [e]) (functions c))) /\
  ProcessConcept mixed_tokens 1 []
  = Ok ([Concept
           (mkConcept "M" "B" [mixed_A; mixed_C] [mixed_x; mixed_y]
              [mixed_f; mixed_g])], 40) /\
  members_of mixed_tokens 5
    [mkMember 5 IsTypedef mixed_A; mkMember 10 IsVariable mixed_x;
     mkMember 13 IsFunction mixed_f; mkMember 20 IsTypedef mixed_C;
     mkMember 25 IsVariable mixed_y; mkMember 30 IsFunction mixed_g] 38.
Proof.
  split; [| split; [| split]].
  - intros tokens pos scope scope' pos' H.
    unfold ProcessConcept in H.
    bind_ok H r Hr. destruct r as [c0 p0].
    bind_ok H r' Hr'. destruct r' as [c1 p1].
    bind_ok H u Hu. inversion H; subst.
    apply ProcessConcept_loop_members in Hr'
      as (ms & Hms & Ht & Hf & Hv & _).
    assert (Hempty : typedefs c0 = [] /\ functions c0 = []
                     /\ variables c0 = []).
    { unfold ProcessConcept_head in Hr.
      bind_ok Hr u1 Hu1. bind_ok Hr t1 Ht1. bind_ok Hr u2 Hu2.
      bind_ok Hr u3 Hu3. bind_ok Hr t2 Ht2. bind_ok Hr u4 Hu4.
      inversion Hr; subst. repeat split. }
    destruct Hempty as (Et & Ef & Ev).
    rewrite Et in Ht. rewrite Ef in Hf. rewrite Ev in Hv.
    simpl in Ht, Hf, Hv.
    exists c1, p0, p1, ms.
    split; [reflexivity |].
    split; [now apply ProcessConcept_head_Ok in Hr |].
    split; [lia |]. split; [exact Hms |].
    split; [now apply (members_of_sorted tokens p0 ms p1) |].
    split; [now apply (members_of_declared tokens p0 ms p1) |].
    rewrite Ht, Hf, Hv. repeat split. apply select_partition.
  - intros tokens pos c c' pos' H.
    apply ProcessConcept_member_Ok in H as (k & e & Hm & Hc & _).
    apply member_at_declared in Hm.
    exists e. destruct k; simpl in Hc.
    + left. split; [apply Hm | split; [exact Hm | exact Hc]].
    + right. left. split; [exact Hm | exact Hc].
    + right. right. split; [exact Hm | exact Hc].
  - reflexivity.
  - apply members_next with (pos' := 10);
      [vm_compute; discriminate | intros c; reflexivity | lia |].
    apply members_next with (pos' := 13);
      [vm_compute; discriminate | intros c; reflexivity | lia |].
    apply members_next with (pos' := 20);
      [vm_compute; discriminate | intros c; reflexivity | lia |].
    apply members_next with (pos' := 25);
      [vm_compute; discriminate | intros c; reflexivity | lia |].
    apply members_next with (pos' := 30);
      [vm_compute; discriminate | intros c; reflexivity | lia |].
    apply members_next with (pos' := 38);
      [vm_compute; discriminate | intros c; reflexivity | lia |].
    apply members_done. reflexivity.
Qed.

Lemma concept_collections_keep_source_order_witness :
  exists concept body_start body_end ms,
    [Concept
       (mkConcept "M" "B" [mixed_A; mixed_C] [mixed_x; mixed_y]
          [mixed_f; mixed_g])]
    = [] ++ [Concept concept] /\
    body_start = 1 + 4 /\ 40 = body_end + 2 /\
    members_of mixed_tokens body_start ms body_end /\
    StronglySorted lt (map m_start ms) /\
    Forall (declared mixed_tokens) ms /\
    typedefs concept = select IsTypedef ms /\
    functions concept = select IsFunction ms /\
    variables concept = select IsVariable ms /\
    length (typedefs concept) + length (functions concept)
    + length (variables concept) = length ms.
Proof.
  apply (proj1 concept_collections_keep_source_order mixed_tokens 1 [] _ 40).
  reflexivity.
Defined.

(** C9 (the code differs). [Process] declares its cursor without giving it a
    value, so the parse starts wherever that variable happens to stand, not
    at token 0.  From any start at or past the end nothing is parsed and the
    run returns an empty tree; on the single token [foo] a start at 0 is the
    fatal error "Unknown keyword" and a start at 1 is a normal return. *)
Theorem Process_cursor_is_not_initialised :
  (forall tokens pos,
      length tokens <= pos -> Process tokens pos = Ok []) /\
  Process [ID "foo"] 0 = Fatal 0 "Unknown keyword 'foo'.  Aborting." /\
  Process [ID "foo"] 1 = Ok [].
Proof.
  split; [| split; reflexivity].
  intros tokens pos L. unfold Process.
  replace (length tokens - pos) with 0 by lia. simpl.
  apply Nat.ltb_ge in L. now rewrite L.
Qed.

Lemma Process_cursor_is_not_initialised_witness :
  Process fitness_tokens 17 = Ok [].
Proof.
  apply (proj1 Process_cursor_is_not_initialised fitness_tokens 17).
  simpl. lia.
Defined.

(** C10 (the code differs). A helper reads [tokens[pos]] only where
    [HasToken] holds, which is inside the vector, and at or past the end of
    the tokens every positional helper answers without touching it: false,
    the null character or the empty string.  [ProcessType] does not go through them
    for its diagnostic: it builds the text "Expecting type, but found ..."
    from [tokens[pos].lexeme] before it calls [RequireID], so called at the
    end of the input it reads [tokens[pos]] out of range instead of
    reporting the error. *)
Theorem ProcessType_at_end_reads_out_of_range :
  (forall tokens (p : Z),
      HasToken tokens p = true -> exists t, guarded_token tokens p = Some t) /\
  (forall tokens (p : Z),
      (Z.of_nat (length tokens) <= p)%Z ->
      HasToken tokens p = false /\ IsID tokens p = false /\
      IsNumber tokens p = false /\ IsString tokens p = false /\
      IsPP tokens p = false /\ AsChar tokens p = "000"%char /\
      AsLexeme tokens p = EmptyString) /\
  (forall tokens pos,
      length tokens <= pos -> ProcessType tokens pos = OutOfRange pos) /\
  ProcessType [ID "const"] 0 = OutOfRange 1 /\
  ProcessTop [ID "using"; ID "const"] 2 0 [] = OutOfRange 2.
Proof.
  split; [exact HasToken_in_range | split; [| split; [| split; reflexivity]]].
  - intros tokens p Hp.
    unfold IsID, IsNumber, IsString, IsPP, AsChar, AsLexeme.
    rewrite (HasToken_past_end tokens p Hp). repeat split.
  - intros tokens pos L. unfold ProcessType.
    rewrite (AsLexeme_none tokens pos L). cbn [String.eqb].
    replace (length tokens - pos) with 0 by lia.
    cbn [ProcessType_ids].
    repeat (rewrite (AsLexeme_none tokens pos L); cbn [String.eqb]).
    rewrite (tokens_at_past_end tokens pos L). reflexivity.
Qed.

Lemma ProcessType_at_end_reads_out_of_range_witness :
  ProcessType [ID "const"] 1 = OutOfRange 1.
Proof.
  apply (proj1 (proj2 (proj2 ProcessType_at_end_reads_out_of_range))
           [ID "const"] 1).
  simpl. lia.
Defined.

(** * Further properties of the scanners *)

(** ** ProcessCode: why it stops *)

Lemma chars_from_nth (tokens : list Token) (pos j : nat) (c : ascii) :
  nth_error (chars_from tokens pos) j = Some c ->
  AsChar tokens (Z.of_nat (pos + j)) = c.
Proof.
  unfold chars_from. rewrite nth_error_map, nth_error_skipn. intros H.
  destruct (nth_error tokens (pos + j)) as [t |] eqn:E; [| discriminate].
  simpl in H. inversion H; subst. now apply AsChar_some.
Qed.

Lemma nth_chars_from (tokens : list Token) (pos j : nat) :
  pos + j < length tokens ->
  nth_error (chars_from tokens pos) j
  = Some (AsChar tokens (Z.of_nat (pos + j))).
Proof.
  intros L. unfold chars_from. rewrite nth_error_map, nth_error_skipn.
  destruct (tokens_at_some tokens (pos + j) L) as (t & E & _).
  rewrite E. simpl. now rewrite (AsChar_some _ _ _ E).
Qed.

(** What [scan] has seen when it stops after [k] characters from depth [d]:
    no closer it took was surplus, with [ml] off no [;] but possibly the
    last character taken, and it stands at the end, right after a [;], or in
    front of a closer that nothing covers. *)
Lemma scan_stop_reason (mab ml : bool) :
  forall cs d,
    let k := scan mab ml cs d in
    (forall j, j <= k ->
               closers mab (firstn j cs) <= d + openers mab (firstn j cs)) /\
    (ml = false -> forall j, S j < k -> nth_error cs j <> Some ";"%char) /\
    (k = length cs \/
     (ml = false /\ exists j, k = S j /\ nth_error cs j = Some ";"%char) \/
     (exists c, nth_error cs k = Some c /\ is_closer mab c = true /\
                closers mab (firstn k cs) = d + openers mab (firstn k cs))).
Proof.
  induction cs as [| c r IH]; intros d; cbv zeta.
  - simpl. repeat split.
    + intros j _. rewrite firstn_nil. unfold closers; simpl. lia.
    + intros _ j Hj. lia.
    + now left.
  - cbn [scan].
    destruct (Ascii.eqb c ";") eqn:Es.
    { destruct (semicolon_not_bracket mab c Es) as [Ho Hc].
      apply Ascii.eqb_eq in Es. subst c.
      destruct ml.
      - destruct (IH d) as (Hb & Hs & Hr). cbv zeta in *.
        repeat split.
        + intros [| j] Hj; [unfold closers; simpl; lia |].
          simpl firstn. rewrite openers_cons, closers_cons, Ho, Hc.
          specialize (Hb j ltac:(lia)). simpl. lia.
        + discriminate.
        + destruct Hr as [Hr | [[Hr _] | (c & Hn & Hcl & Hr)]].
          * left. simpl. lia.
          * discriminate.
          * right. right. exists c. simpl nth_error. simpl firstn.
            rewrite openers_cons, closers_cons, Ho, Hc.
            repeat split; auto.
      - repeat split.
        + intros [| [| j]] Hj; try lia; unfold closers, openers; simpl;
            try lia.
          destruct mab; simpl; lia.
        + intros _ j Hj. lia.
        + right. left. split; [reflexivity |]. now exists 0. }
    assert (Hsemi : forall k',
               (forall j, S j < k' -> nth_error r j <> Some ";"%char) ->
               forall j, S j < S k' ->
                         nth_error (c :: r) j <> Some ";"%char).
    { intros k' H [| j] Hj; simpl.
      - intros E. inversion E. subst c. discriminate.
      - apply H. lia. }
    destruct (is_opener mab c) eqn:Eo.
    { pose proof (opener_not_closer _ _ Eo) as Ec.
      destruct (IH (S d)) as (Hb & Hs & Hr). cbv zeta in *.
      repeat split.
      - intros [| j] Hj; [unfold closers; simpl; lia |].
        simpl firstn. rewrite openers_cons, closers_cons, Eo, Ec.
        specialize (Hb j ltac:(lia)). simpl. lia.
      - intros Hml. apply Hsemi. now apply Hs.
      - destruct Hr as [Hr | [[Hml (j & Hj & Hn)] | (c' & Hn & Hcl & Hr)]].
        + left. simpl. lia.
        + right. left. split; [assumption |].
          exists (S j). split; [lia | exact Hn].
        + right. right. exists c'. simpl nth_error. simpl firstn.
          rewrite openers_cons, closers_cons, Eo, Ec.
          repeat split; auto. simpl. lia. }
    destruct (is_closer mab c) eqn:Ec.
    { destruct d as [| d].
      - repeat split.
        + intros j Hj. replace j with 0 by lia. unfold closers; simpl. lia.
        + intros _ j Hj. lia.
        + right. right. exists c. repeat split; auto.
      - destruct (IH d) as (Hb & Hs & Hr). cbv zeta in *.
        repeat split.
        + intros [| j] Hj; [unfold closers; simpl; lia |].
          simpl firstn. rewrite openers_cons, closers_cons, Eo, Ec.
          specialize (Hb j ltac:(lia)). simpl. lia.
        + intros Hml. apply Hsemi. now apply Hs.
        + destruct Hr as [Hr | [[Hml (j & Hj & Hn)] | (c' & Hn & Hcl & Hr)]].
          * left. simpl. lia.
          * right. left. split; [assumption |].
            exists (S j). split; [lia | exact Hn].
          * right. right. exists c'. simpl nth_error. simpl firstn.
            rewrite openers_cons, closers_cons, Eo, Ec.
            repeat split; auto. simpl. lia. }
    destruct (IH d) as (Hb & Hs & Hr). cbv zeta in *.
    repeat split.
    + intros [| j] Hj; [unfold closers; simpl; lia |].
      simpl firstn. rewrite openers_cons, closers_cons, Eo, Ec.
      specialize (Hb j ltac:(lia)). simpl. lia.
    + intros Hml. apply Hsemi. now apply Hs.
    + destruct Hr as [Hr | [[Hml (j & Hj & Hn)] | (c' & Hn & Hcl & Hr)]].
      * left. simpl. lia.
      * right. left. split; [assumption |].
        exists (S j). split; [lia | exact Hn].
      * right. right. exists c'. simpl nth_error. simpl firstn.
        rewrite openers_cons, closers_cons, Eo, Ec.
        repeat split; auto.
Qed.

(** X1. From a cursor inside the tokens [ProcessCode] always returns
    normally: the text is the lexemes of exactly the tokens it moved over,
    joined by single spaces, and the cursor stays inside the tokens.  It
    stops for one of three reasons only: the input ended, the last token it
    took is a [;] (with [multi_line] off), or the cursor is on a closing
    bracket that no opener taken before covers: the tokens taken hold as
    many closers as openers.  None of the closers it took was surplus and,
    with [multi_line] off, none of the tokens before the last one taken is
    a [;]. *)
Theorem ProcessCode_returns_span_and_stop_reason :
  forall tokens pos mab ml,
    pos <= length tokens ->
    exists pos',
      ProcessCode tokens pos mab ml = Ok (joined tokens pos pos', pos') /\
      pos <= pos' /\ pos' <= length tokens /\
      no_surplus mab (chars_from tokens pos) (pos' - pos) = true /\
      (ml = false ->
       forall i, pos <= i -> S i < pos' ->
                 AsChar tokens (Z.of_nat i) <> ";"%char) /\
      (pos' = length tokens \/
       (ml = false /\ pos < pos' /\
        AsChar tokens (Z.of_nat (pos' - 1)) = ";"%char) \/
       (pos' < length tokens /\
        is_closer mab (AsChar tokens (Z.of_nat pos')) = true /\
        closers mab (firstn (pos' - pos) (chars_from tokens pos))
        = openers mab (firstn (pos' - pos) (chars_from tokens pos)))).
Proof.
  intros tokens pos mab ml L.
  exists (pos + scan mab ml (chars_from tokens pos) 0).
  rewrite ProcessCode_scan by assumption.
  pose proof (scan_le mab ml (chars_from tokens pos) 0) as Hle.
  rewrite chars_from_length in Hle.
  destruct (scan_stop_reason mab ml (chars_from tokens pos) 0)
    as (Hb & Hs & Hr).
  cbv zeta in *.
  set (k := scan mab ml (chars_from tokens pos) 0) in *.
  split; [reflexivity |]. split; [lia |]. split; [lia |].
  replace (pos + k - pos) with k by lia.
  split; [now apply no_surplus_spec |]. split.
  - intros Hml i Hi Hk E.
    apply (Hs Hml (i - pos)); [lia |].
    rewrite nth_chars_from by lia.
    replace (pos + (i - pos)) with i by lia. now rewrite E.
  - destruct Hr as [Hr | [[Hml (j & Hj & Hn)] | (c & Hn & Hcl & Hd)]].
    + left. rewrite chars_from_length in Hr. lia.
    + right. left. split; [assumption |]. split; [lia |].
      apply chars_from_nth in Hn.
      replace (pos + k - 1) with (pos + j) by lia. exact Hn.
    + right. right.
      assert (Hk : k < length (chars_from tokens pos))
        by (apply nth_error_Some; congruence).
      rewrite chars_from_length in Hk.
      apply chars_from_nth in Hn.
      split; [lia |]. split; [now rewrite Hn | exact Hd].
Qed.

Lemma ProcessCode_returns_span_and_stop_reason_witness :
  exists pos',
    ProcessCode mismatch_tokens 0 false true
    = Ok (joined mismatch_tokens 0 pos', pos') /\
    0 <= pos' /\ pos' <= length mismatch_tokens /\
    no_surplus false (chars_from mismatch_tokens 0) (pos' - 0) = true /\
    (true = false ->
     forall i, 0 <= i -> S i < pos' ->
               AsChar mismatch_tokens (Z.of_nat i) <> ";"%char) /\
    (pos' = length mismatch_tokens \/
     (true = false /\ 0 < pos' /\
      AsChar mismatch_tokens (Z.of_nat (pos' - 1)) = ";"%char) \/
     (pos' < length mismatch_tokens /\
      is_closer false (AsChar mismatch_tokens (Z.of_nat pos')) = true /\
      closers false (firstn (pos' - 0) (chars_from mismatch_tokens 0))
      = openers false (firstn (pos' - 0) (chars_from mismatch_tokens 0)))).
Proof.
  apply (ProcessCode_returns_span_and_stop_reason mismatch_tokens 0 false true).
  simpl. lia.
Defined.

(** ** ConcatLexemes: spans and how they compose *)

Lemma firstn_plus {A : Type} (n m : nat) (l : list A) :
  firstn (n + m) l = firstn n l ++ firstn m (skipn n l).
Proof.
  revert l. induction n as [| n IH]; intros [| x l]; simpl;
    try rewrite firstn_nil; try reflexivity.
  now rewrite IH.
Qed.

Lemma spaced_app (l1 l2 : list string) :
  spaced (l1 ++ l2) = (spaced l1 ++ spaced l2)%string.
Proof.
  induction l1 as [| x l1 IH]; simpl; [reflexivity |].
  now rewrite IH, append_assoc.
Qed.

Lemma joined_split (tokens : list Token) (a b c : nat) :
  a < b -> b < c -> c <= length tokens ->
  joined tokens a c
  = (joined tokens a b ++ " " ++ joined tokens b c)%string.
Proof.
  intros Hab Hbc Hc. unfold joined.
  replace (c - a) with ((b - a) + (c - b)) by lia.
  rewrite firstn_plus, skipn_skipn.
  replace (b - a + a) with b by lia.
  rewrite map_app.
  destruct (tokens_at_some tokens a ltac:(lia)) as (ta & Ea & _).
  destruct (tokens_at_some tokens b ltac:(lia)) as (tb & Eb & _).
  rewrite (skipn_nth_error _ _ _ Ea), (skipn_nth_error _ _ _ Eb).
  destruct (b - a) as [| n] eqn:En; [lia |].
  destruct (c - b) as [| m] eqn:Em; [lia |].
  cbn [firstn map app].
  rewrite !concat_spaced, spaced_app. cbn [spaced].
  rewrite <- concat_spaced.
  now rewrite !append_assoc.
Qed.

(** X2. [ConcatLexemes] is called on a stretch [[a, b)] with [a <= b] and
    [b] no greater than the number of tokens (its two assertions).  There
    it returns the lexemes of the tokens of the stretch joined by single
    spaces, with no space in front or behind; the empty stretch gives the
    empty string.  Two adjoining non-empty stretches compose: the text of
    [[a, c)] is the text of [[a, b)], one space, and the text of [[b, c)]. *)
Theorem ConcatLexemes_spans_compose :
  forall tokens a b c,
    a <= b -> b <= c -> c <= length tokens ->
    ConcatLexemes tokens a b
    = Ok (String.concat " " (map lexeme (firstn (b - a) (skipn a tokens)))) /\
    ConcatLexemes tokens b b = Ok EmptyString /\
    (a < b -> b < c ->
     exists x y,
       ConcatLexemes tokens a b = Ok x /\
       ConcatLexemes tokens b c = Ok y /\
       ConcatLexemes tokens a c = Ok (x ++ " " ++ y)%string).
Proof.
  intros tokens a b c Hab Hbc Hc. split; [| split].
  - rewrite ConcatLexemes_joined by lia. reflexivity.
  - apply ConcatLexemes_empty.
  - intros Hab' Hbc'.
    exists (joined tokens a b), (joined tokens b c).
    rewrite !ConcatLexemes_joined by lia.
    rewrite (joined_split tokens a b c) by assumption.
    repeat split.
Qed.

Lemma ConcatLexemes_spans_compose_witness :
  ConcatLexemes foo_tokens 0 2
  = Ok (String.concat " " (map lexeme (firstn (2 - 0) (skipn 0 foo_tokens)))) /\
  ConcatLexemes foo_tokens 2 2 = Ok EmptyString /\
  (0 < 2 -> 2 < 6 ->
   exists x y,
     ConcatLexemes foo_tokens 0 2 = Ok x /\
     ConcatLexemes foo_tokens 2 6 = Ok y /\
     ConcatLexemes foo_tokens 0 6 = Ok (x ++ " " ++ y)%string).
Proof.
  apply (ConcatLexemes_spans_compose foo_tokens 0 2 6); simpl; lia.
Defined.

(** ** AsChar and RequireChar: punctuation only *)

(** X3. [AsChar] reports a character other than the null character only for
    a token inside the vector that the lexer classified as a symbol, and
    then it is the first character of its lexeme.  So [RequireChar] for such
    a character passes exactly on a symbol that starts with it; on an
    identifier, number, string or preprocessor token, whatever its text, and
    at the end of the input, it is the fatal error at that position with
    the message it was given. *)
Theorem RequireChar_passes_on_symbols_only :
  forall tokens (c : ascii) pos msg,
    c <> "000"%char ->
    (RequireChar tokens c pos msg = Ok tt <->
     exists t, nth_error tokens pos = Some t /\ kind t = Symbol /\
               first_char (lexeme t) = c) /\
    (RequireChar tokens c pos msg = Ok tt \/
     RequireChar tokens c pos msg = Fatal pos msg).
Proof.
  intros tokens c pos msg Hc. split.
  - split.
    + intros H. apply RequireChar_Ok in H.
      assert (L : pos < length tokens)
        by (apply AsChar_in_range; congruence).
      destruct (tokens_at_some tokens pos L) as (t & E & _).
      exists t. split; [exact E |].
      rewrite (AsChar_some _ _ _ E) in H. unfold token_char in H.
      unfold lexer_IsSymbol in H.
      destruct (kind t); try congruence. auto.
    + intros (t & E & Hk & Hf). apply RequireChar_pass.
      rewrite (AsChar_some _ _ _ E). unfold token_char, lexer_IsSymbol.
      now rewrite Hk.
  - unfold RequireChar, Error.
    destruct (Ascii.eqb (AsChar tokens (Z.of_nat pos)) c); simpl; auto.
Qed.

Lemma RequireChar_passes_on_symbols_only_witness :
  (RequireChar foo_tokens "("%char 1 "open" = Ok tt <->
   exists t, nth_error foo_tokens 1 = Some t /\ kind t = Symbol /\
             first_char (lexeme t) = "("%char) /\
  (RequireChar foo_tokens "("%char 1 "open" = Ok tt \/
   RequireChar foo_tokens "("%char 1 "open" = Fatal 1 "open").
Proof.
  apply (RequireChar_passes_on_symbols_only foo_tokens "("%char 1 "open").
  discriminate.
Defined.

(** ** ProcessType: the span of a type *)

Lemma ProcessType_ids_last (tokens : list Token) :
  forall n pos pos',
    ProcessType_ids tokens n pos = Ok pos' ->
    IsID tokens (Z.of_nat (pos' - 1)) = true \/
    AsChar tokens (Z.of_nat (pos' - 1)) = ">"%char.
Proof.
  induction n as [| n IH]; intros pos pos' H; [discriminate |].
  cbn [ProcessType_ids] in H.
  set (p1 := if String.eqb (AsLexeme tokens (Z.of_nat pos)) "typename"
             then S pos else pos) in H.
  set (p2 := if String.eqb (AsLexeme tokens (Z.of_nat p1)) "template"
             then S p1 else p1) in H.
  bind_ok H t Ht. bind_ok H u Hu. bind_ok H p3 Hp3.
  apply RequireID_Ok in Hu.
  assert (L : IsID tokens (Z.of_nat (p3 - 1)) = true \/
              AsChar tokens (Z.of_nat (p3 - 1)) = ">"%char).
  { destruct (String.eqb (AsLexeme tokens (Z.of_nat (S p2))) "<").
    - bind_ok Hp3 r Hr. destruct r as [text q].
      bind_ok Hp3 u' Hu'. inversion Hp3; subst p3.
      apply RequireChar_Ok in Hu'. right.
      replace (S q - 1) with q by lia. exact Hu'.
    - inversion Hp3; subst p3. left.
      replace (S p2 - 1) with p2 by lia. exact Hu. }
  destruct (String.eqb (AsLexeme tokens (Z.of_nat p3)) "::").
  - now apply IH in H.
  - inversion H; subst. exact L.
Qed.

(** X4. When [ProcessType] returns, it has consumed at least one token and
    stayed inside the tokens, its text is the lexemes of exactly the tokens
    it consumed joined by single spaces, and the last token it consumed is
    an identifier, the [>] that closes template arguments, a [&] or a
    [*]. *)
Theorem ProcessType_returns_its_span :
  forall tokens pos text pos',
    ProcessType tokens pos = Ok (text, pos') ->
    pos < pos' /\ pos' <= length tokens /\
    text = joined tokens pos pos' /\
    (IsID tokens (Z.of_nat (pos' - 1)) = true \/
     AsChar tokens (Z.of_nat (pos' - 1)) = ">"%char \/
     AsLexeme tokens (Z.of_nat (pos' - 1)) = "&" \/
     AsLexeme tokens (Z.of_nat (pos' - 1)) = "*").
Proof.
  intros tokens pos text pos' H.
  pose proof (ProcessType_advances _ _ _ _ H) as (H1 & H2 & H3).
  repeat split; auto.
  unfold ProcessType in H.
  bind_ok H p1 Hp1. apply ProcessType_ids_last in Hp1.
  bind_ok H txt Ht. inversion H; subst. clear H.
  destruct (String.eqb_spec (AsLexeme tokens (Z.of_nat p1)) "&") as [Ea | Ea].
  - destruct (String.eqb_spec (AsLexeme tokens (Z.of_nat (S p1))) "*")
      as [Es | Es].
    + right. right. right.
      replace (S (S p1) - 1) with (S p1) by lia. exact Es.
    + right. right. left.
      replace (S p1 - 1) with p1 by lia. exact Ea.
  - destruct (String.eqb_spec (AsLexeme tokens (Z.of_nat p1)) "*")
      as [Es | Es].
    + right. right. right.
      replace (S p1 - 1) with p1 by lia. exact Es.
    + destruct Hp1 as [Hp1 | Hp1]; auto.
Qed.

Lemma ProcessType_returns_its_span_witness :
  0 < 4 /\ 4 <= length template_tokens /\
  "Foo < Bar >" = joined template_tokens 0 4 /\
  (IsID template_tokens (Z.of_nat (4 - 1)) = true \/
   AsChar template_tokens (Z.of_nat (4 - 1)) = ">"%char \/
   AsLexeme template_tokens (Z.of_nat (4 - 1)) = "&" \/
   AsLexeme template_tokens (Z.of_nat (4 - 1)) = "*").
Proof.
  apply (ProcessType_returns_its_span template_tokens 0).
  reflexivity.
Defined.

Lemma joined_one (tokens : list Token) (pos : nat) :
  pos < length tokens ->
  joined tokens pos (S pos) = AsLexeme tokens (Z.of_nat pos).
Proof.
  intros L. destruct (tokens_at_some tokens pos L) as (t & E & _).
  unfold joined. replace (S pos - pos) with 1 by lia.
  rewrite (skipn_nth_error _ _ _ E), (AsLexeme_some _ _ _ E). reflexivity.
Qed.

(** X5. A type that is one plain identifier (not [const], [typename] or
    [template], and not followed by [<] or [::]) takes that identifier and
    then at most one [&] and, after it, at most one [*]: with neither, the
    text is the identifier; a [*] right after the identifier ends the type
    whatever follows, so the second suffix of a pointer to pointer or of a
    reference to pointer is left for the caller; after a [&], one [*] is
    still taken. *)
Theorem ProcessType_plain_identifier_and_suffix :
  forall tokens pos,
    IsID tokens (Z.of_nat pos) = true ->
    AsLexeme tokens (Z.of_nat pos) <> "const" ->
    AsLexeme tokens (Z.of_nat pos) <> "typename" ->
    AsLexeme tokens (Z.of_nat pos) <> "template" ->
    AsLexeme tokens (Z.of_nat (S pos)) <> "<" ->
    AsLexeme tokens (Z.of_nat (S pos)) <> "::" ->
    (AsLexeme tokens (Z.of_nat (S pos)) <> "&" ->
     AsLexeme tokens (Z.of_nat (S pos)) <> "*" ->
     ProcessType tokens pos = Ok (AsLexeme tokens (Z.of_nat pos), S pos)) /\
    (AsLexeme tokens (Z.of_nat (S pos)) = "*" ->
     ProcessType tokens pos
     = Ok (joined tokens pos (S (S pos)), S (S pos))) /\
    (AsLexeme tokens (Z.of_nat (S pos)) = "&" ->
     AsLexeme tokens (Z.of_nat (S (S pos))) <> "*" ->
     ProcessType tokens pos
     = Ok (joined tokens pos (S (S pos)), S (S pos))) /\
    (AsLexeme tokens (Z.of_nat (S pos)) = "&" ->
     AsLexeme tokens (Z.of_nat (S (S pos))) = "*" ->
     ProcessType tokens pos
     = Ok (joined tokens pos (S (S (S pos))), S (S (S pos)))).
Proof.
  intros tokens pos Hid Hc Hty Hte Hlt Hcc.
  pose proof (IsID_in_range _ _ Hid) as L.
  destruct (tokens_at_some tokens pos L) as (t & E & Et).
  apply String.eqb_neq in Hc, Hty, Hte, Hlt, Hcc.
  assert (Hids : ProcessType_ids tokens (S (length tokens - pos)) pos
                 = Ok (S pos)).
  { cbn [ProcessType_ids]. rewrite Hty, Hte, Et. cbn [bind].
    rewrite RequireID_pass by assumption. cbn [bind].
    rewrite Hlt. cbn [bind]. now rewrite Hcc. }
  unfold ProcessType. rewrite Hc, Hids. cbn [bind].
  repeat split.
  - intros Ha Hs. apply String.eqb_neq in Ha, Hs. rewrite Ha, Hs.
    rewrite ConcatLexemes_joined by lia. cbn [bind].
    now rewrite joined_one.
  - intros Hs.
    assert (Ha : String.eqb (AsLexeme tokens (Z.of_nat (S pos))) "&" = false)
      by (rewrite Hs; reflexivity).
    rewrite Ha. rewrite Hs. cbn [String.eqb Ascii.eqb Bool.eqb]. cbv iota.
    assert (S pos < length tokens)
      by (apply AsLexeme_in_range; rewrite Hs; discriminate).
    rewrite ConcatLexemes_joined by lia. reflexivity.
  - intros Ha Hs. apply String.eqb_neq in Hs. rewrite Ha.
    cbn [String.eqb Ascii.eqb Bool.eqb]. cbv iota. rewrite Hs.
    assert (S pos < length tokens)
      by (apply AsLexeme_in_range; rewrite Ha; discriminate).
    rewrite ConcatLexemes_joined by lia. reflexivity.
  - intros Ha Hs. rewrite Ha.
    cbn [String.eqb Ascii.eqb Bool.eqb]. cbv iota. rewrite Hs.
    cbn [String.eqb Ascii.eqb Bool.eqb]. cbv iota.
    assert (S (S pos) < length tokens)
      by (apply AsLexeme_in_range; rewrite Hs; discriminate).
    rewrite ConcatLexemes_joined by lia. reflexivity.
Qed.

Lemma ProcessType_plain_identifier_and_suffix_witness :
  ProcessType [ID "int"; SYM "*"; SYM "*"; ID "p"] 0
  = Ok (joined [ID "int"; SYM "*"; SYM "*"; ID "p"] 0 2, 2).
Proof.
  apply (proj1 (proj2 (ProcessType_plain_identifier_and_suffix
                         [ID "int"; SYM "*"; SYM "*"; ID "p"] 0
                         ltac:(reflexivity) ltac:(discriminate)
                         ltac:(discriminate) ltac:(discriminate)
                         ltac:(discriminate) ltac:(discriminate)))).
  reflexivity.
Defined.

(** ** ProcessTemplate *)

(** X6. From a cursor inside the tokens [ProcessTemplate] leaves the
    cursor alone and returns the empty string unless the token is the word
    [template]; then it accepts [<] immediately followed by [>] and nothing
    else: it returns normally exactly on [template < >], with that text and
    the cursor three tokens on, and any token between the brackets is the
    fatal error "Templates must end with a '>'" at that token. *)
Theorem ProcessTemplate_accepts_empty_brackets_only :
  forall tokens pos,
    pos <= length tokens ->
    (AsLexeme tokens (Z.of_nat pos) <> "template" ->
     ProcessTemplate tokens pos = Ok (EmptyString, pos)) /\
    (AsLexeme tokens (Z.of_nat pos) = "template" ->
     forall text pos',
       ProcessTemplate tokens pos = Ok (text, pos') <->
       AsChar tokens (Z.of_nat (S pos)) = "<"%char /\
       AsChar tokens (Z.of_nat (S (S pos))) = ">"%char /\
       text = joined tokens pos (pos + 3) /\ pos' = pos + 3) /\
    (AsLexeme tokens (Z.of_nat pos) = "template" ->
     AsChar tokens (Z.of_nat (S pos)) = "<"%char ->
     AsChar tokens (Z.of_nat (S (S pos))) <> ">"%char ->
     ProcessTemplate tokens pos
     = Fatal (S (S pos)) "Templates must end with a '>'").
Proof.
  intros tokens pos _. unfold ProcessTemplate. split; [| split].
  - intros H. apply String.eqb_neq in H. now rewrite H.
  - intros H text pos'. rewrite H. cbn [String.eqb Ascii.eqb Bool.eqb negb].
    cbv iota. split.
    + intros Hr. bind_ok Hr u Hu. bind_ok Hr u' Hu'. bind_ok Hr txt Ht.
      inversion Hr; subst.
      assert (S (S pos) < length tokens)
        by (eapply RequireChar_in_range; [| exact Hu']; discriminate).
      apply RequireChar_Ok in Hu, Hu'.
      rewrite ConcatLexemes_joined in Ht by lia. inversion Ht.
      repeat split; auto; f_equal; lia.
    + intros (Ho & Hc & Ht & Hp). subst.
      rewrite !RequireChar_pass by assumption. cbn [bind].
      assert (S (S pos) < length tokens)
        by (apply AsChar_in_range; rewrite Hc; discriminate).
      rewrite ConcatLexemes_joined by lia. cbn [bind].
      repeat f_equal; lia.
  - intros H Ho Hc. rewrite H. cbn [String.eqb Ascii.eqb Bool.eqb negb].
    cbv iota. rewrite RequireChar_pass by assumption. cbn [bind].
    unfold RequireChar. apply Ascii.eqb_neq in Hc. now rewrite Hc.
Qed.

Lemma ProcessTemplate_accepts_empty_brackets_only_witness :
  ProcessTemplate [ID "template"; SYM "<"; ID "typename"; ID "T"; SYM ">"] 0
  = Fatal 2 "Templates must end with a '>'".
Proof.
  apply (proj2 (proj2 (ProcessTemplate_accepts_empty_brackets_only
           [ID "template"; SYM "<"; ID "typename"; ID "T"; SYM ">"] 0
           ltac:(simpl; lia)))).
  - reflexivity.
  - reflexivity.
  - discriminate.
Defined.

(** ** ProcessParams: the parameter lists it reads *)

Section ParamLists.

Variable tokens : list Token.







End ParamLists.


(** ** ProcessIDList: the set of attributes *)

Lemma set_insert_In (s x : string) (l : list string) :
  In x (set_insert s l) <-> x = s \/ In x l.
Proof.
  induction l as [| y r IH]; simpl.
  - intuition.
  - destruct (String.compare s y) eqn:E; simpl.
    + apply String.compare_eq_iff in E. subst. intuition.
    + intuition.
    + rewrite IH. intuition.
Qed.

Lemma set_insert_sorted (s : string) (l : list string) :
  StronglySorted OrderedTypeEx.String_as_OT.lt l ->
  StronglySorted OrderedTypeEx.String_as_OT.lt (set_insert s l).
Proof.
  induction 1 as [| y r Hs IH Hall]; simpl.
  - repeat constructor.
  - destruct (String.compare s y) eqn:E.
    + now constructor.
    + apply OrderedTypeEx.String_as_OT.cmp_lt in E.
      constructor; [now constructor |].
      constructor; [exact E |].
      eapply Forall_impl; [| exact Hall]. intros z Hz.
      eapply OrderedTypeEx.String_as_OT.lt_trans; eassumption.
    + assert (Hlt : OrderedTypeEx.String_as_OT.lt y s).
      { apply OrderedTypeEx.String_as_OT.cmp_lt.
        unfold OrderedTypeEx.String_as_OT.cmp.
        rewrite String.compare_antisym, E. reflexivity. }
      constructor; [exact IH |].
      apply Forall_forall. intros z Hz.
      apply set_insert_In in Hz as [-> | Hz]; [exact Hlt |].
      rewrite Forall_forall in Hall. now apply Hall.
Qed.

Lemma ProcessIDList_loop_collects (tokens : list Token) :
  forall n pos acc,
    length tokens - pos <= n ->
    exists ids close,
      ProcessIDList_loop tokens n pos acc = Ok (ids, close) /\
      pos <= close /\
      (forall i, pos <= i -> i < close ->
                 IsID tokens (Z.of_nat i) = true) /\
      IsID tokens (Z.of_nat close) = false /\
      (forall s, In s ids <->
                 In s acc \/
                 exists i, pos <= i /\ i < close /\
                           AsLexeme tokens (Z.of_nat i) = s) /\
      (StronglySorted OrderedTypeEx.String_as_OT.lt acc ->
       StronglySorted OrderedTypeEx.String_as_OT.lt ids).
Proof.
  induction n as [| n IH]; intros pos acc Hn; cbn [ProcessIDList_loop];
    destruct (IsID tokens (Z.of_nat pos)) eqn:E.
  - apply IsID_in_range in E. lia.
  - exists acc, pos. repeat split; auto; try lia.
    + intros [H | (i & H1 & H2 & _)]; [exact H | lia].
  - destruct (IH (S pos) (set_insert (AsLexeme tokens (Z.of_nat pos)) acc))
      as (ids & close & Hr & Hle & Hids & Hend & Hin & Hs); [lia |].
    exists ids, close. rewrite Hr.
    split; [reflexivity |]. split; [lia |]. split; [| split; [exact Hend |]].
    + intros i Hi Hc. destruct (Nat.eq_dec i pos) as [-> | Hne]; auto.
      apply Hids; lia.
    + split.
      * intros s. rewrite Hin, set_insert_In. split.
        -- intros [[-> | H] | (i & H1 & H2 & H3)]; auto.
           ++ right. exists pos. repeat split; auto; lia.
           ++ right. exists i. repeat split; auto; lia.
        -- intros [H | (i & H1 & H2 & H3)]; auto.
           destruct (Nat.eq_dec i pos) as [-> | Hne]; auto.
           right. exists i. repeat split; auto; lia.
      * intros Hsorted. now apply Hs, set_insert_sorted.
  - exists acc, pos. repeat split; auto; try lia.
    + intros [H | (i & H1 & H2 & _)]; [exact H | lia].
Qed.

(** X8. From a cursor inside the tokens [ProcessIDList] never fails.  It
    takes the run of identifier tokens that starts at the cursor, be it
    empty, and stops inside the tokens on the first token that is not an
    identifier (or at the end of the input).  The set it returns holds
    exactly the lexemes of that run, in increasing order without
    repetition, whatever order and however often they were written. *)
Theorem ProcessIDList_collects_the_identifier_run :
  forall tokens pos,
    pos <= length tokens ->
    exists ids close,
      ProcessIDList tokens pos = Ok (ids, close) /\
      pos <= close /\ close <= length tokens /\
      (forall i, pos <= i -> i < close ->
                 IsID tokens (Z.of_nat i) = true) /\
      IsID tokens (Z.of_nat close) = false /\
      (forall s, In s ids <->
                 exists i, pos <= i /\ i < close /\
                           AsLexeme tokens (Z.of_nat i) = s) /\
      StronglySorted OrderedTypeEx.String_as_OT.lt ids /\
      NoDup ids.
Proof.
  intros tokens pos L. unfold ProcessIDList.
  destruct (ProcessIDList_loop_collects tokens (length tokens - pos) pos [])
    as (ids & close & Hr & Hle & Hids & Hend & Hin & Hs); [lia |].
  exists ids, close. specialize (Hs ltac:(constructor)).
  repeat split; auto.
  - destruct (Nat.eq_dec close pos) as [-> | Hne]; [exact L |].
    specialize (Hids (close - 1) ltac:(lia) ltac:(lia)).
    apply IsID_in_range in Hids. lia.
  - intros H. apply Hin in H as [[] | H]. exact H.
  - intros H. apply Hin. now right.
  - clear - Hs. induction Hs as [| y r Hs IH Hall]; constructor; auto.
    intros Hy. rewrite Forall_forall in Hall. specialize (Hall y Hy).
    apply (OrderedTypeEx.String_as_OT.lt_not_eq _ _ Hall). reflexivity.
Qed.

Lemma ProcessIDList_collects_the_identifier_run_witness :
  exists ids close,
    ProcessIDList [ID "const"; ID "override"; ID "const"; SYM "{"] 0
    = Ok (ids, close) /\
    0 <= close /\
    close <= length [ID "const"; ID "override"; ID "const"; SYM "{"] /\
    (forall i, 0 <= i -> i < close ->
               IsID [ID "const"; ID "override"; ID "const"; SYM "{"]
                 (Z.of_nat i) = true) /\
    IsID [ID "const"; ID "override"; ID "const"; SYM "{"] (Z.of_nat close)
    = false /\
    (forall s, In s ids <->
               exists i, 0 <= i /\ i < close /\
                         AsLexeme [ID "const"; ID "override"; ID "const";
                                   SYM "{"] (Z.of_nat i) = s) /\
    StronglySorted OrderedTypeEx.String_as_OT.lt ids /\
    NoDup ids.
Proof.
  apply (ProcessIDList_collects_the_identifier_run
           [ID "const"; ID "override"; ID "const"; SYM "{"] 0).
  simpl. lia.
Defined.

(** ** Every outcome stays inside the token vector *)

Section Bounded.

Variable tokens : list Token.

Local Abbreviation size := (length tokens).

Lemma bounded_bind {A B : Type} (cur1 : A -> nat) (cur2 : B -> nat)
    (m : Outcome A) (k : A -> Outcome B) :
  bounded size cur1 m ->
  (forall a, m = Ok a -> cur1 a <= size -> bounded size cur2 (k a)) ->
  bounded size cur2 (bind m k).
Proof. destruct m; simpl; auto. Qed.

Lemma RequireID_bounded (pos : nat) (msg : string) :
  pos <= size -> bounded size (fun _ : unit => 0) (RequireID tokens pos msg).
Proof.
  intros L. unfold RequireID.
  destruct (IsID tokens (Z.of_nat pos)); simpl; lia.
Qed.

Lemma RequireChar_bounded (c : ascii) (pos : nat) (msg : string) :
  pos <= size ->
  bounded size (fun _ : unit => 0) (RequireChar tokens c pos msg).
Proof.
  intros L. unfold RequireChar.
  destruct (Ascii.eqb (AsChar tokens (Z.of_nat pos)) c); simpl; lia.
Qed.

Lemma tokens_at_bounded (i : nat) :
  i <= size -> bounded size (fun _ : Token => 0) (tokens_at tokens i).
Proof.
  intros L. unfold tokens_at.
  destruct (nth_error tokens i) eqn:E; simpl; [lia |].
  apply nth_error_None in E. lia.
Qed.

Lemma ProcessCode_bounded (pos : nat) (mab ml : bool) :
  pos <= size ->
  bounded size (fun r : string * nat => snd r)
    (ProcessCode tokens pos mab ml).
Proof.
  intros L.
  destruct (ProcessCode_returns tokens pos mab ml) as (t & q & E & H1 & H2).
  rewrite E. simpl. lia.
Qed.

Lemma lexeme_eqb_in_range (pos : nat) (s : string) :
  s <> EmptyString ->
  pos <= size ->
  (if String.eqb (AsLexeme tokens (Z.of_nat pos)) s then S pos else pos)
  <= size.
Proof.
  intros Hs L. destruct (String.eqb _ s) eqn:E; [| exact L].
  apply lexeme_test_in_range in E; [| exact Hs]. lia.
Qed.

Lemma ProcessType_ids_bounded :
  forall n pos,
    pos <= size -> size - pos < n ->
    bounded size (fun p : nat => p) (ProcessType_ids tokens n pos).
Proof.
  induction n as [| n IH]; intros pos L Hn; [lia |].
  cbn [ProcessType_ids].
  set (p1 := if String.eqb (AsLexeme tokens (Z.of_nat pos)) "typename"
             then S pos else pos).
  set (p2 := if String.eqb (AsLexeme tokens (Z.of_nat p1)) "template"
             then S p1 else p1).
  assert (L1 : pos <= p1) by apply optional_step.
  assert (L2 : p1 <= p2) by apply optional_step.
  assert (B1 : p1 <= size) by (apply lexeme_eqb_in_range; [discriminate | lia]).
  assert (B2 : p2 <= size)
    by (apply lexeme_eqb_in_range; [discriminate | lia]).
  eapply bounded_bind; [now apply tokens_at_bounded |].
  intros t Ht _. apply tokens_at_Ok in Ht.
  assert (L3 : p2 < size) by (apply nth_error_Some; congruence).
  eapply bounded_bind; [now apply RequireID_bounded |].
  intros _ _ _.
  eapply bounded_bind with (cur1 := fun p : nat => p).
  - destruct (String.eqb _ "<") eqn:Elt; [| simpl; lia].
    apply lexeme_test_in_range in Elt; [| discriminate].
    eapply bounded_bind; [apply ProcessCode_bounded; lia |].
    intros [text q] Hq Hb. simpl in Hb.
    eapply bounded_bind; [now apply RequireChar_bounded |].
    intros u Hu _. simpl.
    apply RequireChar_in_range in Hu; [| discriminate]. lia.
  - intros p3 Hp3 B3.
    assert (L4 : S p2 <= p3).
    { destruct (String.eqb (AsLexeme tokens (Z.of_nat (S p2))) "<").
      - bind_ok Hp3 r Hr. destruct r as [text q]. bind_ok Hp3 u' Hu'.
        inversion Hp3; subst p3.
        destruct (ProcessCode_returns tokens (S (S p2)) true false)
          as (text' & q' & E & Hq & _).
        rewrite E in Hr. inversion Hr; subst. lia.
      - inversion Hp3; subst p3. lia. }
    destruct (String.eqb _ "::") eqn:Ec; [| simpl; lia].
    apply lexeme_test_in_range in Ec; [| discriminate].
    apply IH; lia.
Qed.

Lemma ProcessType_bounded (pos : nat) :
  pos <= size ->
  bounded size (fun r : string * nat => snd r) (ProcessType tokens pos).
Proof.
  intros L. unfold ProcessType.
  set (p0 := if String.eqb (AsLexeme tokens (Z.of_nat pos)) "const"
             then S pos else pos).
  assert (L0 : pos <= p0) by apply optional_step.
  assert (B0 : p0 <= size)
    by (apply lexeme_eqb_in_range; [discriminate | lia]).
  eapply bounded_bind;
    [apply ProcessType_ids_bounded; [exact B0 | lia] |].
  intros p1 Hp1 B1. cbv beta in B1.
  apply ProcessType_ids_advances in Hp1.
  set (p2 := if String.eqb (AsLexeme tokens (Z.of_nat p1)) "&"
             then S p1 else p1).
  set (p3 := if String.eqb (AsLexeme tokens (Z.of_nat p2)) "*"
             then S p2 else p2).
  assert (L2 : p1 <= p2) by apply optional_step.
  assert (L3 : p2 <= p3) by apply optional_step.
  assert (B2 : p2 <= size)
    by (apply lexeme_eqb_in_range; [discriminate | lia]).
  assert (B3 : p3 <= size)
    by (apply lexeme_eqb_in_range; [discriminate | lia]).
  rewrite ConcatLexemes_joined by (lia). simpl. exact B3.
Qed.

Lemma ProcessParams_loop_bounded :
  forall n pos ps,
    pos <= size -> size - pos < n ->
    bounded size (fun r : list ParamInfo * nat => snd r)
      (ProcessParams_loop tokens n pos ps).
Proof.
  induction n as [| n IH]; intros pos ps L Hn; [lia |].
  cbn [ProcessParams_loop].
  destruct (negb (Ascii.eqb (AsChar tokens (Z.of_nat pos)) ")"));
    [| simpl; exact L].
  eapply bounded_bind with (cur1 := fun p : nat => p).
  - destruct (negb (length ps =? 0)); [| simpl; exact L].
    eapply bounded_bind; [now apply RequireChar_bounded |].
    intros u Hu _. simpl.
    apply RequireChar_in_range in Hu; [| discriminate]. lia.
  - intros p1 Hp1 B1.
    assert (L1 : pos <= p1).
    { destruct (negb (length ps =? 0)).
      - bind_ok Hp1 u Hu. inversion Hp1; lia.
      - inversion Hp1; lia. }
    eapply bounded_bind; [now apply ProcessType_bounded |].
    intros [type_name p2] Hr B2. simpl in B2.
    apply ProcessType_advances in Hr.
    eapply bounded_bind with (cur1 := fun r : string * nat => snd r).
    + destruct (IsID tokens (Z.of_nat p2)) eqn:Eid; [| simpl; exact B2].
      apply IsID_in_range in Eid.
      eapply bounded_bind; [now apply tokens_at_bounded |].
      intros t _ _. simpl. lia.
    + intros [identifier p3] Hr' B3. simpl in B3.
      assert (L3 : p2 <= p3).
      { destruct (IsID tokens (Z.of_nat p2)).
        - bind_ok Hr' t Ht. inversion Hr'; lia.
        - inversion Hr'; lia. }
      apply IH; lia.
Qed.

Lemma ProcessParams_bounded (pos : nat) :
  pos <= size ->
  bounded size (fun r : list ParamInfo * nat => snd r)
    (ProcessParams tokens pos).
Proof.
  intros L. apply ProcessParams_loop_bounded; lia.
Qed.

Lemma ProcessIDList_bounded (pos : nat) :
  pos <= size ->
  bounded size (fun r : list string * nat => snd r)
    (ProcessIDList tokens pos).
Proof.
  intros L. unfold ProcessIDList.
  destruct (ProcessIDList_loop_collects tokens (length tokens - pos) pos [])
    as (ids & close & Hr & Hle & Hids & _); [lia |].
  rewrite Hr. simpl.
  destruct (Nat.eq_dec close pos) as [-> | Hne]; [exact L |].
  specialize (Hids (close - 1) ltac:(lia) ltac:(lia)).
  apply IsID_in_range in Hids. lia.
Qed.

Lemma ProcessConcept_function_end_bounded (pos : nat) (e : ElementInfo) :
  pos < size ->
  bounded size (fun r : ElementInfo * nat => snd r)
    (ProcessConcept_function_end tokens pos e).
Proof.
  intros L. unfold ProcessConcept_function_end.
  destruct (Ascii.eqb (AsChar tokens (Z.of_nat pos)) "=").
  - eapply bounded_bind; [apply RequireID_bounded; lia |].
    intros u Hu _. apply RequireID_Ok, IsID_in_range in Hu.
    eapply bounded_bind with (cur1 := fun _ : ElementInfo => 0).
    + destruct (String.eqb _ "required" || String.eqb _ "default");
        simpl; lia.
    + intros e' _ _.
      eapply bounded_bind; [apply RequireChar_bounded; lia |].
      intros u' Hu' _. simpl.
      apply RequireChar_in_range in Hu'; [| discriminate]. lia.
  - destruct (Ascii.eqb (AsChar tokens (Z.of_nat pos)) "{").
    + eapply bounded_bind; [apply ProcessCode_bounded; lia |].
      intros [text q] _ Hq. simpl in Hq.
      eapply bounded_bind; [now apply RequireChar_bounded |].
      intros u' Hu' _. simpl.
      apply RequireChar_in_range in Hu'; [| discriminate]. lia.
    + simpl. lia.
Qed.

Lemma ProcessConcept_member_bounded (pos : nat) (c : AST_Concept) :
  pos <= size ->
  bounded size (fun r : AST_Concept * nat => snd r)
    (ProcessConcept_member tokens pos c).
Proof.
  intros L. unfold ProcessConcept_member.
  eapply bounded_bind; [now apply RequireID_bounded |].
  intros u Hu _. apply RequireID_Ok, IsID_in_range in Hu.
  eapply bounded_bind; [now apply tokens_at_bounded |].
  intros t _ _. destruct (String.eqb (lexeme t) "using").
  - unfold ProcessConcept_using.
    eapply bounded_bind; [apply RequireID_bounded; lia |].
    intros _ _ _.
    eapply bounded_bind; [apply ProcessType_bounded; lia |].
    intros [text p2] _ B2. simpl in B2.
    eapply bounded_bind; [now apply RequireChar_bounded |].
    intros u' Hu' _.
    apply RequireChar_in_range in Hu'; [| discriminate].
    eapply bounded_bind; [apply ProcessCode_bounded; lia |].
    intros [text' p3] _ B3. exact B3.
  - eapply bounded_bind; [now apply ProcessType_bounded |].
    intros [text p1] _ B1. simpl in B1.
    eapply bounded_bind; [now apply RequireID_bounded |].
    intros u' Hu' _. apply RequireID_Ok, IsID_in_range in Hu'.
    eapply bounded_bind; [now apply tokens_at_bounded |].
    intros t' _ _.
    destruct (Ascii.eqb_spec (AsChar tokens (Z.of_nat (S p1))) "(")
      as [Ep | Ep].
    + assert (S p1 < size)
        by (apply AsChar_in_range; rewrite Ep; discriminate).
      unfold ProcessConcept_function.
      eapply bounded_bind; [apply ProcessParams_bounded; lia |].
      intros [ps p2] Hps B2. simpl in B2.
      apply ProcessParams_Ok in Hps as [_ Hclose].
      assert (p2 < size)
        by (apply AsChar_in_range; rewrite Hclose; discriminate).
      eapply bounded_bind; [now apply RequireChar_bounded |].
      intros _ _ _.
      eapply bounded_bind; [apply ProcessIDList_bounded; lia |].
      intros [ids p3] Hids B3. simpl in B3.
      destruct (Nat.eq_dec p3 size) as [-> | Hne].
      * unfold ProcessConcept_function_end.
        rewrite (AsChar_none tokens size (Nat.le_refl _)). simpl.
        lia.
      * eapply bounded_bind;
          [apply ProcessConcept_function_end_bounded; lia |].
        intros [e' p4] _ B4. exact B4.
    + unfold ProcessConcept_variable.
      eapply bounded_bind with
        (cur1 := fun r : ElementInfo * nat => snd r).
      * destruct (Ascii.eqb_spec (AsChar tokens (Z.of_nat (S p1))) ";")
          as [Es | Es].
        -- simpl.
           assert (S p1 < size)
             by (apply AsChar_in_range; rewrite Es; discriminate).
           lia.
        -- eapply bounded_bind;
             [apply ProcessCode_bounded; lia |].
           intros [text' q] _ Bq. exact Bq.
      * intros [e' p2] _ B2. exact B2.
Qed.

Lemma ProcessConcept_loop_bounded :
  forall n pos c,
    pos <= size -> size - pos < n ->
    bounded size (fun r : AST_Concept * nat => snd r)
      (ProcessConcept_loop tokens n pos c).
Proof.
  induction n as [| n IH]; intros pos c L Hn; [lia |].
  cbn [ProcessConcept_loop].
  destruct (negb (Ascii.eqb (AsChar tokens (Z.of_nat pos)) "}"));
    [| simpl; exact L].
  eapply bounded_bind; [now apply ProcessConcept_member_bounded |].
  intros [c1 p1] Hm B1. simpl in B1.
  apply ProcessConcept_member_Ok in Hm as (k & e & _ & _ & Hp & _).
  apply IH; lia.
Qed.

Lemma ProcessConcept_bounded (pos : nat) (scope : AST_Scope) :
  pos <= size ->
  bounded size (fun r : AST_Scope * nat => snd r)
    (ProcessConcept tokens pos scope).
Proof.
  intros L. unfold ProcessConcept.
  eapply bounded_bind with (cur1 := fun r : AST_Concept * nat => snd r).
  - unfold ProcessConcept_head.
    eapply bounded_bind; [now apply RequireID_bounded |].
    intros u1 Hu1 _. apply RequireID_Ok, IsID_in_range in Hu1.
    eapply bounded_bind; [now apply tokens_at_bounded |].
    intros t1 _ _.
    eapply bounded_bind; [apply RequireChar_bounded; lia |].
    intros u2 Hu2 _.
    apply RequireChar_in_range in Hu2; [| discriminate].
    eapply bounded_bind; [apply RequireID_bounded; lia |].
    intros u3 Hu3 _. apply RequireID_Ok, IsID_in_range in Hu3.
    eapply bounded_bind; [apply tokens_at_bounded; lia |].
    intros t2 _ _.
    eapply bounded_bind; [apply RequireChar_bounded; lia |].
    intros u4 Hu4 _.
    apply RequireChar_in_range in Hu4; [| discriminate].
    simpl. lia.
  - intros [c0 p0] _ B0. simpl in B0.
    eapply bounded_bind;
      [apply ProcessConcept_loop_bounded; [exact B0 | lia] |].
    intros [c1 p1] Hloop B1. simpl in B1.
    apply ProcessConcept_loop_members in Hloop as (ms & Hms & _).
    apply members_of_end in Hms.
    assert (p1 < size)
      by (apply AsChar_in_range; rewrite Hms; discriminate).
    eapply bounded_bind; [apply RequireChar_bounded; lia |].
    intros u Hu _.
    apply RequireChar_in_range in Hu; [| discriminate].
    simpl. lia.
Qed.

Lemma ProcessTop_bounded :
  forall n pos scope,
    pos <= size -> size - pos <= n ->
    bounded size (fun r : AST_Scope * nat => snd r)
      (ProcessTop tokens n pos scope).
Proof.
  induction n as [| n IH]; intros pos scope L Hn; cbn [ProcessTop].
  - destruct (Nat.ltb_spec pos (length tokens)) as [Hlt | Hge];
      [lia | simpl; exact L].
  - destruct (Nat.ltb_spec pos (length tokens)) as [Hlt | Hge];
      [| simpl; exact L].
    cbn [andb].
    destruct (negb (Ascii.eqb (AsChar tokens (Z.of_nat pos)) "}"));
      [| simpl; exact L].
    destruct (IsPP tokens (Z.of_nat pos)); [apply IH; lia |].
    eapply bounded_bind; [now apply RequireID_bounded |].
    intros _ _ _.
    eapply bounded_bind with (cur1 := fun r : AST_Scope * nat => snd r).
    2:{ intros [s1 p1] Hr B1. simpl in B1.
        apply IH; [exact B1 |].
        enough (pos < p1) by lia.
        destruct (String.eqb (AsLexeme tokens (Z.of_nat pos)) "concept").
        { apply ProcessConcept_advances in Hr. lia. }
        destruct (String.eqb (AsLexeme tokens (Z.of_nat pos)) "struct"
                  || String.eqb (AsLexeme tokens (Z.of_nat pos)) "class").
        { destruct (IsID tokens (Z.of_nat (S pos)));
            bind_ok Hr u1 Hu1; bind_ok Hr r' Hr'; destruct r' as [body q];
            bind_ok Hr u2 Hu2; bind_ok Hr u3 Hu3; inversion Hr; subst;
            match type of Hr' with
            | ProcessCode _ ?p _ _ = _ =>
                destruct (ProcessCode_returns tokens p false true)
                  as (t' & q' & E & Hq & _)
            end; rewrite E in Hr'; inversion Hr'; subst; lia. }
        destruct (String.eqb (AsLexeme tokens (Z.of_nat pos)) "namespace").
        { destruct (IsID tokens (Z.of_nat (S pos)));
            bind_ok Hr u1 Hu1; bind_ok Hr r' Hr'; destruct r' as [ns q];
            bind_ok Hr u2 Hu2; inversion Hr; subst;
            apply ProcessTop_advances in Hr'; lia. }
        destruct (String.eqb (AsLexeme tokens (Z.of_nat pos)) "using");
          [| discriminate].
        bind_ok Hr u1 Hu1. bind_ok Hr r' Hr'. destruct r' as [name q].
        bind_ok Hr u2 Hu2. bind_ok Hr r'' Hr''. destruct r'' as [type q2].
        inversion Hr; subst.
        apply ProcessType_advances in Hr'.
        destruct (ProcessCode_returns tokens (S q) false false)
          as (t' & q' & E & Hq & _).
        rewrite E in Hr''. inversion Hr''; subst. lia. }
    destruct (String.eqb (AsLexeme tokens (Z.of_nat pos)) "concept").
    { apply ProcessConcept_bounded. lia. }
    destruct (String.eqb (AsLexeme tokens (Z.of_nat pos)) "struct"
              || String.eqb (AsLexeme tokens (Z.of_nat pos)) "class").
    { destruct (IsID tokens (Z.of_nat (S pos))) eqn:Eid;
        [apply IsID_in_range in Eid |];
        (eapply bounded_bind; [apply RequireChar_bounded; lia |]);
        intros u1 Hu1 _;
        (apply RequireChar_in_range in Hu1; [| discriminate]);
        (eapply bounded_bind; [apply ProcessCode_bounded; lia |]);
        intros [body q] _ Bq; simpl in Bq;
        (eapply bounded_bind; [now apply RequireChar_bounded |]);
        intros u2 Hu2 _;
        (apply RequireChar_in_range in Hu2; [| discriminate]);
        (eapply bounded_bind; [apply RequireChar_bounded; lia |]);
        intros u3 Hu3 _;
        (apply RequireChar_in_range in Hu3; [| discriminate]); simpl; lia. }
    destruct (String.eqb (AsLexeme tokens (Z.of_nat pos)) "namespace").
    { destruct (IsID tokens (Z.of_nat (S pos))) eqn:Eid;
        [apply IsID_in_range in Eid |];
        (eapply bounded_bind; [apply RequireChar_bounded; lia |]);
        intros u1 Hu1 _;
        (apply RequireChar_in_range in Hu1; [| discriminate]);
        (eapply bounded_bind; [apply IH; lia |]);
        intros [ns q] _ Bq; simpl in Bq;
        (eapply bounded_bind; [now apply RequireChar_bounded |]);
        intros u2 Hu2 _;
        (apply RequireChar_in_range in Hu2; [| discriminate]); simpl; lia. }
    destruct (String.eqb (AsLexeme tokens (Z.of_nat pos)) "using").
    { eapply bounded_bind; [apply RequireID_bounded; lia |].
      intros _ _ _.
      eapply bounded_bind; [apply ProcessType_bounded; lia |].
      intros [name q] _ Bq. simpl in Bq.
      eapply bounded_bind; [now apply RequireChar_bounded |].
      intros u2 Hu2 _.
      apply RequireChar_in_range in Hu2; [| discriminate].
      eapply bounded_bind; [apply ProcessCode_bounded; lia |].
      intros [type q2] _ Bq2. exact Bq2. }
    simpl. lia.
Qed.

End Bounded.

(** X9. From a cursor inside the tokens no scanner leaves the token vector:
    a normal return has its cursor at most at the end, a diagnostic names a
    position at most the number of tokens (that number standing for the end
    of the input), and the only read outside the vector is the one exactly
    one past the last token.  This holds for [ProcessType],
    [ProcessParams], [ProcessConcept], [ProcessTop] and the run as a
    whole, and with it the loops of the model always have passes left. *)
Theorem scanner_outcomes_stay_in_bounds :
  forall tokens pos,
    pos <= length tokens ->
    bounded (length tokens) (fun r => snd r) (ProcessType tokens pos) /\
    bounded (length tokens) (fun r => snd r) (ProcessParams tokens pos) /\
    (forall scope,
        bounded (length tokens) (fun r => snd r)
          (ProcessConcept tokens pos scope)) /\
    (forall scope,
        bounded (length tokens) (fun r => snd r)
          (ProcessTop tokens (length tokens - pos) pos scope)) /\
    bounded (length tokens) (fun _ => 0) (Process tokens pos).
Proof.
  intros tokens pos L.
  split; [now apply ProcessType_bounded |].
  split; [now apply ProcessParams_bounded |].
  split; [intros scope; now apply ProcessConcept_bounded |].
  split; [intros scope; apply ProcessTop_bounded; lia |].
  unfold Process.
  eapply bounded_bind; [apply ProcessTop_bounded; lia |].
  intros [root p] _ _. simpl. lia.
Qed.

Lemma scanner_outcomes_stay_in_bounds_witness :
  bounded (length deleted_function_tokens) (fun r => snd r)
    (ProcessType deleted_function_tokens 5) /\
  bounded (length deleted_function_tokens) (fun r => snd r)
    (ProcessParams deleted_function_tokens 5) /\
  (forall scope,
      bounded (length deleted_function_tokens) (fun r => snd r)
        (ProcessConcept deleted_function_tokens 5 scope)) /\
  (forall scope,
      bounded (length deleted_function_tokens) (fun r => snd r)
        (ProcessTop deleted_function_tokens
           (length deleted_function_tokens - 5) 5 scope)) /\
  bounded (length deleted_function_tokens) (fun _ => 0)
    (Process deleted_function_tokens 5).
Proof.
  apply (scanner_outcomes_stay_in_bounds deleted_function_tokens 5).
  simpl. lia.
Defined.

(** ** ProcessTop: what it does to the scope *)

Section TopScope.

Variable tokens : list Token.

Lemma extend_extend (s1 s2 : AST_Scope) (o : Outcome (AST_Scope * nat)) :
  extend s1 (extend s2 o) = extend (s1 ++ s2) o.
Proof. destruct o as [[added p] | | |]; simpl; now rewrite ?app_assoc. Qed.

Lemma extend_bind {A : Type} (scope : AST_Scope) (m : Outcome A)
    (k : A -> Outcome (AST_Scope * nat)) :
  extend scope (bind m k) = bind m (fun a => extend scope (k a)).
Proof. now destruct m. Qed.

Lemma ProcessConcept_extend (pos : nat) (scope : AST_Scope) :
  ProcessConcept tokens pos scope
  = extend scope (ProcessConcept tokens pos []).
Proof.
  unfold ProcessConcept.
  destruct (ProcessConcept_head tokens pos) as [[c0 p0] | | |];
    cbn [bind extend]; try reflexivity.
  destruct (ProcessConcept_loop tokens _ p0 c0) as [[c1 p1] | | |];
    cbn [bind extend]; try reflexivity.
  destruct (RequireChar tokens ";" (S p1) _); reflexivity.
Qed.

(** The nodes of a statement go after the children the scope has, and what
    is left of the input is parsed into the scope so extended. *)
Lemma ProcessTop_extend :
  forall n pos scope,
    ProcessTop tokens n pos scope = extend scope (ProcessTop tokens n pos []).
Proof.
  induction n as [| n IH]; intros pos scope; cbn [ProcessTop];
    destruct ((pos <? length tokens)
              && negb (Ascii.eqb (AsChar tokens (Z.of_nat pos)) "}"));
    try reflexivity; try (simpl; now rewrite app_nil_r).
  assert (Hrest : forall p node,
             ProcessTop tokens n p (scope ++ [node])
             = extend scope (ProcessTop tokens n p ([] ++ [node]))).
  { intros p node. rewrite IH, (IH p ([] ++ [node])).
    now rewrite extend_extend. }
  destruct (IsPP tokens (Z.of_nat pos)); [apply Hrest |].
  destruct (RequireID tokens pos _); cbn [bind extend]; try reflexivity.
  destruct (String.eqb (AsLexeme tokens (Z.of_nat pos)) "concept").
  { rewrite ProcessConcept_extend.
    destruct (ProcessConcept tokens (S pos) []) as [[added p] | | |];
      cbn [bind extend]; try reflexivity.
    rewrite IH, (IH p added). now rewrite extend_extend. }
  destruct (String.eqb (AsLexeme tokens (Z.of_nat pos)) "struct"
            || String.eqb (AsLexeme tokens (Z.of_nat pos)) "class").
  { destruct (IsID tokens (Z.of_nat (S pos)));
      (destruct (RequireChar tokens "{" _ _); cbn [bind extend];
       try reflexivity);
      (destruct (ProcessCode tokens _ false true) as [[body q] | | |];
       cbn [bind extend]; try reflexivity);
      (destruct (RequireChar tokens "}" _ _); cbn [bind extend];
       try reflexivity);
      (destruct (RequireChar tokens ";" _ _); cbn [bind extend];
       try reflexivity);
      apply Hrest. }
  destruct (String.eqb (AsLexeme tokens (Z.of_nat pos)) "namespace").
  { destruct (IsID tokens (Z.of_nat (S pos)));
      (destruct (RequireChar tokens "{" _ _); cbn [bind extend];
       try reflexivity);
      (destruct (ProcessTop tokens n _ []) as [[ns q] | | |];
       cbn [bind extend]; try reflexivity);
      (destruct (RequireChar tokens "}" _ _); cbn [bind extend];
       try reflexivity);
      apply Hrest. }
  destruct (String.eqb (AsLexeme tokens (Z.of_nat pos)) "using");
    [| reflexivity].
  destruct (RequireID tokens (S pos) _); cbn [bind extend]; try reflexivity.
  destruct (ProcessType tokens (S pos)) as [[name q] | | |];
    cbn [bind extend]; try reflexivity.
  destruct (RequireChar tokens "=" _ _); cbn [bind extend]; try reflexivity.
  destruct (ProcessCode tokens _ false false) as [[type q2] | | |];
    cbn [bind extend]; try reflexivity.
  apply Hrest.
Qed.

Lemma ProcessTop_stops_at_end_or_brace :
  forall n pos scope scope' pos',
    ProcessTop tokens n pos scope = Ok (scope', pos') ->
    length tokens <= pos' \/ AsChar tokens (Z.of_nat pos') = "}"%char.
Proof.
  induction n as [| n IH]; intros pos scope scope' pos' H;
    cbn [ProcessTop] in H;
    destruct (Nat.ltb_spec pos (length tokens)) as [L | L];
    cbn [andb] in H;
    try (inversion H; subst; now left);
    destruct (Ascii.eqb_spec (AsChar tokens (Z.of_nat pos)) "}") as [E | E];
    cbn [negb] in H;
    try discriminate; try (inversion H; subst; now right).
  destruct (IsPP tokens (Z.of_nat pos)); [now apply IH in H |].
  bind_ok H u Hu. bind_ok H r Hr. destruct r as [s1 p1].
  now apply IH in H.
Qed.

End TopScope.

(** X10. [ProcessTop] only appends to the scope it is given: its outcome on
    a scope with children is its outcome on the empty scope with the new
    nodes put after the old ones, so the children already there are neither
    read nor changed and errors do not depend on them.  When it returns the
    cursor has not moved back and stands at the end of the input or on a
    closing brace, which it leaves in place: at the outermost level such a
    brace ends the parse without an error and the tokens after it are not
    looked at. *)
Theorem ProcessTop_only_appends :
  forall tokens n pos scope,
    ProcessTop tokens n pos scope
    = extend scope (ProcessTop tokens n pos []) /\
    (forall scope' pos',
        ProcessTop tokens n pos scope = Ok (scope', pos') ->
        pos <= pos' /\
        (length tokens <= pos' \/
         AsChar tokens (Z.of_nat pos') = "}"%char) /\
        exists added,
          scope' = scope ++ added /\
          ProcessTop tokens n pos [] = Ok (added, pos')) /\
    (AsChar tokens (Z.of_nat pos) = "}"%char ->
     ProcessTop tokens n pos scope = Ok (scope, pos)).
Proof.
  intros tokens n pos scope. split; [apply ProcessTop_extend |]. split.
  - intros scope' pos' H.
    split; [now apply ProcessTop_advances in H |].
    split; [now apply ProcessTop_stops_at_end_or_brace in H |].
    rewrite ProcessTop_extend in H.
    destruct (ProcessTop tokens n pos []) as [[added p] | | |];
      try discriminate.
    simpl in H. inversion H; subst. now exists added.
  - intros E. destruct n; cbn [ProcessTop]; rewrite E;
      now rewrite andb_false_r.
Qed.

Lemma ProcessTop_only_appends_witness :
  ProcessTop (SYM "}" :: fitness_tokens) 18 0 [AST_PP "#pragma once"]
  = Ok ([AST_PP "#pragma once"], 0).
Proof.
  apply (proj2 (proj2 (ProcessTop_only_appends (SYM "}" :: fitness_tokens)
                         18 0 [AST_PP "#pragma once"]))).
  reflexivity.
Defined.

(** ** ProcessTop: preprocessor lines and statements it does not know *)

Lemma IsPP_some (tokens : list Token) (pos : nat) :
  IsPP tokens (Z.of_nat pos) = true ->
  exists t, nth_error tokens pos = Some t /\ kind t = Preprocessor.
Proof.
  unfold IsPP, guarded. rewrite HasToken_nat, guarded_token_nat. intros H.
  apply andb_true_iff in H as [_ H].
  destruct (nth_error tokens pos) as [t |]; [| discriminate].
  exists t. split; auto. unfold lexer_IsPP in H. now destruct (kind t).
Qed.

Lemma IsPP_of_kind (tokens : list Token) (pos : nat) (t : Token) :
  nth_error tokens pos = Some t -> kind t = Preprocessor ->
  IsPP tokens (Z.of_nat pos) = true.
Proof.
  intros E K. unfold IsPP, guarded.
  rewrite HasToken_nat, guarded_token_nat, E.
  assert (L : pos < length tokens) by (apply nth_error_Some; congruence).
  apply Nat.ltb_lt in L. rewrite L. unfold lexer_IsPP. now rewrite K.
Qed.

Lemma ProcessTop_preprocessor_run (tokens : list Token) :
  forall k n pos scope,
    (forall i, pos <= i -> i < pos + k ->
               IsPP tokens (Z.of_nat i) = true) ->
    k <= n ->
    ProcessTop tokens n pos scope
    = ProcessTop tokens (n - k) (pos + k)
        (scope ++ map (fun t => AST_PP (lexeme t ++ newline)%string)
                    (firstn k (skipn pos tokens))).
Proof.
  induction k as [| k IH]; intros n pos scope Hpp Hn.
  - simpl. now rewrite Nat.sub_0_r, Nat.add_0_r, app_nil_r.
  - destruct n as [| n]; [lia |].
    pose proof (Hpp pos ltac:(lia) ltac:(lia)) as Hp.
    destruct (IsPP_some _ _ Hp) as (t & E & K).
    assert (L : pos < length tokens) by (apply nth_error_Some; congruence).
    cbn [ProcessTop]. apply Nat.ltb_lt in L. rewrite L, Hp.
    rewrite (AsChar_some _ _ _ E), (AsLexeme_some _ _ _ E).
    unfold token_char, lexer_IsSymbol. rewrite K.
    cbn [Ascii.eqb Bool.eqb negb andb].
    rewrite (IH n (S pos)); [| intros i H1 H2; apply Hpp; lia | lia].
    rewrite (skipn_nth_error _ _ _ E). cbn [firstn map].
    rewrite <- app_assoc. cbn [app Nat.sub].
    now replace (pos + S k) with (S pos + k) by lia.
Qed.

(** X11. Preprocessor tokens at the start of a scope are passed through in
    order, one node each holding the lexeme and a newline, and the parse
    goes on behind them with those nodes in front of whatever follows.  An
    input of preprocessor tokens only is parsed, from token 0, into exactly
    that list of nodes. *)
Theorem ProcessTop_passes_preprocessor_lines_through :
  (forall tokens k,
      k <= length tokens ->
      (forall i, i < k -> IsPP tokens (Z.of_nat i) = true) ->
      ProcessTop tokens (length tokens) 0 []
      = extend (map (fun t => AST_PP (lexeme t ++ newline)%string)
                  (firstn k tokens))
          (ProcessTop tokens (length tokens - k) k [])) /\
  (forall tokens,
      Forall (fun t => kind t = Preprocessor) tokens ->
      Process tokens 0
      = Ok (map (fun t => AST_PP (lexeme t ++ newline)%string) tokens)).
Proof.
  split.
  - intros tokens k Hk Hpp.
    rewrite (ProcessTop_preprocessor_run tokens k (length tokens) 0 []);
      [| intros i _ Hi; apply Hpp; lia | exact Hk].
    simpl. now rewrite ProcessTop_extend.
  - intros tokens Hall. unfold Process. rewrite Nat.sub_0_r.
    rewrite (ProcessTop_preprocessor_run tokens (length tokens)
               (length tokens) 0 []); [| | lia].
    + rewrite Nat.sub_diag. simpl. rewrite firstn_all.
      now rewrite Nat.ltb_irrefl.
    + intros i _ Hi. simpl in Hi.
      destruct (tokens_at_some tokens i Hi) as (t & E & _).
      apply (IsPP_of_kind _ _ _ E).
      rewrite Forall_forall in Hall. apply Hall.
      eapply nth_error_In; eassumption.
Qed.

Lemma ProcessTop_passes_preprocessor_lines_through_witness :
  Process [mkToken Preprocessor "#include <string>";
           mkToken Preprocessor "#define N 3"] 0
  = Ok (map (fun t => AST_PP (lexeme t ++ newline)%string)
          [mkToken Preprocessor "#include <string>";
           mkToken Preprocessor "#define N 3"]).
Proof.
  apply (proj2 ProcessTop_passes_preprocessor_lines_through).
  repeat constructor.
Defined.

(** X12. A statement of the outer scope that does not start with a
    preprocessor token must start with an identifier, and that identifier
    must be one of [concept], [struct], [class], [namespace] and [using]:
    any other first token is the fatal error "Statements in outer scope
    must begin with an identifier or keyword" and any other identifier
    ([template], [enum], a type that starts a function or a variable, ...)
    is the fatal error "Unknown keyword", both at the position of that
    token and with its lexeme in the message. *)
Theorem ProcessTop_rejects_what_it_does_not_know :
  forall tokens n pos scope,
    pos < length tokens ->
    AsChar tokens (Z.of_nat pos) <> "}"%char ->
    (IsPP tokens (Z.of_nat pos) = false ->
     IsID tokens (Z.of_nat pos) = false ->
     ProcessTop tokens (S n) pos scope
     = Fatal pos
         ("Statements in outer scope must begin with an identifier or keyword.  (Found: "
            ++ AsLexeme tokens (Z.of_nat pos) ++ ").")%string) /\
    (IsID tokens (Z.of_nat pos) = true ->
     ~ In (AsLexeme tokens (Z.of_nat pos))
         ["concept"; "struct"; "class"; "namespace"; "using"] ->
     ProcessTop tokens (S n) pos scope
     = Fatal pos
         ("Unknown keyword '" ++ AsLexeme tokens (Z.of_nat pos)
            ++ "'.  Aborting.")%string).
Proof.
  intros tokens n pos scope L Hb.
  apply Nat.ltb_lt in L. apply Ascii.eqb_neq in Hb.
  split.
  - intros Hpp Hid. cbn [ProcessTop]. rewrite L, Hb, Hpp. cbn [negb andb].
    now rewrite RequireID_fail.
  - intros Hid Hkw.
    assert (Hpp : IsPP tokens (Z.of_nat pos) = false).
    { destruct (IsID_some _ _ Hid) as (t & E & K).
      destruct (IsPP tokens (Z.of_nat pos)) eqn:Epp; [| reflexivity].
      destruct (IsPP_some _ _ Epp) as (t' & E' & K'). congruence. }
    cbn [ProcessTop]. rewrite L, Hb, Hpp. cbn [negb andb].
    rewrite RequireID_pass by assumption. cbn [bind].
    simpl in Hkw.
    repeat match goal with
           | |- context [String.eqb (AsLexeme tokens (Z.of_nat pos)) ?k] =>
               destruct (String.eqb_spec (AsLexeme tokens (Z.of_nat pos)) k)
                 as [Ek | _]; [exfalso; apply Hkw; rewrite Ek; tauto |]
           end.
    cbn [orb]. unfold Error. cbn [bind]. f_equal. lia.
Qed.

Lemma ProcessTop_rejects_what_it_does_not_know_witness :
  ProcessTop [ID "template"; SYM "<"; SYM ">"] 1 0 []
  = Fatal 0 ("Unknown keyword '"
               ++ AsLexeme [ID "template"; SYM "<"; SYM ">"] (Z.of_nat 0)
               ++ "'.  Aborting.")%string.
Proof.
  apply (proj2 (ProcessTop_rejects_what_it_does_not_know
                  [ID "template"; SYM "<"; SYM ">"] 0 0 []
                  ltac:(simpl; lia) ltac:(discriminate))).
  - reflexivity.
  - simpl. intros [H | [H | [H | [H | [H | []]]]]]; discriminate.
Defined.

(** ** ProcessConcept: the shape of a concept *)

(** X13. From a cursor inside the tokens [ProcessConcept] returns only on
    tokens of the shape [Name : Base { ... } ;] with [Name] and [Base]
    identifiers: it adds one concept node whose [name] and [base_name] are
    the lexemes of those two identifiers, consumes at least these six
    tokens, the last two of them the closing brace and the [;], and stays
    inside the input.  Each piece of the head that is missing is a fatal
    error at the position where it was expected, the first missing piece
    winning, and with an empty body the three collections are empty. *)
Theorem ProcessConcept_needs_name_colon_base_brace :
  forall tokens pos scope,
    pos <= length tokens ->
    (forall scope' pos',
        ProcessConcept tokens pos scope = Ok (scope', pos') ->
        exists name base c,
          nth_error tokens pos = Some (mkToken Identifier name) /\
          AsChar tokens (Z.of_nat (pos + 1)) = ":"%char /\
          nth_error tokens (pos + 2) = Some (mkToken Identifier base) /\
          AsChar tokens (Z.of_nat (pos + 3)) = "{"%char /\
          scope' = scope ++ [Concept c] /\
          c_name c = name /\ base_name c = base /\
          pos + 6 <= pos' /\ pos' <= length tokens /\
          AsChar tokens (Z.of_nat (pos' - 2)) = "}"%char /\
          AsChar tokens (Z.of_nat (pos' - 1)) = ";"%char) /\
    (IsID tokens (Z.of_nat pos) = false ->
     ProcessConcept tokens pos scope
     = Fatal pos "Concept declaration must be followed by name identifier.") /\
    (IsID tokens (Z.of_nat pos) = true ->
     AsChar tokens (Z.of_nat (S pos)) <> ":"%char ->
     ProcessConcept tokens pos scope
     = Fatal (S pos) "Concept names must be followed by a colon (':').") /\
    (IsID tokens (Z.of_nat pos) = true ->
     AsChar tokens (Z.of_nat (S pos)) = ":"%char ->
     IsID tokens (Z.of_nat (S (S pos))) = false ->
     ProcessConcept tokens pos scope
     = Fatal (S (S pos))
         "Concept declaration must include name of base class.") /\
    (IsID tokens (Z.of_nat pos) = true ->
     AsChar tokens (Z.of_nat (S pos)) = ":"%char ->
     IsID tokens (Z.of_nat (S (S pos))) = true ->
     AsChar tokens (Z.of_nat (S (S (S pos)))) <> "{"%char ->
     ProcessConcept tokens pos scope
     = Fatal (S (S (S pos)))
         "Concepts must be defined in braces ('{' and '}').") /\
    (IsID tokens (Z.of_nat pos) = true ->
     AsChar tokens (Z.of_nat (S pos)) = ":"%char ->
     IsID tokens (Z.of_nat (S (S pos))) = true ->
     AsChar tokens (Z.of_nat (S (S (S pos)))) = "{"%char ->
     AsChar tokens (Z.of_nat (pos + 4)) = "}"%char ->
     AsChar tokens (Z.of_nat (pos + 5)) = ";"%char ->
     ProcessConcept tokens pos scope
     = Ok (scope
             ++ [Concept
                   (mkConcept (AsLexeme tokens (Z.of_nat pos))
                      (AsLexeme tokens (Z.of_nat (S (S pos)))) [] [] [])],
           pos + 6)).
Proof.
  intros tokens pos scope Hin.
  assert (Htok : forall p, IsID tokens (Z.of_nat p) = true ->
                           exists t, tokens_at tokens p = Ok t /\
                                     nth_error tokens p = Some t /\
                                     kind t = Identifier /\
                                     AsLexeme tokens (Z.of_nat p) = lexeme t).
  { intros p H. destruct (IsID_some _ _ H) as (t & E & K).
    exists t. unfold tokens_at. rewrite E.
    repeat split; auto. now apply AsLexeme_some. }
  split; [| repeat split].
  - intros scope' pos' H.
    pose proof (ProcessConcept_bounded tokens pos scope) as Hb.
    pose proof H as H0.
    unfold ProcessConcept in H.
    bind_ok H r Hr. destruct r as [c0 p0].
    bind_ok H r' Hr'. destruct r' as [c1 p1].
    bind_ok H u Hu. inversion H; subst. clear H.
    apply ProcessConcept_loop_members in Hr'
      as (ms & Hms & _ & _ & _ & Hn & Hbn).
    pose proof (members_of_end _ _ _ _ Hms) as Hbrace.
    pose proof (RequireChar_Ok _ _ _ _ _ Hu) as Hsemi.
    apply members_of_sorted in Hms as (Hle & _).
    unfold ProcessConcept_head in Hr.
    bind_ok Hr u1 Hu1. bind_ok Hr t1 Ht1. bind_ok Hr u2 Hu2.
    bind_ok Hr u3 Hu3. bind_ok Hr t2 Ht2. bind_ok Hr u4 Hu4.
    inversion Hr; subst. clear Hr.
    apply RequireID_Ok in Hu1, Hu3. apply RequireChar_Ok in Hu2, Hu4.
    destruct (IsID_some _ _ Hu1) as (t1' & E1 & K1).
    destruct (IsID_some _ _ Hu3) as (t2' & E2 & K2).
    apply tokens_at_Ok in Ht1, Ht2.
    assert (t1' = t1) by congruence. assert (t2' = t2) by congruence.
    subst t1' t2'.
    exists (lexeme t1), (lexeme t2), c1.
    replace (pos + 1) with (S pos) by lia.
    replace (pos + 2) with (S (S pos)) by lia.
    replace (pos + 3) with (S (S (S pos))) by lia.
    assert (Hpos : pos <= length tokens).
    { apply IsID_in_range in Hu1. lia. }
    specialize (Hb Hpos). rewrite H0 in Hb. simpl in Hb.
    replace (S (S p1) - 2) with p1 by lia.
    replace (S (S p1) - 1) with (S p1) by lia.
    destruct t1 as [k1 l1], t2 as [k2 l2]. simpl in *. subst k1 k2.
    repeat split; auto; lia.
  - intros H. unfold ProcessConcept, ProcessConcept_head.
    now rewrite RequireID_fail.
  - intros H1 H2. unfold ProcessConcept, ProcessConcept_head.
    destruct (Htok _ H1) as (t1 & Et1 & _).
    rewrite RequireID_pass, Et1 by assumption. cbn [bind].
    unfold RequireChar. apply Ascii.eqb_neq in H2. now rewrite H2.
  - intros H1 H2 H3. unfold ProcessConcept, ProcessConcept_head.
    destruct (Htok _ H1) as (t1 & Et1 & _).
    rewrite RequireID_pass, Et1 by assumption. cbn [bind].
    rewrite RequireChar_pass by assumption. cbn [bind].
    now rewrite RequireID_fail.
  - intros H1 H2 H3 H4. unfold ProcessConcept, ProcessConcept_head.
    destruct (Htok _ H1) as (t1 & Et1 & _).
    destruct (Htok _ H3) as (t2 & Et2 & _).
    rewrite RequireID_pass, Et1 by assumption. cbn [bind].
    rewrite RequireChar_pass by assumption. cbn [bind].
    rewrite RequireID_pass, Et2 by assumption. cbn [bind].
    unfold RequireChar. apply Ascii.eqb_neq in H4. now rewrite H4.
  - intros H1 H2 H3 H4 H5 H6. unfold ProcessConcept, ProcessConcept_head.
    destruct (Htok _ H1) as (t1 & Et1 & _ & _ & El1).
    destruct (Htok _ H3) as (t2 & Et2 & _ & _ & El2).
    rewrite RequireID_pass, Et1 by assumption. cbn [bind].
    rewrite RequireChar_pass by assumption. cbn [bind].
    rewrite RequireID_pass, Et2 by assumption. cbn [bind].
    rewrite RequireChar_pass by assumption. cbn [bind].
    replace (pos + 4) with (S (S (S (S pos)))) in H5 by lia.
    replace (pos + 5) with (S (S (S (S (S pos))))) in H6 by lia.
    cbn [ProcessConcept_loop]. rewrite H5. cbn [Ascii.eqb Bool.eqb negb].
    cbn [bind]. rewrite RequireChar_pass by assumption. cbn [bind].
    rewrite El1, El2. cbn [c_name base_name typedefs variables functions
                            new_Concept].
    repeat f_equal. lia.
Qed.

Lemma ProcessConcept_needs_name_colon_base_brace_witness :
  exists name base c,
    nth_error fitness_tokens 1 = Some (mkToken Identifier name) /\
    AsChar fitness_tokens (Z.of_nat (1 + 1)) = ":"%char /\
    nth_error fitness_tokens (1 + 2) = Some (mkToken Identifier base) /\
    AsChar fitness_tokens (Z.of_nat (1 + 3)) = "{"%char /\
    [Concept
       (mkConcept "Fitness" "Base" []
          [mkElementInfo "int" "age" [] [] EmptyString EmptyString]
          [mkElementInfo "double" "GetFitness" [] [] EmptyString "required"])]
    = [] ++ [Concept c] /\
    c_name c = name /\ base_name c = base /\
    1 + 6 <= 17 /\ 17 <= length fitness_tokens /\
    AsChar fitness_tokens (Z.of_nat (17 - 2)) = "}"%char /\
    AsChar fitness_tokens (Z.of_nat (17 - 1)) = ";"%char.
Proof.
  apply (proj1 (ProcessConcept_needs_name_colon_base_brace
                  fitness_tokens 1 [] ltac:(simpl; lia))).
  reflexivity.
Defined.

(** ** Variable and alias members *)

Lemma ProcessCode_returns_joined (tokens : list Token) (pos : nat)
    (mab ml : bool) :
  pos <= length tokens ->
  exists q,
    ProcessCode tokens pos mab ml = Ok (joined tokens pos q, q) /\
    pos <= q /\ q <= length tokens.
Proof.
  intros L. rewrite ProcessCode_scan by assumption.
  pose proof (scan_le mab ml (chars_from tokens pos) 0) as Hle.
  rewrite chars_from_length in Hle.
  eexists. split; [reflexivity | lia].
Qed.

(** X14. In a concept body, once a type and a name are read and no open
    parenthesis follows, the member is always taken as a variable and never
    an error.  If a [;] comes next it is consumed and there is no default;
    otherwise [default_code] is everything [ProcessCode] collects from the
    token right after the name, the assignment sign included, through the
    terminating [;] if there is one: the scan may also end in front of a
    closing bracket or at the end of the input, so the [;] is not required.
    A [using] member is recorded the same way once its name and the [=] are
    read: [type] is the text from after the [=] through the [;], if any. *)
Theorem variable_and_alias_members_take_the_rest_of_the_statement :
  forall tokens pos,
    IsID tokens (Z.of_nat pos) = true ->
    (forall ty p1,
        AsLexeme tokens (Z.of_nat pos) <> "using" ->
        ProcessType tokens pos = Ok (ty, p1) ->
        IsID tokens (Z.of_nat p1) = true ->
        AsChar tokens (Z.of_nat (S p1)) <> "("%char ->
        exists q,
          S p1 <= q /\ q <= length tokens /\
          member_at tokens pos IsVariable
            (mkElementInfo ty (AsLexeme tokens (Z.of_nat p1)) [] []
               (if Ascii.eqb (AsChar tokens (Z.of_nat (S p1))) ";"
                then EmptyString else joined tokens (S p1) q)
               EmptyString) q /\
          (AsChar tokens (Z.of_nat (S p1)) = ";"%char -> q = S (S p1)) /\
          (AsChar tokens (Z.of_nat (S p1)) <> ";"%char ->
           ProcessCode tokens (S p1) false false
           = Ok (joined tokens (S p1) q, q))) /\
    (forall nm p1,
        AsLexeme tokens (Z.of_nat pos) = "using" ->
        IsID tokens (Z.of_nat (S pos)) = true ->
        ProcessType tokens (S pos) = Ok (nm, p1) ->
        AsChar tokens (Z.of_nat p1) = "="%char ->
        exists q,
          S p1 <= q /\ q <= length tokens /\
          member_at tokens pos IsTypedef
            (mkElementInfo (joined tokens (S p1) q) nm [] []
               EmptyString EmptyString) q /\
          ProcessCode tokens (S p1) false false
          = Ok (joined tokens (S p1) q, q)).
Proof.
  intros tokens pos Hid.
  destruct (IsID_some _ _ Hid) as (t & E & _).
  pose proof (AsLexeme_some _ _ _ E) as El.
  assert (Et : tokens_at tokens pos = Ok t) by (unfold tokens_at; now rewrite E).
  split.
  - intros ty p1 Hu Hty Hid1 Hp.
    destruct (IsID_some _ _ Hid1) as (t1 & E1 & _).
    pose proof (AsLexeme_some _ _ _ E1) as El1.
    assert (Et1 : tokens_at tokens p1 = Ok t1)
      by (unfold tokens_at; now rewrite E1).
    pose proof (IsID_in_range _ _ Hid1) as L1.
    rewrite El in Hu. apply String.eqb_neq in Hu. apply Ascii.eqb_neq in Hp.
    assert (Hhead : forall c k,
               ProcessConcept_variable tokens (S p1)
                 (with_name (with_type new_ElementInfo ty) (lexeme t1)) c = k ->
               ProcessConcept_member tokens pos c = k).
    { intros c k Hk. unfold ProcessConcept_member.
      rewrite RequireID_pass, Et by assumption. cbn [bind].
      rewrite Hu, Hty. cbn [bind].
      rewrite RequireID_pass, Et1 by assumption. cbn [bind].
      now rewrite Hp. }
    destruct (Ascii.eqb_spec (AsChar tokens (Z.of_nat (S p1))) ";")
      as [Es | Es].
    + exists (S (S p1)).
      assert (S p1 < length tokens)
        by (apply AsChar_in_range; rewrite Es; discriminate).
      repeat split; try lia; try congruence.
      intros c. apply Hhead. unfold ProcessConcept_variable.
      rewrite Es, El1. reflexivity.
    + destruct (ProcessCode_returns_joined tokens (S p1) false false)
        as (q & Hc & H1 & H2); [lia |].
      exists q. repeat split; try lia; try congruence.
      intros c. apply Hhead. unfold ProcessConcept_variable.
      apply Ascii.eqb_neq in Es. rewrite Es, Hc, El1. reflexivity.
  - intros nm p1 Hu Hid1 Hty He.
    assert (L1 : p1 < length tokens)
      by (apply AsChar_in_range; rewrite He; discriminate).
    destruct (ProcessCode_returns_joined tokens (S p1) false false)
      as (q & Hc & H1 & H2); [lia |].
    exists q. repeat split; try lia; try congruence.
    intros c. unfold ProcessConcept_member.
    rewrite RequireID_pass, Et by assumption. cbn [bind].
    rewrite <- El, Hu. cbn [String.eqb Ascii.eqb Bool.eqb]. cbv iota.
    unfold ProcessConcept_using.
    rewrite RequireID_pass by assumption. cbn [bind].
    rewrite Hty. cbn [bind].
    rewrite RequireChar_pass by assumption. cbn [bind].
    rewrite Hc. reflexivity.
Qed.

Lemma variable_and_alias_members_take_the_rest_of_the_statement_witness :
  exists q,
    S 1 <= q /\
    q <= length [ID "int"; ID "x"; SYM "="; mkToken Number "5"; SYM "}"] /\
    member_at [ID "int"; ID "x"; SYM "="; mkToken Number "5"; SYM "}"] 0
      IsVariable
      (mkElementInfo "int"
         (AsLexeme [ID "int"; ID "x"; SYM "="; mkToken Number "5"; SYM "}"]
            (Z.of_nat 1)) [] []
         (if Ascii.eqb
               (AsChar [ID "int"; ID "x"; SYM "="; mkToken Number "5"; SYM "}"]
                  (Z.of_nat (S 1))) ";"
          then EmptyString
          else joined [ID "int"; ID "x"; SYM "="; mkToken Number "5"; SYM "}"]
                 (S 1) q)
         EmptyString) q /\
    (AsChar [ID "int"; ID "x"; SYM "="; mkToken Number "5"; SYM "}"]
       (Z.of_nat (S 1)) = ";"%char -> q = S (S 1)) /\
    (AsChar [ID "int"; ID "x"; SYM "="; mkToken Number "5"; SYM "}"]
       (Z.of_nat (S 1)) <> ";"%char ->
     ProcessCode [ID "int"; ID "x"; SYM "="; mkToken Number "5"; SYM "}"]
       (S 1) false false
     = Ok (joined [ID "int"; ID "x"; SYM "="; mkToken Number "5"; SYM "}"]
             (S 1) q, q)).
Proof.
  apply (proj1 (variable_and_alias_members_take_the_rest_of_the_statement
                  [ID "int"; ID "x"; SYM "="; mkToken Number "5"; SYM "}"] 0
                  ltac:(reflexivity)) "int" 1).
  - discriminate.
  - reflexivity.
  - reflexivity.
  - discriminate.
Defined.

(** * Type packs *)

Section TypePackFacts.

Variable cpp_type : Type.
Variable is_same : cpp_type -> cpp_type -> bool.
Hypothesis is_same_spec : forall a b, is_same a b = true <-> a = b.

Lemma is_same_false (a b : cpp_type) : is_same a b = false <-> a <> b.
Proof.
  rewrite <- is_same_spec. destruct (is_same a b); split; congruence.
Qed.

Lemma has_type_In (TEST : cpp_type) (Ts : list cpp_type) :
  has_type is_same TEST Ts = true <-> In TEST Ts.
Proof.
  induction Ts as [| T Ts IH]; simpl; [split; [discriminate | tauto] |].
  rewrite orb_true_iff, IH, is_same_spec. split; intros [H | H]; auto.
Qed.

Lemma get_type_index_impl_range (TEST : cpp_type) (Ts : list cpp_type) :
  (-1 <= get_type_index_impl is_same TEST Ts < Z.of_nat (length Ts))%Z.
Proof.
  induction Ts as [| T Ts IH]; simpl length; cbn [get_type_index_impl];
    [lia |].
  destruct (is_same TEST T); [lia |]. cbv zeta.
  destruct (Z.ltb_spec (get_type_index_impl is_same TEST Ts) 0); lia.
Qed.

(** X15. [get_type_index] finds the first place of a type in a pack and
    [pack_id] reads it back: the index is -1 exactly when [has_type] is
    false, that is when the type is not in the pack; otherwise it lies
    between 0 and the size of the pack, [pack_id] at that index is the type
    asked for, and no earlier index holds it. *)
Theorem get_type_index_is_the_first_place :
  forall TEST Ts,
    (get_type_index is_same TEST Ts = (-1)%Z <->
     has_type is_same TEST Ts = false) /\
    (has_type is_same TEST Ts = true <-> In TEST Ts) /\
    (get_type_index is_same TEST Ts <> (-1)%Z ->
     (0 <= get_type_index is_same TEST Ts < Z.of_nat (length Ts))%Z /\
     pack_id (Z.to_nat (get_type_index is_same TEST Ts)) Ts = Some TEST /\
     forall j, (Z.of_nat j < get_type_index is_same TEST Ts)%Z ->
               pack_id j Ts <> Some TEST).
Proof.
  intros TEST Ts. unfold get_type_index.
  split; [| split; [apply has_type_In |]].
  - induction Ts as [| T Ts IH]; cbn [get_type_index_impl has_type];
      [tauto |].
    destruct (is_same TEST T); cbn [orb]; [split; discriminate |].
    cbv zeta. rewrite <- IH.
    pose proof (get_type_index_impl_range TEST Ts).
    destruct (Z.ltb_spec (get_type_index_impl is_same TEST Ts) 0);
      split; intros; lia.
  - induction Ts as [| T Ts IH]; cbn [get_type_index_impl]; [congruence |].
    destruct (is_same TEST T) eqn:E.
    + intros _. apply is_same_spec in E. subst T. simpl.
      repeat split; try lia; intros j Hj; lia.
    + cbv zeta. pose proof (get_type_index_impl_range TEST Ts) as R.
      destruct (Z.ltb_spec (get_type_index_impl is_same TEST Ts) 0) as [L | L];
        [congruence |].
      intros _. destruct IH as (Hr & Hp & Hf); [lia |].
      simpl length. repeat split; try lia.
      * replace (Z.to_nat (get_type_index_impl is_same TEST Ts + 1))
          with (S (Z.to_nat (get_type_index_impl is_same TEST Ts))) by lia.
        exact Hp.
      * intros [| j] Hj; simpl.
        -- apply is_same_false in E. congruence.
        -- apply Hf. lia.
Qed.

Lemma count_type_count_occ (eq_dec : forall a b : cpp_type, {a = b} + {a <> b})
    (TEST : cpp_type) (Ts : list cpp_type) :
  count_type is_same TEST Ts = count_occ eq_dec Ts TEST.
Proof.
  induction Ts as [| T Ts IH]; simpl; [reflexivity |].
  rewrite IH. destruct (eq_dec T TEST) as [-> | Hne].
  - assert (E : is_same TEST TEST = true) by now apply is_same_spec.
    rewrite E. lia.
  - assert (E : is_same TEST T = false) by (apply is_same_false; congruence).
    rewrite E. lia.
Qed.

Lemma has_unique_first_type_notin (TYPE1 : cpp_type)
    (others : list cpp_type) :
  has_unique_first_type is_same TYPE1 others = true <-> ~ In TYPE1 others.
Proof.
  induction others as [| T Ts IH]; simpl; [tauto |].
  rewrite andb_true_iff, negb_true_iff, IH, is_same_false.
  split; [intros [H1 H2] [H | H]; congruence | intros H; split; auto].
Qed.

(** X16. [has_unique_types] is true exactly for a pack without a repeated
    type, and that is exactly when [count_type] is at most 1 for every
    type; [count_type] is at most the size of the pack and is 0 exactly
    when [has_type] is false. *)
Theorem has_unique_types_means_no_repetition :
  forall TYPE1 others,
    (has_unique_types is_same TYPE1 others = true <->
     NoDup (TYPE1 :: others)) /\
    (has_unique_types is_same TYPE1 others = true <->
     forall T, count_type is_same T (TYPE1 :: others) <= 1) /\
    (forall T Ts,
        count_type is_same T Ts <= length Ts /\
        (count_type is_same T Ts = 0 <-> has_type is_same T Ts = false)).
Proof.
  assert (eq_dec : forall a b : cpp_type, {a = b} + {a <> b}).
  { intros a b. destruct (is_same a b) eqn:E.
    - left. now apply is_same_spec.
    - right. now apply is_same_false. }
  assert (Hnodup : forall TYPE1 others,
             has_unique_types is_same TYPE1 others = true <->
             NoDup (TYPE1 :: others)).
  { intros TYPE1 others. revert TYPE1.
    induction others as [| T Ts IH]; intros TYPE1.
    - simpl. split; [intros _; repeat constructor; auto | reflexivity].
    - cbn [has_unique_types].
      rewrite andb_true_iff, has_unique_first_type_notin, IH.
      split.
      + intros [H1 H2]. now constructor.
      + intros H. inversion H; subst. now split. }
  intros TYPE1 others. split; [apply Hnodup |]. split.
  - rewrite Hnodup, (NoDup_count_occ eq_dec).
    split; intros H T; specialize (H T);
      now rewrite count_type_count_occ with (eq_dec := eq_dec) in *.
  - intros T Ts. split.
    + rewrite count_type_count_occ with (eq_dec := eq_dec).
      apply count_occ_bound.
    + rewrite count_type_count_occ with (eq_dec := eq_dec).
      rewrite <- count_occ_not_In, <- has_type_In.
      now destruct (has_type is_same T Ts).
Qed.

(** X17. [pack_id] succeeds exactly for an index below the size of the
    pack, and [last_type] exists exactly for a non-empty pack, where it is
    the type written last. *)
Theorem pack_id_and_last_type :
  forall (Ts : list cpp_type),
    (forall ID, pack_id ID Ts = None <-> length Ts <= ID) /\
    (last_type Ts = None <-> Ts = []) /\
    (forall front T, Ts = front ++ [T] -> last_type Ts = Some T).
Proof.
  assert (Hnth : forall (Ts : list cpp_type) ID,
             pack_id ID Ts = nth_error Ts ID).
  { induction Ts as [| T Ts IH]; intros [| ID]; simpl; auto. }
  intros Ts. split; [| split].
  - intros ID. rewrite Hnth. apply nth_error_None.
  - unfold last_type. destruct Ts as [| T Ts]; [tauto |].
    cbn [length]. rewrite Hnth. split; [| discriminate].
    intros H. apply nth_error_None in H. simpl in H. lia.
  - intros front T ->. unfold last_type.
    rewrite length_app. cbn [length]. rewrite Nat.add_1_r, Hnth.
    rewrite nth_error_app2 by lia. now rewrite Nat.sub_diag.
Qed.

End TypePackFacts.

Lemma get_type_index_is_the_first_place_witness :
  (0 <= get_type_index Nat.eqb example_type example_pack
   < Z.of_nat (length example_pack))%Z /\
  pack_id (Z.to_nat (get_type_index Nat.eqb example_type example_pack))
    example_pack = Some example_type /\
  forall j,
    (Z.of_nat j < get_type_index Nat.eqb example_type example_pack)%Z ->
    pack_id j example_pack <> Some example_type.
Proof.
  apply (proj2 (proj2 (get_type_index_is_the_first_place nat Nat.eqb
                         Nat.eqb_eq example_type example_pack))).
  vm_compute. discriminate.
Defined.

Lemma has_unique_types_means_no_repetition_witness :
  has_unique_types Nat.eqb 3 [7; 5] = true <-> NoDup (3 :: [7; 5]).
Proof.
  apply (proj1 (has_unique_types_means_no_repetition nat Nat.eqb
                  Nat.eqb_eq 3 [7; 5])).
Defined.

Lemma pack_id_and_last_type_witness :
  last_type [3; 7; 5] = Some 5.
Proof.
  apply (proj2 (proj2 (pack_id_and_last_type nat [3; 7; 5])) [3; 7] 5).
  reflexivity.
Defined.
